(** * Adaptive moments (SdssShape) of LSST meas_base: model and properties

    A shallow embedding of the numeric core of [SdssShape.cc]: the weight
    solver [getWeights], the pixel accumulator [calcmom], the iteration
    engine [getAdaptiveMoments] with its driver [computeAdaptiveMoments],
    the Fisher-matrix error step and [computeFixedMomentsFlux].

    The code computes on C++ [double] and [float].  The model is written
    once over an interface of the operations the code applies to them
    ([Arith], [Libm]) and is read at two instances:
    - [binary64]: Rocq's primitive IEEE 754 floats, for the arithmetic of
      [double] as the machine performs it;
    - [xreal]: the real numbers with one extra value NaN, the exact
      arithmetic in which the algebraic identities are stated. *)

From Stdlib Require Import Floats.
From Stdlib Require Import ZArith List Bool Lia.
From Stdlib Require Import Reals Lra.
Import ListNotations.

Set Implicit Arguments.

(** ** The arithmetic of [double] *)

(** What the code does with a [double]: IEEE arithmetic, the comparisons
    (all false on NaN), [std::isnan], [fabs], [std::sqrt], and the
    conversion of an [int]. *)
Class Arith (F : Type) : Type := {
  fadd : F -> F -> F;
  fsub : F -> F -> F;
  fmul : F -> F -> F;
  fdiv : F -> F -> F;
  fneg : F -> F;
  fabs : F -> F;
  fsqrt : F -> F;
  flt : F -> F -> bool;
  fle : F -> F -> bool;
  feq : F -> F -> bool;
  isnan : F -> bool;
  NaN : F;
  of_int : Z -> F;
  geom_PI : F
}.

Declare Scope fl_scope.
Delimit Scope fl_scope with fl.
Notation "x + y" := (fadd x y) : fl_scope.
Notation "x - y" := (fsub x y) : fl_scope.
Notation "x * y" := (fmul x y) : fl_scope.
Notation "x / y" := (fdiv x y) : fl_scope.
Notation "- x" := (fneg x) : fl_scope.
Notation "x <? y" := (flt x y) : fl_scope.
Notation "x <=? y" := (fle x y) : fl_scope.
Notation "x >? y" := (flt y x) : fl_scope.
Notation "x >=? y" := (fle y x) : fl_scope.
Notation "x =? y" := (feq x y) : fl_scope.

Section Literals.
Context {F : Type} `{Arith F}.
Local Open Scope fl_scope.

  (** A decimal literal [p/q] of the source: both [p] and [q] are exactly
      representable, so the correctly rounded quotient is the literal. *)
Definition lit (p q : Z) : F := of_int p / of_int q.

  (** [std::numeric_limits<float>::epsilon()], 2^-23. *)
Definition float_epsilon : F := lit 1 8388608.
  (** [std::numeric_limits<double>::epsilon()], 2^-52. *)
Definition double_epsilon : F := lit 1 4503599627370496.
  (** [geom::TWOPI]. *)
Definition geom_TWOPI : F := geom_PI * of_int 2.

Definition fmax (a b : F) : F := if a <? b then b else a.
Definition fmin (a b : F) : F := if b <? a then b else a.
End Literals.

(** *** IEEE binary64 *)

Definition float_of_Z (z : Z) : float :=
  match z with
  | Z0 => PrimFloat.zero
  | Zpos _ => PrimFloat.of_uint63 (Uint63.of_Z z)
  | Zneg _ => PrimFloat.opp (PrimFloat.of_uint63 (Uint63.of_Z (Z.opp z)))
  end.

#[export] Instance binary64 : Arith float := {
  fadd := PrimFloat.add;
  fsub := PrimFloat.sub;
  fmul := PrimFloat.mul;
  fdiv := PrimFloat.div;
  fneg := PrimFloat.opp;
  fabs := PrimFloat.abs;
  fsqrt := PrimFloat.sqrt;
  flt := PrimFloat.ltb;
  fle := PrimFloat.leb;
  feq := PrimFloat.eqb;
  isnan := PrimFloat.is_nan;
  NaN := PrimFloat.nan;
  of_int := float_of_Z;
  geom_PI := 0x1.921fb54442d18p+1%float
}.

(** *** Exact arithmetic with NaN *)

(** A real number or NaN.  There is no rounding, no overflow and no
    infinity: a quotient by zero and the root of a negative number are
    NaN. *)
Inductive xreal : Type :=
| XNaN : xreal
| XR : R -> xreal.

Definition Rltb (a b : R) : bool := if Rlt_dec a b then true else false.
Definition Rleb (a b : R) : bool := if Rle_dec a b then true else false.
Definition Reqb (a b : R) : bool := if Req_dec_T a b then true else false.

Definition xlift2 (f : R -> R -> R) (a b : xreal) : xreal :=
  match a, b with
  | XR x, XR y => XR (f x y)
  | _, _ => XNaN
  end.

Definition xcmp (f : R -> R -> bool) (a b : xreal) : bool :=
  match a, b with
  | XR x, XR y => f x y
  | _, _ => false
  end.

Definition xdiv (a b : xreal) : xreal :=
  match a, b with
  | XR x, XR y => if Reqb y 0%R then XNaN else XR (Rdiv x y)
  | _, _ => XNaN
  end.

Definition xsqrt (a : xreal) : xreal :=
  match a with
  | XR x => if Rltb x 0%R then XNaN else XR (sqrt x)
  | XNaN => XNaN
  end.

Definition xmap (f : R -> R) (a : xreal) : xreal :=
  match a with
  | XR x => XR (f x)
  | XNaN => XNaN
  end.

#[export] Instance exact : Arith xreal := {
  fadd := xlift2 Rplus;
  fsub := xlift2 Rminus;
  fmul := xlift2 Rmult;
  fdiv := xdiv;
  fneg := xmap Ropp;
  fabs := xmap Rabs;
  fsqrt := xsqrt;
  flt := xcmp Rltb;
  fle := xcmp Rleb;
  feq := xcmp Reqb;
  isnan := fun a => match a with XNaN => true | XR _ => false end;
  NaN := XNaN;
  of_int := fun z => XR (IZR z);
  geom_PI := XR PI
}.

(** ** The weight solver *)

Section Solver.
Context {F : Type} `{Arith F}.
Local Open Scope fl_scope.

  (** The value of [getWeights]: [((ok, det), w11, w12, w22)], as the
      [std::tuple<std::pair<bool, double>, double, double, double>]. *)
Definition weights_t : Type := ((bool * F) * F * F * F)%type.
Definition get0 (w : weights_t) : bool * F := fst (fst (fst w)).
Definition get1 (w : weights_t) : F := snd (fst (fst w)).
Definition get2 (w : weights_t) : F := snd (fst w).
Definition get3 (w : weights_t) : F := snd w.

  (** Calculate weights from moments. *)
Definition getWeights (sigma11 sigma12 sigma22 : F) : weights_t :=
    if isnan sigma11 || isnan sigma12 || isnan sigma22 then
      ((false, NaN), NaN, NaN, NaN)
    else
      let det := sigma11 * sigma22 - sigma12 * sigma12 in
      if isnan det || (det <? float_epsilon) then
        ((false, det), NaN, NaN, NaN)
      else
        ((true, det), sigma22 / det, - sigma12 / det, sigma11 / det).

  (** Should we be interpolating? *)
Definition shouldInterp (sigma11 sigma22 det : F) : bool :=
    let xinterp := lit 1 4 in
    (sigma11 <? xinterp) || (sigma22 <? xinterp) || (det <? xinterp * xinterp).
End Solver.

(** ** Exceptions and results *)

(** The exception classes of [lsst::pex::exceptions] the code throws. *)
Inductive exn : Type :=
| InvalidParameterError
| LengthError
| DomainError
| RuntimeError
| LogicError.

(** The outcome of a call: a value, an exception, or no return ([Diverge]:
    a floating-point loop of the source that has not ended within the
    steps the model gives it). *)
Inductive outcome (A : Type) : Type :=
| Ret (a : A)
| Throw (e : exn)
| Diverge.
Arguments Throw {A} e.
Arguments Diverge {A}.

Definition bind {A B : Type} (m : outcome A) (k : A -> outcome B) : outcome B :=
  match m with
  | Ret a => k a
  | Throw e => Throw e
  | Diverge => Diverge
  end.

Notation "x <- m ;; k" := (bind m (fun x => k))
  (at level 61, m at next level, right associativity).

(** ** Integer boxes

    [lsst::geom::Box2I] belongs to a library outside the repository; the
    operations the code calls are modelled after its documentation: a box
    is its minimum corner and its dimensions, and every empty box is the
    default one. *)
Module geom.
Record Box2I : Type := {
    minimum_x : Z;
    minimum_y : Z;
    dimensions_x : Z;
    dimensions_y : Z
  }.

  (** [Box2I()]. *)
Definition empty : Box2I :=
    {| minimum_x := 0; minimum_y := 0; dimensions_x := 0; dimensions_y := 0 |}.

Definition getMinX (b : Box2I) : Z := minimum_x b.
Definition getMinY (b : Box2I) : Z := minimum_y b.
Definition getMaxX (b : Box2I) : Z := minimum_x b + dimensions_x b - 1.
Definition getMaxY (b : Box2I) : Z := minimum_y b + dimensions_y b - 1.

Definition isEmpty (b : Box2I) : bool :=
    (dimensions_x b =? 0)%Z && (dimensions_y b =? 0)%Z.

  (** The box of the pixels [x0..x1] by [y0..y1], empty when a side is. *)
Definition fromCorners (x0 y0 x1 y1 : Z) : Box2I :=
    if (x1 <? x0)%Z || (y1 <? y0)%Z then empty
    else {| minimum_x := x0; minimum_y := y0;
            dimensions_x := x1 - x0 + 1; dimensions_y := y1 - y0 + 1 |}.

  (** [b.clip(other)]: the intersection. *)
Definition clip (b other : Box2I) : Box2I :=
    if isEmpty b then b
    else if isEmpty other then empty
    else fromCorners (Z.max (getMinX b) (getMinX other))
                     (Z.max (getMinY b) (getMinY other))
                     (Z.min (getMaxX b) (getMaxX other))
                     (Z.min (getMaxY b) (getMaxY other)).

  (** [b.contains(Point2I(x, y))]. *)
Definition contains (b : Box2I) (x y : Z) : bool :=
    (getMinX b <=? x)%Z && (getMinY b <=? y)%Z &&
    (x <=? getMaxX b)%Z && (y <=? getMaxY b)%Z.
End geom.

(** ** The rest of the numeric environment *)

(** [std::exp], the conversion of a [double] to [float] (rounding to
    binary32; an operation on two [float]s is the [double] operation
    followed by it), and [static_cast<int>] of a [double]. *)
Class Libm (F : Type) : Type := {
  fexp : F -> F;
  to_float : F -> F;
  to_int : F -> Z
}.

(** Library calls whose code is outside the repository:
    [geom::Box2I(geom::Box2D(Point2D(x0, y0), Point2D(x1, y1)))], which
    rounds a real box to the pixels it covers and may throw;
    [afw::image::positionToIndex]; and Eigen's [inverse()] of a fixed
    4 by 4 matrix, which returns a matrix and reports nothing. *)
Class Extern (F : Type) : Type := {
  Box2I_of_Box2D : F -> F -> F -> F -> outcome geom.Box2I;
  positionToIndex : F -> Z;
  inverse : (nat -> nat -> F) -> nat -> nat -> F
}.

(** *** The exact instance *)

Definition Rfloor (r : R) : Z := Int_part r.
Definition Rceil (r : R) : Z := (- Int_part (- r))%Z.
Definition Rtrunc (r : R) : Z := if Rltb r 0%R then Rceil r else Rfloor r.

(** [static_cast<int>] of a NaN is [INT_MIN], what the conversion gives
    on the machines the code runs on. *)
#[export] Instance exact_libm : Libm xreal := {
  fexp := xmap exp;
  to_float := fun a => a;
  to_int := fun a => match a with XR r => Rtrunc r | XNaN => (-2147483648)%Z end
}.

(** [geom::Box2D(min, max)] followed by [geom::Box2I(Box2D)].  The first
    makes the empty box of two equal coordinates and swaps a minimum
    with a maximum below it; a comparison with NaN is false, so a NaN
    stays where it is.  The second gives the empty box for an empty
    [Box2D], which is one whose minimum x is NaN, throws
    [InvalidParameterError] for a corner that is not finite, and
    otherwise rounds to the pixels covered: pixel [i] covers
    [i - 1/2, i + 1/2). *)
Definition exact_Box2I_of_Box2D (x0 y0 x1 y1 : xreal) : outcome geom.Box2I :=
  if xcmp Reqb x0 x1 || xcmp Reqb y0 y1 then Ret geom.empty
  else
    match x0, x1, y0, y1 with
    | XR a, XR c, XR b, XR d =>
        Ret (geom.fromCorners (Rfloor (Rmin a c + / 2)) (Rfloor (Rmin b d + / 2))
                              (Rceil (Rmax a c - / 2)) (Rceil (Rmax b d - / 2)))
    | XNaN, _, _, _ => Ret geom.empty
    | XR _, _, _, _ => Throw InvalidParameterError
    end.

Section Cofactors.
Context {F : Type} `{Arith F}.
Local Open Scope fl_scope.

  (** Row or column [k] of a minor: index [k] of the matrix with index
      [i] removed. *)
Definition skip (i k : nat) : nat := if (k <? i)%nat then k else S k.

Definition det3 (m : nat -> nat -> F) : F :=
    m 0%nat 0%nat * (m 1%nat 1%nat * m 2%nat 2%nat - m 1%nat 2%nat * m 2%nat 1%nat)
    - m 0%nat 1%nat * (m 1%nat 0%nat * m 2%nat 2%nat - m 1%nat 2%nat * m 2%nat 0%nat)
    + m 0%nat 2%nat * (m 1%nat 0%nat * m 2%nat 1%nat - m 1%nat 1%nat * m 2%nat 0%nat).

Definition minor (m : nat -> nat -> F) (i j : nat) : F :=
    det3 (fun r c => m (skip i r) (skip j c)).

Definition cofactor (m : nat -> nat -> F) (i j : nat) : F :=
    if Nat.even (i + j) then minor m i j else - minor m i j.

Definition det4 (m : nat -> nat -> F) : F :=
    m 0%nat 0%nat * cofactor m 0 0 + m 0%nat 1%nat * cofactor m 0 1
    + m 0%nat 2%nat * cofactor m 0 2 + m 0%nat 3%nat * cofactor m 0 3.

  (** The closed-form inverse of a 4 by 4 matrix: the transposed
      cofactors over the determinant, with no test of the determinant. *)
Definition cofactor_inverse (m : nat -> nat -> F) (i j : nat) : F :=
    cofactor m j i / det4 m.
End Cofactors.

#[export] Instance exact_extern : Extern xreal := {
  Box2I_of_Box2D := exact_Box2I_of_Box2D;
  positionToIndex := fun a =>
    match a with XR r => Rfloor (r + / 2) | XNaN => (-2147483648)%Z end;
  inverse := cofactor_inverse
}.

(** ** Images *)

(** An [Image] or a [MaskedImage]: its dimensions, its origin in the
    parent frame, its pixels by local index, and the variance plane when
    it is a [MaskedImage]. *)
Record Image (F : Type) : Type := {
  getWidth : Z;
  getHeight : Z;
  getX0 : Z;
  getY0 : Z;
  pixel : Z -> Z -> F;
  variance : option (Z -> Z -> F)
}.

Section Adaptor.
Context {F : Type} `{Arith F}.

  (** [ImageAdaptor<ImageT>::hasVariance]. *)
Definition hasVariance (image : Image F) : bool :=
    match variance image with Some _ => true | None => false end.

  (** [ImageAdaptor<ImageT>().getVariance(image, ix, iy)]. *)
Definition getVariance (image : Image F) (ix iy : Z) : F :=
    match variance image with Some v => v ix iy | None => NaN end.

  (** [image.getBBox(afw::image::LOCAL)]. *)
Definition getBBox_LOCAL (image : Image F) : geom.Box2I :=
    {| geom.minimum_x := 0; geom.minimum_y := 0;
       geom.dimensions_x := getWidth image; geom.dimensions_y := getHeight image |}.
End Adaptor.

(** ** The pixel moment accumulator *)

(** The sums [calcmom] accumulates. *)
Record Moments (F : Type) : Type := {
  sum : F;
  sumx : F;
  sumy : F;
  sumxx : F;
  sumxy : F;
  sumyy : F;
  sums4 : F
}.

(** The integers [lo], [lo + 1], .., [hi] of a [for] loop. *)
Definition Zrange (lo hi : Z) : list Z :=
  map (fun k => (lo + Z.of_nat k)%Z) (seq 0 (Z.to_nat (hi - lo + 1))).

(** Steps granted to one loop over the sub-pixel grid
    ([for (X = xl; X <= xh; X += 0.25)]); in binary32 it takes at most
    five when it ends at all. *)
Definition subgrid_fuel : nat := 16.

Section Accumulator.
Context {F : Type} `{Arith F} `{Libm F}.
Local Open Scope fl_scope.

Definition zero_moments : Moments F :=
    {| sum := of_int 0; sumx := of_int 0; sumy := of_int 0; sumxx := of_int 0;
       sumxy := of_int 0; sumyy := of_int 0; sums4 := of_int 0 |}.

  (** [w11 < 0 || w11 > 1e6 || fabs(w12) > 1E6 || w22 < 0 || w22 > 1e6]. *)
Definition invalid_weights (w11 w12 w22 : F) : bool :=
    (w11 <? of_int 0) || (w11 >? of_int 1000000) || (fabs w12 >? of_int 1000000)
    || (w22 <? of_int 0) || (w22 >? of_int 1000000).

  (** [ix0 < 0 || ix1 >= image.getWidth() || iy0 < 0 || iy1 >= image.getHeight()]. *)
Definition outside_image (image : Image F) (bbox : geom.Box2I) : bool :=
    (geom.getMinX bbox <? 0)%Z || (geom.getMaxX bbox >=? getWidth image)%Z
    || (geom.getMinY bbox <? 0)%Z || (geom.getMaxY bbox >=? getHeight image)%Z.

  (** [for (X = lo; X <= hi; X += 0.25) body]. *)
Fixpoint subgrid (A : Type) (fuel : nat) (X hi : F)
      (body : F -> A -> outcome A) (acc : A) : outcome A :=
    if X <=? hi then
      match fuel with
      | O => Diverge
      | S fuel' =>
          acc' <- body X acc ;;
          subgrid fuel' (to_float (X + lit 1 4)) hi body acc'
      end
    else Ret acc.

  (** [for (k = lo; k <= hi; ++k) body]. *)
Fixpoint for_each (A : Type) (ks : list Z) (body : Z -> A -> outcome A)
      (acc : A) : outcome A :=
    match ks with
    | [] => Ret acc
    | k :: ks' => acc' <- body k acc ;; for_each ks' body acc'
    end.

  (** The largest exponent at the four corners [xl], [xh] by [yl], [yh]
      of the pixel. *)
Definition corner_expon (xl xh yl yh w11 w12 w22 : F) : F :=
    let expon := to_float (to_float (xl * xl) * w11 + to_float (yl * yl) * w22
                           + of_int 2 * xl * yl * w12) in
    let tmp := to_float (to_float (xh * xh) * w11 + to_float (yh * yh) * w22
                         + of_int 2 * xh * yh * w12) in
    let expon := if expon >? tmp then expon else tmp in
    let tmp := to_float (to_float (xl * xl) * w11 + to_float (yh * yh) * w22
                         + of_int 2 * xl * yh * w12) in
    let expon := if expon >? tmp then expon else tmp in
    let tmp := to_float (to_float (xh * xh) * w11 + to_float (yl * yl) * w22
                         + of_int 2 * xh * yl * w12) in
    if expon >? tmp then expon else tmp.

Section FluxOnly.
Variables (image : Image F) (xcen ycen : F) (bkgd : F) (interpflag : bool)
              (w11 w12 w22 : F).

    (** One point [(X, Y)] of the sub-pixel grid. *)
Definition flux_subpixel (tmod Y X sum : F) : outcome F :=
      let interpY2 := to_float (Y * Y) in
      let interpX2 := to_float (X * X) in
      let interpXy := to_float (X * Y) in
      let expon := to_float (interpX2 * w11 + of_int 2 * interpXy * w12
                             + interpY2 * w22) in
      let weight := to_float (fexp (- lit 1 2 * expon)) in
      let ymod := to_float (tmod * weight) in
      Ret (sum + ymod).

    (** The body of the two loops at pixel [(j, i)]. *)
Definition flux_pixel (i j : Z) (sum : F) : outcome F :=
      let y := to_float (of_int i - ycen) in
      let y2 := to_float (y * y) in
      let yl := to_float (y - lit 3 8) in
      let yh := to_float (y + lit 3 8) in
      let x := to_float (of_int j - xcen) in
      if interpflag then
        let xl := to_float (x - lit 3 8) in
        let xh := to_float (x + lit 3 8) in
        let expon := corner_expon xl xh yl yh w11 w12 w22 in
        if expon <=? of_int 9 then
          let tmod := to_float (pixel image j i - bkgd) in
          subgrid subgrid_fuel yl yh
            (fun Y => subgrid subgrid_fuel xl xh (flux_subpixel tmod Y)) sum
        else Ret sum
      else
        let x2 := to_float (x * x) in
        let xy := to_float (x * y) in
        let expon := to_float (x2 * w11 + to_float (of_int 2 * xy) * w12 + y2 * w22) in
        if expon <=? of_int 14 then
          let weight := to_float (fexp (- lit 1 2 * expon)) in
          let tmod := to_float (pixel image j i - bkgd) in
          let ymod := to_float (tmod * weight) in
          Ret (sum + ymod)
        else Ret sum.
End FluxOnly.

  (** [calcmom] with the single output [psum]: the flux-only variant. *)
Definition calcmom_flux (image : Image F) (xcen ycen : F) (bbox : geom.Box2I)
      (bkgd : F) (interpflag : bool) (w11 w12 w22 : F) : outcome F :=
    let xcen := to_float xcen in
    let ycen := to_float ycen in
    let bkgd := to_float bkgd in
    if invalid_weights w11 w12 w22 then Throw InvalidParameterError
    else
      let ix0 := geom.getMinX bbox in
      let ix1 := geom.getMaxX bbox in
      let iy0 := geom.getMinY bbox in
      let iy1 := geom.getMaxY bbox in
      if outside_image image bbox then Throw LengthError
      else
        for_each (Zrange iy0 iy1)
          (fun i => for_each (Zrange ix0 ix1)
                      (flux_pixel image xcen ycen bkgd interpflag w11 w12 w22 i))
          (of_int 0).

Section Full.
Variables (image : Image F) (xcen ycen : F) (bkgd : F) (interpflag : bool)
              (w11 w12 w22 : F).

    (** One point [(X, Y)] of the sub-pixel grid. *)
Definition subpixel (tmod Y X : F) (m : Moments F) : outcome (Moments F) :=
      let interpY2 := to_float (Y * Y) in
      let interpX2 := to_float (X * X) in
      let interpXy := to_float (X * Y) in
      let expon := to_float (interpX2 * w11 + of_int 2 * interpXy * w12
                             + interpY2 * w22) in
      let weight := to_float (fexp (- lit 1 2 * expon)) in
      let ymod := to_float (tmod * weight) in
      Ret {| sum := sum m + ymod;
             sumx := sumx m + to_float (ymod * to_float (X + xcen));
             sumy := sumy m + to_float (ymod * to_float (Y + ycen));
             sumxx := sumxx m + interpX2 * ymod;
             sumxy := sumxy m + interpXy * ymod;
             sumyy := sumyy m + interpY2 * ymod;
             sums4 := sums4 m + to_float (to_float (expon * expon) * ymod) |}.

    (** The body of the two loops at pixel [(j, i)]. *)
Definition pixel_step (i j : Z) (m : Moments F) : outcome (Moments F) :=
      let y := to_float (of_int i - ycen) in
      let y2 := to_float (y * y) in
      let yl := to_float (y - lit 3 8) in
      let yh := to_float (y + lit 3 8) in
      let x := to_float (of_int j - xcen) in
      if interpflag then
        let xl := to_float (x - lit 3 8) in
        let xh := to_float (x + lit 3 8) in
        let expon := corner_expon xl xh yl yh w11 w12 w22 in
        if expon <=? of_int 9 then
          let tmod := to_float (pixel image j i - bkgd) in
          subgrid subgrid_fuel yl yh
            (fun Y => subgrid subgrid_fuel xl xh (subpixel tmod Y)) m
        else Ret m
      else
        let x2 := to_float (x * x) in
        let xy := to_float (x * y) in
        let expon := to_float (x2 * w11 + to_float (of_int 2 * xy) * w12 + y2 * w22) in
        if expon <=? of_int 14 then
          let weight := to_float (fexp (- lit 1 2 * expon)) in
          let tmod := to_float (pixel image j i - bkgd) in
          let ymod := to_float (tmod * weight) in
          Ret {| sum := sum m + ymod;
                 sumx := sumx m + to_float (ymod * of_int j);
                 sumy := sumy m + to_float (ymod * of_int i);
                 sumxx := sumxx m + to_float (x2 * ymod);
                 sumxy := sumxy m + to_float (xy * ymod);
                 sumyy := sumyy m + to_float (y2 * ymod);
                 sums4 := sums4 m + to_float (to_float (expon * expon) * ymod) |}
        else Ret m.
End Full.

  (** What the full [calcmom] hands back: its [int] status, [pI0], and the
      sums it writes through its reference parameters. *)
Record calcmom_result : Type := {
    status : Z;
    pI0 : F;
    psums : Moments F
  }.

  (** [calcmom]: weighted moments of an object up to 2nd order. *)
Definition calcmom (image : Image F) (xcen ycen : F) (bbox : geom.Box2I)
      (bkgd : F) (interpflag : bool) (w11 w12 w22 : F) (negative : bool)
      : outcome calcmom_result :=
    let xcen := to_float xcen in
    let ycen := to_float ycen in
    let bkgd := to_float bkgd in
    if invalid_weights w11 w12 w22 then Throw InvalidParameterError
    else
      let ix0 := geom.getMinX bbox in
      let ix1 := geom.getMaxX bbox in
      let iy0 := geom.getMinY bbox in
      let iy1 := geom.getMaxY bbox in
      if outside_image image bbox then Throw LengthError
      else
        m <- for_each (Zrange iy0 iy1)
               (fun i => for_each (Zrange ix0 ix1)
                           (pixel_step image xcen ycen bkgd interpflag w11 w12 w22 i))
               zero_moments ;;
        let weights := getWeights w11 w12 w22 in
        let detW := get1 weights * get3 weights - get2 weights * get2 weights in
        let I0 := sum m / (geom_PI * fsqrt detW) in
        Ret {| status :=
                 if negative then
                   if (sum m <? of_int 0) && (sumxx m <? of_int 0) && (sumyy m <? of_int 0)
                   then 0%Z else (-1)%Z
                 else
                   if (sum m >? of_int 0) && (sumxx m >? of_int 0) && (sumyy m >? of_int 0)
                   then 0%Z else (-1)%Z;
               pI0 := I0;
               psums := m |}.
End Accumulator.

(** ** Results and flags *)

(** The flags of [SdssShapeAlgorithm], in the order of their definition. *)
Inductive Flag : Type :=
| FAILURE
| UNWEIGHTED_BAD
| UNWEIGHTED
| SHIFT
| MAXITER
| PSF_SHAPE_BAD.

Definition Flag_eqb (a b : Flag) : bool :=
  match a, b with
  | FAILURE, FAILURE | UNWEIGHTED_BAD, UNWEIGHTED_BAD | UNWEIGHTED, UNWEIGHTED
  | SHIFT, SHIFT | MAXITER, MAXITER | PSF_SHAPE_BAD, PSF_SHAPE_BAD => true
  | _, _ => false
  end.

(** [SdssShapeResult]: the numeric members of its bases [ShapeResult],
    [CentroidResult] and [FluxResult] and its own, by name, and the
    bitset [flags]. *)
Module Result.
Inductive member : Type :=
  | instFlux | instFluxErr
  | x | y
  | xx | yy | xy
  | xxErr | yyErr | xyErr
  | xx_yy_Cov | xx_xy_Cov | yy_xy_Cov
  | instFlux_xx_Cov | instFlux_yy_Cov | instFlux_xy_Cov.

Definition member_eqb (a b : member) : bool :=
    match a, b with
    | instFlux, instFlux | instFluxErr, instFluxErr | x, x | y, y
    | xx, xx | yy, yy | xy, xy | xxErr, xxErr | yyErr, yyErr | xyErr, xyErr
    | xx_yy_Cov, xx_yy_Cov | xx_xy_Cov, xx_xy_Cov | yy_xy_Cov, yy_xy_Cov
    | instFlux_xx_Cov, instFlux_xx_Cov | instFlux_yy_Cov, instFlux_yy_Cov
    | instFlux_xy_Cov, instFlux_xy_Cov => true
    | _, _ => false
    end.

Record t (F : Type) : Type := {
    value : member -> F;
    flags : Flag -> bool
  }.

Definition get {F : Type} (r : t F) (m : member) : F := value r m.

Definition set {F : Type} (m : member) (v : F) (r : t F) : t F :=
    {| value := fun m' => if member_eqb m m' then v else value r m';
       flags := flags r |}.

Definition set_flag {F : Type} (k : Flag) (b : bool) (r : t F) : t F :=
    {| value := value r;
       flags := fun k' => if Flag_eqb k k' then b else flags r k' |}.
End Result.

Notation "r .[ m ]" := (Result.get r m) (at level 1, format "r .[ m ]").

Section Defaults.
Context {F : Type} `{Arith F}.

  (** Modelled from the spec: the constructors of [ShapeResult] and
      [FluxResult] are not among the sources; like those of
      [CentroidResult] and [SdssShapeResult], which are, they leave every
      member at the sentinel NaN ("leaves fields at sentinel
      (not-a-number) values"), and a new bitset has no flag set. *)
Definition new_SdssShapeResult : Result.t F :=
    {| Result.value := fun _ => NaN; Result.flags := fun _ => false |}.
End Defaults.

(** [FluxResult]. *)
Record FluxResult (F : Type) : Type := {
  flux_instFlux : F;
  flux_instFluxErr : F
}.

(** [SdssShapeControl]. *)
Record Control (F : Type) : Type := {
  background : F;
  maxIter : Z;
  maxShift : F;
  tol1 : F;
  tol2 : F;
  doMeasurePsf : bool
}.

(** ** The Fisher matrix *)

Section Fisher.
Context {F : Type} `{Arith F} `{Libm F}.
Local Open Scope fl_scope.

  (** [calc_fisher]: the Fisher matrix of the least squares fit, from the
      amplitude, the moments and the sky variance. *)
Definition calc_fisher (shape : Result.t F) (bkgd_var : F)
      : outcome (nat -> nat -> F) :=
    let bkgd_var := to_float bkgd_var in
    let A := to_float shape.[Result.instFlux] in
    let sigma11W := to_float shape.[Result.xx] in
    let sigma12W := to_float shape.[Result.xy] in
    let sigma22W := to_float shape.[Result.yy] in
    let D := to_float (to_float (sigma11W * sigma22W) - to_float (sigma12W * sigma12W)) in
    if D <=? double_epsilon then Throw DomainError
    else if bkgd_var <=? of_int 0 then Throw DomainError
    else
      let F_ := geom_PI * fsqrt D / bkgd_var in
      let fac := F_ * A / (of_int 4 * D) in
      let f01 := fac * sigma22W in
      let f02 := fac * sigma11W in
      let f03 := - fac * of_int 2 * sigma12W in
      let fac := of_int 3 * F_ * A * A / (of_int 16 * D * D) in
      let f11 := fac * sigma22W * sigma22W in
      let f22 := fac * sigma11W * sigma11W in
      let f33 := fac * of_int 4 * (to_float (sigma12W * sigma12W) + D / of_int 3) in
      let f12 := f33 / of_int 4 in
      let f13 := fac * to_float (to_float (of_int (-2) * sigma22W) * sigma12W) in
      let f23 := fac * to_float (to_float (of_int (-2) * sigma11W) * sigma12W) in
      Ret (fun i j =>
             match i, j with
             | 0, 0 => F_
             | 0, 1 | 1, 0 => f01
             | 0, 2 | 2, 0 => f02
             | 0, 3 | 3, 0 => f03
             | 1, 1 => f11
             | 2, 2 => f22
             | 3, 3 => f33
             | 1, 2 | 2, 1 => f12
             | 1, 3 | 3, 1 => f13
             | 2, 3 | 3, 2 => f23
             | _, _ => NaN
             end)%nat.
End Fisher.

(** ** The iteration engine *)

Section Engine.
Context {F : Type} `{Arith F} `{Libm F} `{Extern F}.
Local Open Scope fl_scope.

  (** Decide on the bounding box for the region to examine while
      calculating the adaptive moments. *)
Definition computeAdaptiveMomentsBBox (bbox : geom.Box2I) (center_x center_y : F)
      (sigma11_w sigma12_w sigma22_w : F) (maxRadius : F) : outcome geom.Box2I :=
    let radius := fmin (of_int 4 * fsqrt (fmax sigma11_w sigma22_w)) maxRadius in
    result <- Box2I_of_Box2D (center_x - radius) (center_y - radius)
                             (center_x + radius) (center_y + radius) ;;
    Ret (geom.clip result bbox).

  (** The local variables of [getAdaptiveMoments] that live across the
      loop, and the result it writes through [shape]. *)
Record Locals : Type := {
    iter : Z;
    I0 : F;
    sums : Moments F;
    sigmaW : F * F * F;       (* sigma11W, sigma12W, sigma22W *)
    w : F * F * F;            (* w11, w12, w22 *)
    olds : F * F * F;         (* e1_old, e2_old, sigma11_ow_old *)
    interpflag : bool;
    bbox : geom.Box2I;
    shape : Result.t F
  }.

Definition with_shape (s : Result.t F) (v : Locals) : Locals :=
    {| iter := iter v; I0 := I0 v; sums := sums v; sigmaW := sigmaW v; w := w v;
       olds := olds v; interpflag := interpflag v; bbox := bbox v; shape := s |}.

Definition raise_flag (k : Flag) (v : Locals) : Locals :=
    with_shape (Result.set_flag k true (shape v)) v.

  (** How one pass through the body of the [for] loop ends. *)
Inductive pass : Type :=
  | Next (v : Locals)                 (* the end of the body: [iter++] follows *)
  | Break (v : Locals)                (* [break] *)
  | Return (b : bool) (v : Locals)    (* [return b] *)
  | Raise (e : exn) (v : Locals)      (* an exception leaves the function *)
  | Hang.                             (* a call does not return *)

Section Loop.
Variables (mimage : Image F) (bkgd xcen ycen shiftmax : F)
              (tol1 tol2 : F) (negative : bool).

Let xcen0 : F := to_float xcen.
Let ycen0 : F := to_float ycen.

    (** The second half of the loop body, from the test of what [calcmom]
    returned ([status]) to the end: the centroid, the convergence test
    and the next weighting function.  [v] holds the locals as [calcmom]
    has left them. *)
Definition update (v : Locals) (status : Z) : pass :=
if (status <? 0)%Z then Break (raise_flag UNWEIGHTED v)
else
let m := sums v in
let '(w11, w12, w22) := w v in
let '(e1_old, e2_old, sigma11_ow_old) := olds v in
let shape1 := Result.set Result.y (sumy m / sum m)
                (Result.set Result.x (sumx m / sum m) (shape v)) in
let shape2 :=
  if (fabs (shape1.[Result.x] - xcen0) >? shiftmax)
     || (fabs (shape1.[Result.y] - ycen0) >? shiftmax)
  then Result.set_flag SHIFT true shape1 else shape1 in
let v2 := with_shape shape2 v in
let sigma11_ow := to_float (sumxx m / sum m) in
let sigma22_ow := to_float (sumyy m / sum m) in
let sigma12_ow := to_float (sumxy m / sum m) in
if (sigma11_ow <=? of_int 0) || (sigma22_ow <=? of_int 0) then
  Break (raise_flag UNWEIGHTED v2)
else
let d := to_float (sigma11_ow + sigma22_ow) in
let e1 := to_float (to_float (sigma11_ow - sigma22_ow) / d) in
let e2 := to_float (of_int 2 * sigma12_ow / d) in
if (iter v >? 0)%Z && (fabs (to_float (e1 - e1_old)) <? tol1)
   && (fabs (to_float (e2 - e2_old)) <? tol1)
   && (fabs (to_float (sigma11_ow / sigma11_ow_old) - of_int 1) <? tol2)
then Break v2
else
let v3 := {| iter := iter v; I0 := I0 v; sums := m; sigmaW := sigmaW v;
             w := (w11, w12, w22); olds := (e1, e2, sigma11_ow);
             interpflag := interpflag v; bbox := bbox v; shape := shape2 |} in
let weights := getWeights sigma11_ow sigma12_ow sigma22_ow in
if negb (fst (get0 weights)) then Break (raise_flag UNWEIGHTED v3)
else
let ow11 := to_float (get1 weights) in
let ow12 := to_float (get2 weights) in
let ow22 := to_float (get3 weights) in
let n11 := to_float (ow11 - w11) in
let n12 := to_float (ow12 - w12) in
let n22 := to_float (ow22 - w22) in
let weights := getWeights n11 n12 n22 in
if negb (fst (get0 weights)) then Break (raise_flag UNWEIGHTED v3)
else
let v4 := {| iter := iter v; I0 := I0 v; sums := m;
             sigmaW := (get1 weights, get2 weights, get3 weights);
             w := (w11, w12, w22); olds := (e1, e2, sigma11_ow);
             interpflag := interpflag v; bbox := bbox v; shape := shape2 |} in
if (get1 weights <=? of_int 0) || (get3 weights <=? of_int 0) then
  Break (raise_flag UNWEIGHTED v4)
else Next v4.

(** The body of [for (; iter < maxIter; iter++)]: the box, the weights,
    the switch to interpolation, the moments, and then [update]. *)
Definition body (v : Locals) : pass :=
let '(sigma11W, sigma12W, sigma22W) := sigmaW v in
match computeAdaptiveMomentsBBox (getBBox_LOCAL mimage) xcen ycen
        sigma11W sigma12W sigma22W (of_int 1000) with
| Throw e => Raise e v
| Diverge => Hang
| Ret bbox' =>
let weights := getWeights sigma11W sigma12W sigma22W in
if negb (fst (get0 weights)) then
  Break (raise_flag UNWEIGHTED
           {| iter := iter v; I0 := I0 v; sums := sums v; sigmaW := sigmaW v;
              w := w v; olds := olds v; interpflag := interpflag v;
              bbox := bbox'; shape := shape v |})
else
let detW := snd (get0 weights) in
if sigma11W * sigma22W <? sigma12W * sigma12W - float_epsilon then
  Return false
         {| iter := iter v; I0 := I0 v; sums := sums v; sigmaW := sigmaW v;
            w := w v; olds := olds v; interpflag := interpflag v;
            bbox := bbox'; shape := shape v |}
else
let '(ow11, ow12, ow22) := w v in
let '(e1_old, e2_old, sigma11_ow_old) := olds v in
let redo :=
  shouldInterp sigma11W sigma22W detW && negb (interpflag v) && (iter v >? 0)%Z in
let interpflag' := interpflag v || shouldInterp sigma11W sigma22W detW in
let sigma11_ow_old := if redo then to_float (lit 1000000 1) else sigma11_ow_old in
let '(w11, w12, w22) :=
  if redo then (ow11, ow12, ow22)
  else (get1 weights, get2 weights, get3 weights) in
let iter' := if redo then (iter v - 1)%Z else iter v in
match calcmom mimage xcen ycen bbox' bkgd interpflag' w11 w12 w22 negative with
| Throw e =>
    Raise e {| iter := iter'; I0 := I0 v; sums := sums v; sigmaW := sigmaW v;
               w := (w11, w12, w22); olds := (e1_old, e2_old, sigma11_ow_old);
               interpflag := interpflag'; bbox := bbox'; shape := shape v |}
| Diverge => Hang
| Ret r =>
    update {| iter := iter'; I0 := pI0 r; sums := psums r; sigmaW := sigmaW v;
              w := (w11, w12, w22); olds := (e1_old, e2_old, sigma11_ow_old);
              interpflag := interpflag'; bbox := bbox'; shape := shape v |}
           (status r)
end
end.

(** [for (; iter < maxIter; iter++) body]: the pass that leaves the
        loop, [Break] when the condition [iter < maxIter] ends it.  Every
        pass but the one that first turns interpolation on moves [iter]
        forward, so [maxIter + 1] passes are enough ([fuel]). *)
Fixpoint loop (fuel : nat) (maxIter : Z) (v : Locals) : pass :=
      if (iter v <? maxIter)%Z then
        match fuel with
        | O => Hang
        | S fuel' =>
            match body v with
            | Next v' =>
                loop fuel' maxIter
                  {| iter := (iter v' + 1)%Z; I0 := I0 v'; sums := sums v';
                     sigmaW := sigmaW v'; w := w v'; olds := olds v';
                     interpflag := interpflag v'; bbox := bbox v'; shape := shape v' |}
            | p => p
            end
        end
      else Break v.

    (** After the loop: [if (iter == maxIter)] and
        [if (sumxx + sumyy == 0.0)]. *)
Definition after_loop (maxIter : Z) (v : Locals) : Locals :=
      let v := if (iter v =? maxIter)%Z
               then raise_flag MAXITER (raise_flag UNWEIGHTED v) else v in
      if sumxx (sums v) + sumyy (sums v) =? of_int 0
      then raise_flag UNWEIGHTED v else v.

    (** Problems; try calculating the un-weighted moments. *)
Definition unweighted_moments (v : Locals) : pass :=
      if Result.flags (shape v) UNWEIGHTED then
        let z := of_int 0 in
        match calcmom mimage xcen ycen (bbox v) bkgd (interpflag v) z z z negative with
        | Throw e =>
            Raise e {| iter := iter v; I0 := I0 v; sums := sums v; sigmaW := sigmaW v;
                       w := (z, z, z); olds := olds v; interpflag := interpflag v;
                       bbox := bbox v; shape := shape v |}
        | Diverge => Hang
        | Ret r =>
            let m := psums r in
            let m' := {| sum := sum m; sumx := sumx m; sumy := sumy m;
                         sumxx := sumxx m; sumxy := sumxy m; sumyy := sumyy m;
                         sums4 := sums4 (sums v) |} in
            let v1 := {| iter := iter v; I0 := pI0 r; sums := m'; sigmaW := sigmaW v;
                         w := (z, z, z); olds := olds v; interpflag := interpflag v;
                         bbox := bbox v; shape := shape v |} in
            if (status r <? 0)%Z || (negb negative && (sum m <=? of_int 0))
               || (negative && (sum m >=? of_int 0)) then
              let s := Result.set_flag UNWEIGHTED_BAD true
                         (Result.set_flag UNWEIGHTED false (shape v)) in
              let s := if sum m >? of_int 0 then
                         Result.set Result.yy (lit 1 12)
                           (Result.set Result.xy (of_int 0)
                              (Result.set Result.xx (lit 1 12) s))
                       else s in
              Return false (with_shape s v1)
            else
              Next {| iter := iter v; I0 := pI0 r; sums := m';
                      sigmaW := (sumxx m / sum m, sumxy m / sum m, sumyy m / sum m);
                      w := (z, z, z); olds := olds v; interpflag := interpflag v;
                      bbox := bbox v; shape := shape v |}
        end
      else Next v.

    (** The error analysis: the inverse of the Fisher matrix, stored in
        the result. *)
Definition store_errors (s : Result.t F) (bkgd_var : F) : outcome (Result.t F) :=
      fisher <- calc_fisher s bkgd_var ;;
      let cov := inverse fisher in
      Ret (Result.set Result.yy_xy_Cov (to_float (cov 2 3)%nat)
          (Result.set Result.xx_xy_Cov (to_float (cov 1 3)%nat)
          (Result.set Result.xx_yy_Cov (to_float (cov 1 2)%nat)
          (Result.set Result.instFlux_xy_Cov (to_float (cov 0 3)%nat)
          (Result.set Result.instFlux_yy_Cov (to_float (cov 0 2)%nat)
          (Result.set Result.instFlux_xx_Cov (to_float (cov 0 1)%nat)
          (Result.set Result.xyErr (to_float (fsqrt (cov 3 3)%nat))
          (Result.set Result.yyErr (to_float (fsqrt (cov 2 2)%nat))
          (Result.set Result.xxErr (to_float (fsqrt (cov 1 1)%nat))
          (Result.set Result.instFluxErr (fsqrt (cov 0 0)%nat) s)))))))))).

    (** The end of [getAdaptiveMoments]: the amplitude and the moments go
    to the result, and the errors when the variance at the centre is
    positive and the moments are the weighted ones.  An exception of
    [calc_fisher] leaves the function with the result as written so far. *)
Definition finish (v : Locals) : outcome bool * Result.t F :=
  let '(sigma11W, sigma12W, sigma22W) := sigmaW v in
  let s := Result.set Result.yy sigma22W
             (Result.set Result.xy sigma12W
                (Result.set Result.xx sigma11W
                   (Result.set Result.instFlux (I0 v) (shape v)))) in
  if negb (s.[Result.xx] + s.[Result.yy] =? of_int 0) then
    let ix := positionToIndex xcen in
    let iy := positionToIndex ycen in
    if (ix >=? 0)%Z && (ix <? getWidth mimage)%Z
       && (iy >=? 0)%Z && (iy <? getHeight mimage)%Z then
      let bkgd_var := to_float (getVariance mimage ix iy) in
      if bkgd_var >? of_int 0 then
        if negb (Result.flags s UNWEIGHTED) then
          match store_errors s bkgd_var with
          | Ret s' => (Ret true, s')
          | Throw e => (Throw e, s)
          | Diverge => (Diverge, s)
          end
        else (Ret true, s)
      else (Ret true, s)
    else (Ret true, s)
  else (Ret true, s).
End Loop.
End Engine.

(** ** Following the flags *)

Section Following.
Context {F : Type} `{Arith F} `{Libm F} `{Extern F}.

(** The locals a pass leaves behind, when it ends. *)
Definition locals_of (p : @pass F) : option (@Locals F) :=
  match p with
  | Next v | Break v | Return _ v | Raise _ v => Some v
  | Hang => None
  end.

(** The passes of the loop still to come, counting the one that is run
    again when interpolation is turned on. *)
Definition passes_left (maxIter : Z) (v : @Locals F) : nat :=
  (Z.to_nat (maxIter - iter v) + (if interpflag v then 0 else 1))%nat.

(** Flag [k], if set in the result [a], is still set in [b]. *)
Definition kept (k : Flag) (a b : Result.t F) : Prop :=
  Result.flags a k = true -> Result.flags b k = true.

(** A pass that started from the locals [v] has not cleared flag [k]. *)
Definition pass_keeps (k : Flag) (v : @Locals F) (p : @pass F) : Prop :=
  match locals_of p with
  | Some v' => kept k (shape v) (shape v')
  | None => True
  end.
End Following.

(** ** The algorithm *)

(** [afw::geom::ellipses::Quadrupole]: the three moments as given (its
    constructor does not normalize unless asked to). *)
Record Quadrupole (F : Type) : Type := {
  getIxx : F;
  getIyy : F;
  getIxy : F
}.

Section Algorithm.
Context {F : Type} `{Arith F} `{Libm F} `{Extern F}.
Local Open Scope fl_scope.

(** The locals of [getAdaptiveMoments] at the loop's entry.  The sums are
    declared without a value: [indeterminate] stands for what they hold
    until [calcmom] first writes them. *)
Definition entry (shape0 : Result.t F) (indeterminate : Moments F) : Locals :=
  {| iter := 0; I0 := of_int 0; sums := indeterminate;
     sigmaW := (lit 3 2, of_int 0, lit 3 2);
     w := (of_int (-1), of_int (-1), of_int (-1));
     olds := (to_float (lit 1000000 1), to_float (lit 1000000 1),
              to_float (lit 1000000 1));
     interpflag := false; bbox := geom.empty; shape := shape0 |}.

(** How the [for] loop of [getAdaptiveMoments] is left, with the locals
    at that point (before [if (iter == maxIter)]). *)
Definition loop_exit (mimage : Image F) (bkgd xcen ycen shiftmax : F)
    (shape0 : Result.t F) (maxIter : Z) (tol1 tol2 : F) (negative : bool)
    (indeterminate : Moments F) : pass :=
  loop mimage bkgd xcen ycen shiftmax (to_float tol1) (to_float tol2) negative
       (S (Z.to_nat maxIter)) maxIter (entry shape0 indeterminate).

(** Workhorse for adaptive moments: what it returns or throws, and the
    result as it has left it. *)
Definition getAdaptiveMoments (mimage : Image F) (bkgd xcen ycen shiftmax : F)
    (shape0 : Result.t F) (maxIter : Z) (tol1 tol2 : F) (negative : bool)
    (indeterminate : Moments F) : outcome bool * Result.t F :=
  if isnan xcen || isnan ycen then
    (Ret false, Result.set_flag UNWEIGHTED_BAD true shape0)
  else
    match loop_exit mimage bkgd xcen ycen shiftmax shape0 maxIter tol1 tol2 negative
            indeterminate with
    | Hang => (Diverge, shape0)
    | Raise e v => (Throw e, shape v)
    | Return b v => (Ret b, shape v)
    | Next v | Break v =>
        match unweighted_moments mimage bkgd xcen ycen negative (after_loop maxIter v) with
        | Hang => (Diverge, shape0)
        | Raise e v => (Throw e, shape v)
        | Return b v => (Ret b, shape v)
        | Next v | Break v => finish mimage xcen ycen v
        end
    end.

(** [SdssShapeAlgorithm::computeAdaptiveMoments]. *)
Definition computeAdaptiveMoments (image : Image F) (center_x center_y : F)
    (negative : bool) (control : Control F) (indeterminate : Moments F)
    : outcome (Result.t F) :=
  let xcen := center_x - of_int (getX0 image) in
  let ycen := center_y - of_int (getY0 image) in
  let shiftmax := to_float (maxShift control) in
  let shiftmax :=
    if shiftmax <? of_int 2 then of_int 2
    else if shiftmax >? of_int 10 then of_int 10 else shiftmax in
  let result := new_SdssShapeResult in
  let '(o, result) :=
    getAdaptiveMoments image (background control) xcen ycen shiftmax result
      (maxIter control) (tol1 control) (tol2 control) negative indeterminate in
  match o with
  | Diverge => Diverge
  | _ =>
    let result :=
      match o with
      | Ret b => Result.set_flag FAILURE (negb b) result
      | _ => Result.set_flag FAILURE true result
      end in
    let result :=
      if Result.flags result UNWEIGHTED || Result.flags result SHIFT
      then Result.set_flag FAILURE true result else result in
    let IxxIyy := result.[Result.xx] * result.[Result.yy] in
    let Ixy_sq := result.[Result.xy] in
    let Ixy_sq := Ixy_sq * Ixy_sq in
    let epsilon := lit 1 1000000 in
    if (IxxIyy <? (of_int 1 + epsilon) * Ixy_sq) && negb (Result.flags result FAILURE)
    then Throw LogicError
    else
      let instFluxScale := geom_TWOPI * fsqrt (IxxIyy - Ixy_sq) in
      let result := Result.set Result.instFlux
                      (result.[Result.instFlux] * instFluxScale) result in
      let result := Result.set Result.instFluxErr
                      (result.[Result.instFluxErr] * instFluxScale) result in
      let result := Result.set Result.x
                      (result.[Result.x] + of_int (getX0 image)) result in
      let result := Result.set Result.y
                      (result.[Result.y] + of_int (getY0 image)) result in
      if hasVariance image then
        let result := Result.set Result.instFlux_xx_Cov
                        (to_float (result.[Result.instFlux_xx_Cov] * instFluxScale)) result in
        let result := Result.set Result.instFlux_yy_Cov
                        (to_float (result.[Result.instFlux_yy_Cov] * instFluxScale)) result in
        let result := Result.set Result.instFlux_xy_Cov
                        (to_float (result.[Result.instFlux_xy_Cov] * instFluxScale)) result in
        Ret result
      else Ret result
  end.

(** [SdssShapeAlgorithm::computeFixedMomentsFlux]. *)
Definition computeFixedMomentsFlux (image : Image F) (shape : Quadrupole F)
    (center_x center_y : F) : outcome (FluxResult F) :=
  let localCenter_x := center_x - of_int (getX0 image) in
  let localCenter_y := center_y - of_int (getY0 image) in
  bbox <- computeAdaptiveMomentsBBox (getBBox_LOCAL image) localCenter_x localCenter_y
            (getIxx shape) (getIxy shape) (getIyy shape) (of_int 1000) ;;
  let weights := getWeights (getIxx shape) (getIxy shape) (getIyy shape) in
  if negb (fst (get0 weights)) then Throw InvalidParameterError
  else
    let w11 := get1 weights in
    let w12 := get2 weights in
    let w22 := get3 weights in
    let interp := shouldInterp (getIxx shape) (getIyy shape) (snd (get0 weights)) in
    sum0 <- calcmom_flux image localCenter_x localCenter_y bbox (of_int 0) interp
              w11 w12 w22 ;;
    let instFlux := sum0 * of_int 2 in
    if hasVariance image then
      let ix := to_int (center_x - of_int (getX0 image)) in
      let iy := to_int (center_y - of_int (getY0 image)) in
      if negb (geom.contains (getBBox_LOCAL image) ix iy) then Throw RuntimeError
      else
        let var := getVariance image ix iy in
        let wArea := geom_PI * fsqrt (getIxx shape * getIyy shape
                                      - getIxy shape * getIxy shape) in
        Ret {| flux_instFlux := instFlux;
               flux_instFluxErr := of_int 2 * fsqrt (var * wArea) |}
    else Ret {| flux_instFlux := instFlux; flux_instFluxErr := NaN |}.

(** [SdssShapeAlgorithm::measure], as far as the result goes: the centre
    comes from the centroid extractor, [negative] from the record, and
    [psf] is the exposure's PSF, if any, with what its [computeShape]
    does at a point. *)
Definition measure (image : Image F) (center_x center_y : F) (negative : bool)
    (control : Control F) (psf : option (F -> F -> outcome (Quadrupole F)))
    (indeterminate : Moments F) : outcome (Result.t F) :=
  result <- computeAdaptiveMoments image center_x center_y negative control
              indeterminate ;;
  if doMeasurePsf control then
    match psf with
    | None => Ret (Result.set_flag PSF_SHAPE_BAD true result)
    | Some computeShape =>
        match computeShape result.[Result.x] result.[Result.y] with
        | Ret _ => Ret result
        | Throw _ => Ret (Result.set_flag PSF_SHAPE_BAD true result)
        | Diverge => Diverge
        end
    end
  else Ret result.
End Algorithm.

(** ** Exact images and the sums in closed form *)

(** An image of real pixels, with a real variance plane or none. *)
Definition real_image (width height x0 y0 : Z) (p : Z -> Z -> R)
    (var : option (Z -> Z -> R)) : Image xreal :=
  {| getWidth := width; getHeight := height; getX0 := x0; getY0 := y0;
     pixel := fun j i => XR (p j i);
     variance := match var with
                 | Some v => Some (fun j i => XR (v j i))
                 | None => None
                 end |}.

Definition lift_moments (m : Moments R) : Moments xreal :=
  {| sum := XR (sum m); sumx := XR (sumx m); sumy := XR (sumy m);
     sumxx := XR (sumxx m); sumxy := XR (sumxy m); sumyy := XR (sumyy m);
     sums4 := XR (sums4 m) |}.

Definition mzero : Moments R :=
  {| sum := 0; sumx := 0; sumy := 0; sumxx := 0; sumxy := 0; sumyy := 0;
     sums4 := 0 |}%R.

Definition madd (a b : Moments R) : Moments R :=
  {| sum := sum a + sum b; sumx := sumx a + sumx b; sumy := sumy a + sumy b;
     sumxx := sumxx a + sumxx b; sumxy := sumxy a + sumxy b;
     sumyy := sumyy a + sumyy b; sums4 := sums4 a + sums4 b |}%R.

(** The sum of [f k] over the [k] of a list. *)
Definition msum (A : Type) (f : A -> Moments R) (ks : list A) : Moments R :=
  fold_right (fun k acc => madd (f k) acc) mzero ks.

(** The exponent [Q] of the Gaussian weight at the offset [(x, y)] from
    the centre. *)
Definition gaussian_exponent (w11 w12 w22 x y : R) : R :=
  (x * x * w11 + 2 * (x * y) * w12 + y * y * w22)%R.

(** What the pixel in column [j] and row [i] adds to the seven sums in
    the branch of [calcmom] without interpolation, written over the
    reals: nothing unless [Q <= 14], else its
    weighted value [(pixel - background) exp(-Q/2)], that value times the
    column and the row index, times the squares and the product of the
    offsets from the centre, and times [Q^2]. *)
Definition pixel_moments (p : Z -> Z -> R) (xcen ycen bkgd w11 w12 w22 : R)
    (i j : Z) : Moments R :=
  let x := (IZR j - xcen)%R in
  let y := (IZR i - ycen)%R in
  let Q := gaussian_exponent w11 w12 w22 x y in
  if Rleb Q 14 then
    let value := ((p j i - bkgd) * exp (- (1 / 2) * Q))%R in
    {| sum := value; sumx := value * IZR j; sumy := value * IZR i;
       sumxx := x * x * value; sumxy := x * y * value; sumyy := y * y * value;
       sums4 := Q * Q * value |}%R
  else mzero.

(** The seven sums over the pixels of a box. *)
Definition box_moments (p : Z -> Z -> R) (xcen ycen bkgd w11 w12 w22 : R)
    (bbox : geom.Box2I) : Moments R :=
  msum (fun i =>
          msum (pixel_moments p xcen ycen bkgd w11 w12 w22 i)
               (Zrange (geom.getMinX bbox) (geom.getMaxX bbox)))
       (Zrange (geom.getMinY bbox) (geom.getMaxY bbox)).

(** The entries of the Fisher matrix as real formulas: [F], the
    amplitude terms and the moment terms of [calc_fisher]. *)
Definition fisher_formula (A sigma11W sigma12W sigma22W bkgd_var : R) (i j : nat) : R :=
  let D := (sigma11W * sigma22W - sigma12W * sigma12W)%R in
  let F_ := (PI * sqrt D / bkgd_var)%R in
  let fac1 := (F_ * A / (4 * D))%R in
  let fac2 := (3 * F_ * A * A / (16 * D * D))%R in
  match i, j with
  | 0, 0 => F_
  | 0, 1 | 1, 0 => fac1 * sigma22W
  | 0, 2 | 2, 0 => fac1 * sigma11W
  | 0, 3 | 3, 0 => - fac1 * 2 * sigma12W
  | 1, 1 => fac2 * sigma22W * sigma22W
  | 2, 2 => fac2 * sigma11W * sigma11W
  | 3, 3 => fac2 * 4 * (sigma12W * sigma12W + D / 3)
  | 1, 2 | 2, 1 => fac2 * 4 * (sigma12W * sigma12W + D / 3) / 4
  | 1, 3 | 3, 1 => fac2 * (-2 * sigma22W * sigma12W)
  | 2, 3 | 3, 2 => fac2 * (-2 * sigma11W * sigma12W)
  | _, _ => 0
  end%R%nat.

(** ** Inputs of the examples *)

(** A 3 by 3 image of ones, without variance. *)
Definition ones_3x3 : Image xreal := real_image 3 3 0 0 (fun _ _ => 1%R) None.

(** The box of the single pixel in column 2, row 2. *)
Definition pixel_2_2 : geom.Box2I := geom.fromCorners 2 2 2 2.

(** A result with amplitude 0 and the moments of the unit circle. *)
Definition flat_shape : Result.t xreal :=
  Result.set Result.xy (XR 0)
    (Result.set Result.yy (XR 1)
       (Result.set Result.xx (XR 1)
          (Result.set Result.instFlux (XR 0) new_SdssShapeResult))).

(** The moments of the unit circle. *)
Definition unit_circle : Quadrupole xreal :=
  {| getIxx := XR 1; getIyy := XR 1; getIxy := XR 0 |}.

(** A single dark pixel, without variance. *)
Definition dark_pixel : Image xreal := real_image 1 1 0 0 (fun _ _ => 0%R) None.

(** The control of the algorithm with its default numbers. *)
Definition default_control : Control xreal :=
  {| background := XR 0; maxIter := 100; maxShift := XR 0;
     tol1 := XR (1 / 100000); tol2 := XR (1 / 10000); doMeasurePsf := false |}.

(** The sums before [calcmom] has written them, taken to be zero. *)
Definition unwritten : Moments xreal := lift_moments mzero.

(** Two bright pixels on the diagonal of a 2 by 2 image, without
    variance. *)
Definition diagonal_pair : Image xreal :=
  real_image 2 2 0 0 (fun j i => if (j =? i)%Z then 1%R else 0%R) None.

(** A dark centre, four bright neighbours and four negative corners on
    a 3 by 3 image, without variance. *)
Definition ringed_value (j i : Z) : R :=
  if (j =? 1)%Z && (i =? 1)%Z then 0%R
  else if (j =? 1)%Z || (i =? 1)%Z then 2%R else (- (1))%R.

Definition ringed_3x3 : Image xreal := real_image 3 3 0 0 ringed_value None.

(** The default control, with one pass through the loop only. *)
Definition one_pass_control : Control xreal :=
  {| background := XR 0; maxIter := 1; maxShift := XR 0;
     tol1 := XR (1 / 100000); tol2 := XR (1 / 10000); doMeasurePsf := false |}.

(** ** Boxes as the engine makes them *)

(** A box as [Box2I] keeps it: the default empty box, or one with
    positive sides. *)
Definition proper_box (b : geom.Box2I) : Prop :=
  b = geom.empty \/ (0 < geom.dimensions_x b /\ 0 < geom.dimensions_y b)%Z.

(** A proper box clipped to the box of the image. *)
Definition clipped_to {F : Type} (image : Image F) (b : geom.Box2I) : Prop :=
  exists b0, proper_box b0 /\ b = geom.clip b0 (getBBox_LOCAL image).

(** A result with amplitude 2 and the moments of the unit circle. *)
Definition round_shape : Result.t xreal :=
  Result.set Result.xy (XR 0)
    (Result.set Result.yy (XR 1)
       (Result.set Result.xx (XR 1)
          (Result.set Result.instFlux (XR 2) new_SdssShapeResult))).

(** ** The two accumulators side by side *)

(** The outcome of a loop of the full [calcmom] and that of the
    flux-only one agree: the same exception, or sums with the same
    [sum]. *)
Definition sum_agrees {F : Type} (full : outcome (Moments F)) (flux : outcome F) : Prop :=
  match full, flux with
  | Ret m, Ret s => sum m = s
  | Throw e, Throw e' => e = e'
  | Diverge, Diverge => True
  | _, _ => False
  end.

(** ** The slot extractors *)

(** [SafeCentroidExtractor] and [SafeShapeExtractor]: how an algorithm
    gets its centre and its shape from the slots of a source record. *)
Module InputUtilities.

(** The exceptions of the extractors; [MeasurementError] is thrown with
    the flag [FlagHandler::FAILURE]. *)
Inductive error : Type :=
| FatalAlgorithmError
| RuntimeError
| MeasurementError.

(** What the extractors look at in a [SourceRecord] and its table: the
    keys of the two slots and of their flags, the values under them, and
    the peaks [(getFx, getFy)] of the footprint, when one is attached. *)
Record SourceRecord (F : Type) : Type := {
  getCentroidKey_isValid : bool;
  getCentroid : F * F;
  getCentroidFlagKey_isValid : bool;
  getCentroidFlag : bool;
  getFootprint : option (list (F * F));
  getShapeKey_isValid : bool;
  getShape : Quadrupole F;
  getShapeFlagKey_isValid : bool;
  getShapeFlag : bool
}.

(** How a call ends: with the value returned, and whether
    [flags.setValue(record, FlagHandler::FAILURE, true)] has been called;
    or with an exception. *)
Inductive extracted (A : Type) : Type :=
| Returned (a : A) (failure : bool)
| Thrown (e : error).

Section Extractors.
Context {F : Type} `{Arith F}.

(** [SafeCentroidExtractor::operator()]. *)
Definition SafeCentroidExtractor (record : SourceRecord F) : extracted (F * F) :=
  if negb (getCentroidKey_isValid record) then Thrown _ FatalAlgorithmError
  else
    let result := getCentroid record in
    if isnan (fst result) || isnan (snd result) then
      if negb (getCentroidFlagKey_isValid record) then Thrown _ RuntimeError
      else if negb (getCentroidFlag record) then Thrown _ RuntimeError
      else
        match getFootprint record with
        | None => Thrown _ RuntimeError
        | Some peaks =>
            match peaks with
            | [] => Thrown _ RuntimeError
            | front :: _ => Returned front true
            end
        end
    else if getCentroidFlagKey_isValid record && getCentroidFlag record then
      Returned result true
    else Returned result false.

(** [SafeShapeExtractor::operator()]. *)
Definition SafeShapeExtractor (record : SourceRecord F) : extracted (Quadrupole F) :=
  if negb (getShapeKey_isValid record) then Thrown _ FatalAlgorithmError
  else
    let result := getShape record in
    if isnan (getIxx result) || isnan (getIyy result) || isnan (getIxy result) then
      if negb (getShapeFlagKey_isValid record) then Thrown _ RuntimeError
      else if negb (getShapeFlag record) then Thrown _ RuntimeError
      else Thrown _ MeasurementError
    else if getShapeFlagKey_isValid record && getShapeFlag record then
      Returned result true
    else Returned result false.
End Extractors.
End InputUtilities.

(** A record whose centroid slot is NaN and flagged, with a footprint of
    one peak at (3, 4), and whose shape slot is the unit circle. *)
Definition flagged_record : InputUtilities.SourceRecord xreal :=
  {| InputUtilities.getCentroidKey_isValid := true;
     InputUtilities.getCentroid := (XNaN, XR 0);
     InputUtilities.getCentroidFlagKey_isValid := true;
     InputUtilities.getCentroidFlag := true;
     InputUtilities.getFootprint := Some [(XR 3, XR 4)];
     InputUtilities.getShapeKey_isValid := true;
     InputUtilities.getShape := unit_circle;
     InputUtilities.getShapeFlagKey_isValid := true;
     InputUtilities.getShapeFlag := true |}.

(** ** The accumulator with interpolation, in closed form *)

(** The largest of the exponents at the four corners of a pixel, as
    [calcmom] compares them. *)
Definition corner_exponent (xl xh yl yh w11 w12 w22 : R) : R :=
  let expon := (xl * xl * w11 + yl * yl * w22 + 2 * xl * yl * w12)%R in
  let tmp := (xh * xh * w11 + yh * yh * w22 + 2 * xh * yh * w12)%R in
  let expon := if Rltb tmp expon then expon else tmp in
  let tmp := (xl * xl * w11 + yh * yh * w22 + 2 * xl * yh * w12)%R in
  let expon := if Rltb tmp expon then expon else tmp in
  let tmp := (xh * xh * w11 + yl * yl * w22 + 2 * xh * yl * w12)%R in
  if Rltb tmp expon then expon else tmp.

(** What the point at the offsets [(X, Y)] from the centre adds to the
    seven sums, for a pixel of value [t] above the background: its
    weighted value [t exp(-Q/2)], that value times the coordinates
    [X + xcen] and [Y + ycen], times the squares and the product of the
    offsets, and times [Q^2]. *)
Definition subpixel_moments (t xcen ycen w11 w12 w22 Y X : R) : Moments R :=
  let Q := gaussian_exponent w11 w12 w22 X Y in
  let value := (t * exp (- (1 / 2) * Q))%R in
  {| sum := value; sumx := value * (X + xcen); sumy := value * (Y + ycen);
     sumxx := X * X * value; sumxy := X * Y * value; sumyy := Y * Y * value;
     sums4 := Q * Q * value |}%R.

(** The four values of [for (X = lo; X <= lo + 0.75; X += 0.25)]. *)
Definition quarter_steps (lo : R) : list R :=
  [lo; lo + 1 / 4; lo + 1 / 4 + 1 / 4; lo + 1 / 4 + 1 / 4 + 1 / 4]%R.

(** What the pixel in column [j] and row [i] adds with interpolation in
    exact arithmetic, where each loop over the grid makes four passes:
    nothing unless the exponent at its corners is at most 9, else the
    sixteen points of its grid, from 3/8 below its centre in steps of
    1/4. *)
Definition interp_pixel_moments (p : Z -> Z -> R) (xcen ycen bkgd w11 w12 w22 : R)
    (i j : Z) : Moments R :=
  let x := (IZR j - xcen)%R in
  let y := (IZR i - ycen)%R in
  let xl := (x - 3 / 8)%R in
  let xh := (x + 3 / 8)%R in
  let yl := (y - 3 / 8)%R in
  let yh := (y + 3 / 8)%R in
  if Rleb (corner_exponent xl xh yl yh w11 w12 w22) 9 then
    msum (fun Y => msum (subpixel_moments (p j i - bkgd) xcen ycen w11 w12 w22 Y)
                        (quarter_steps xl))
         (quarter_steps yl)
  else mzero.

(** The seven sums over the pixels of a box, with interpolation. *)
Definition interp_box_moments (p : Z -> Z -> R) (xcen ycen bkgd w11 w12 w22 : R)
    (bbox : geom.Box2I) : Moments R :=
  msum (fun i =>
          msum (interp_pixel_moments p xcen ycen bkgd w11 w12 w22 i)
               (Zrange (geom.getMinX bbox) (geom.getMaxX bbox)))
       (Zrange (geom.getMinY bbox) (geom.getMaxY bbox)).

(** ** Combinations of images *)

(** The pixels of [a] times one image plus [b] times another. *)
Definition blend (a b : R) (p q : Z -> Z -> R) : Z -> Z -> R :=
  fun j i => (a * p j i + b * q j i)%R.

(** The weighted sum of [calcmom] in closed form, with or without
    interpolation. *)
Definition weighted_sum (p : Z -> Z -> R) (xcen ycen bkgd w11 w12 w22 : R)
    (bbox : geom.Box2I) (interpflag : bool) : R :=
  if interpflag then sum (interp_box_moments p xcen ycen bkgd w11 w12 w22 bbox)
  else sum (box_moments p xcen ycen bkgd w11 w12 w22 bbox).

(** ** Brighter images *)

(** The image with every pixel multiplied by [c]; the variance plane is
    left as it is. *)
Definition brighten (c : R) (image : Image xreal) : Image xreal :=
  {| getWidth := getWidth image; getHeight := getHeight image;
     getX0 := getX0 image; getY0 := getY0 image;
     pixel := fun j i => fmul (XR c) (pixel image j i);
     variance := variance image |}.

(** The control with the background multiplied by [c]. *)
Definition brighten_control (c : R) (control : Control xreal) : Control xreal :=
  {| background := fmul (XR c) (background control);
     maxIter := maxIter control; maxShift := maxShift control;
     tol1 := tol1 control; tol2 := tol2 control;
     doMeasurePsf := doMeasurePsf control |}.

(** The seven sums, each multiplied by [c], and what [calcmom] hands
    back with its sums and its amplitude multiplied by [c]. *)
Definition mscale (c : R) (m : Moments xreal) : Moments xreal :=
  {| sum := fmul (XR c) (sum m); sumx := fmul (XR c) (sumx m);
     sumy := fmul (XR c) (sumy m); sumxx := fmul (XR c) (sumxx m);
     sumxy := fmul (XR c) (sumxy m); sumyy := fmul (XR c) (sumyy m);
     sums4 := fmul (XR c) (sums4 m) |}.

Definition rscale (c : R) (r : @calcmom_result xreal) : @calcmom_result xreal :=
  {| status := status r; pI0 := fmul (XR c) (pI0 r); psums := mscale c (psums r) |}.

Definition omap (A B : Type) (f : A -> B) (o : outcome A) : outcome B :=
  match o with
  | Ret a => Ret (f a)
  | Throw e => Throw e
  | Diverge => Diverge
  end.

(** Two sets of sums that differ by a positive factor, in all but
    [sums4], which the engine never reads. *)
Definition sums_alike (m m' : Moments xreal) : Prop :=
  exists k : R,
    (0 < k)%R /\
    sum m' = fmul (XR k) (sum m) /\ sumx m' = fmul (XR k) (sumx m) /\
    sumy m' = fmul (XR k) (sumy m) /\ sumxx m' = fmul (XR k) (sumxx m) /\
    sumxy m' = fmul (XR k) (sumxy m) /\ sumyy m' = fmul (XR k) (sumyy m).

(** The locals of [getAdaptiveMoments] on an image and on the image [c]
    times brighter: the amplitude is [c] times larger, the sums differ
    by a factor, all else is the same; and the flux of the result has
    not been written. *)
Definition locals_alike (c : R) (v v' : @Locals xreal) : Prop :=
  iter v' = iter v /\ I0 v' = fmul (XR c) (I0 v) /\
  sums_alike (sums v) (sums v') /\
  sigmaW v' = sigmaW v /\ w v' = w v /\ olds v' = olds v /\
  interpflag v' = interpflag v /\ bbox v' = bbox v /\ shape v' = shape v /\
  Result.get (shape v) Result.instFlux = XNaN.

Definition pass_alike (c : R) (p p' : @pass xreal) : Prop :=
  match p, p' with
  | Next v, Next v' | Break v, Break v' => locals_alike c v v'
  | Return b v, Return b' v' => b = b' /\ locals_alike c v v'
  | Raise e v, Raise e' v' => e = e' /\ locals_alike c v v'
  | Hang, Hang => True
  | _, _ => False
  end.

(** Two results that agree on the flags, the centroid and the moments,
    with the flux of the second [c] times the flux of the first. *)
Definition brighter_result (c : R) (r r' : Result.t xreal) : Prop :=
  (forall k, Result.flags r' k = Result.flags r k) /\
  Result.get r' Result.x = Result.get r Result.x /\
  Result.get r' Result.y = Result.get r Result.y /\
  Result.get r' Result.xx = Result.get r Result.xx /\
  Result.get r' Result.yy = Result.get r Result.yy /\
  Result.get r' Result.xy = Result.get r Result.xy /\
  Result.get r' Result.instFlux = fmul (XR c) (Result.get r Result.instFlux).

(** ** The conversions to [float] made explicit *)

(** Exact arithmetic in which a conversion to [float] rounds by [rnd];
    the arithmetic of [double] stays exact. *)
Definition rounded_libm (rnd : R -> R) : Libm xreal :=
  {| fexp := xmap exp; to_float := xmap rnd; to_int := @to_int xreal exact_libm |}.

(** The multiple [k / 8] of an eighth. *)
Definition eighth (k : Z) : R := (IZR k / 8)%R.

Section RoundedSums.
Variable rnd : R -> R.

(** The largest of the exponents at the four corners of a pixel, with
    the roundings of [calcmom]. *)
Definition rounded_corner_exponent (xl xh yl yh w11 w12 w22 : R) : R :=
  let expon := rnd (rnd (xl * xl) * w11 + rnd (yl * yl) * w22 + 2 * xl * yl * w12)%R in
  let tmp := rnd (rnd (xh * xh) * w11 + rnd (yh * yh) * w22 + 2 * xh * yh * w12)%R in
  let expon := if Rltb tmp expon then expon else tmp in
  let tmp := rnd (rnd (xl * xl) * w11 + rnd (yh * yh) * w22 + 2 * xl * yh * w12)%R in
  let expon := if Rltb tmp expon then expon else tmp in
  let tmp := rnd (rnd (xh * xh) * w11 + rnd (yl * yl) * w22 + 2 * xh * yl * w12)%R in
  if Rltb tmp expon then expon else tmp.

(** What the point at the offsets [(X, Y)] from the centre adds to the
    seven sums, for a pixel whose value above the background is the
    [float] [t], with the roundings of [calcmom]. *)
Definition rounded_subpixel_moments (t xcen ycen w11 w12 w22 Y X : R) : Moments R :=
  let Y2 := rnd (Y * Y) in
  let X2 := rnd (X * X) in
  let XY := rnd (X * Y) in
  let Q := rnd (X2 * w11 + 2 * XY * w12 + Y2 * w22) in
  let weight := rnd (exp (- (1 / 2) * Q)) in
  let value := rnd (t * weight) in
  {| sum := value;
     sumx := rnd (value * rnd (X + xcen));
     sumy := rnd (value * rnd (Y + ycen));
     sumxx := X2 * value; sumxy := XY * value; sumyy := Y2 * value;
     sums4 := rnd (rnd (Q * Q) * value) |}%R.

(** What the pixel in column [j] and row [i] adds with interpolation,
    for a centre [(kx / 8, ky / 8)] and the [float] background [bkgd]:
    nothing unless the exponent at the corners is at most 9, else the
    sixteen points at 3/8 and 1/8 to either side of the pixel's
    centre. *)
Definition rounded_interp_pixel_moments (p : Z -> Z -> R) (kx ky : Z)
    (bkgd w11 w12 w22 : R) (i j : Z) : Moments R :=
  let ex := (8 * j - kx)%Z in
  let ey := (8 * i - ky)%Z in
  if Rleb (rounded_corner_exponent (eighth (ex - 3)) (eighth (ex + 3))
             (eighth (ey - 3)) (eighth (ey + 3)) w11 w12 w22) 9
  then
    msum (fun ny =>
            msum (fun nx =>
                    rounded_subpixel_moments (rnd (p j i - bkgd)) (eighth kx) (eighth ky)
                      w11 w12 w22 (eighth (ey - 3 + 2 * ny)) (eighth (ex - 3 + 2 * nx)))
                 [0; 1; 2; 3]%Z)
         [0; 1; 2; 3]%Z
  else mzero.

(** The seven sums over the pixels of a box, with interpolation. *)
Definition rounded_interp_box_moments (p : Z -> Z -> R) (kx ky : Z)
    (bkgd w11 w12 w22 : R) (bbox : geom.Box2I) : Moments R :=
  msum (fun i =>
          msum (rounded_interp_pixel_moments p kx ky bkgd w11 w12 w22 i)
               (Zrange (geom.getMinX bbox) (geom.getMaxX bbox)))
       (Zrange (geom.getMinY bbox) (geom.getMaxY bbox)).
End RoundedSums.

(** * Properties *)

Unset Implicit Arguments.

(** ** The weight solver *)

Section SolverFacts.
Context {F : Type} `{Arith F}.
Local Open Scope fl_scope.

Lemma getWeights_ok (sigma11 sigma12 sigma22 : F) :
  fst (get0 (getWeights sigma11 sigma12 sigma22)) = true ->
  getWeights sigma11 sigma12 sigma22 =
    ((true, sigma11 * sigma22 - sigma12 * sigma12),
     sigma22 / (sigma11 * sigma22 - sigma12 * sigma12),
     - sigma12 / (sigma11 * sigma22 - sigma12 * sigma12),
     sigma11 / (sigma11 * sigma22 - sigma12 * sigma12)).
Proof.
  unfold getWeights.
  destruct (isnan sigma11 || isnan sigma12 || isnan sigma22); [discriminate |].
  destruct (isnan _ || (_ <? float_epsilon)); [discriminate | reflexivity].
Qed.

Lemma getWeights_failed (sigma11 sigma12 sigma22 : F) :
  fst (get0 (getWeights sigma11 sigma12 sigma22)) = false ->
  get1 (getWeights sigma11 sigma12 sigma22) = NaN /\
  get2 (getWeights sigma11 sigma12 sigma22) = NaN /\
  get3 (getWeights sigma11 sigma12 sigma22) = NaN.
Proof.
  unfold getWeights.
  destruct (isnan sigma11 || isnan sigma12 || isnan sigma22); [now repeat split |].
  destruct (isnan _ || (_ <? float_epsilon)); [now repeat split | discriminate].
Qed.

(** C1, as amended.  [getWeights] signals failure exactly when an input
    is NaN, or the determinant it computes is NaN, or that determinant is
    below the single-precision epsilon 2^-23; when it succeeds it returns
    the determinant with [sigma22/det], [-sigma12/det], [sigma11/det]. *)
Theorem getWeights_fails_iff (sigma11 sigma12 sigma22 : F) :
  let det := sigma11 * sigma22 - sigma12 * sigma12 in
  (fst (get0 (getWeights sigma11 sigma12 sigma22)) = false <->
   isnan sigma11 = true \/ isnan sigma12 = true \/ isnan sigma22 = true \/
   isnan det = true \/ (det <? float_epsilon) = true) /\
  (fst (get0 (getWeights sigma11 sigma12 sigma22)) = true ->
   getWeights sigma11 sigma12 sigma22 =
     ((true, det), sigma22 / det, - sigma12 / det, sigma11 / det)).
Proof.
  intros det; split; [| apply getWeights_ok].
  unfold getWeights; fold det.
  destruct (isnan sigma11) eqn:E1; cbn; [intuition auto |].
  destruct (isnan sigma12) eqn:E2; cbn; [intuition auto |].
  destruct (isnan sigma22) eqn:E3; cbn; [intuition auto |].
  destruct (isnan det) eqn:E4; cbn; [intuition auto |].
  destruct (det <? float_epsilon) eqn:E5; cbn; [intuition auto |].
  split; [discriminate |].
  intros [H'|[H'|[H'|[H'|H']]]]; discriminate.
Qed.
End SolverFacts.

(** C1, the counter-example.  In binary64 both products of this finite
    covariance overflow, so the determinant is [inf - inf], a NaN:
    [getWeights] fails although no input is NaN and the determinant is
    not below epsilon (a NaN is below nothing). *)
Lemma getWeights_nan_determinant :
  let sigma11 := 0x1p+601%float in
  let sigma12 := 0x1p+600%float in
  let sigma22 := 0x1p+601%float in
  fst (get0 (getWeights sigma11 sigma12 sigma22)) = false /\
  isnan sigma11 = false /\ isnan sigma12 = false /\ isnan sigma22 = false /\
  flt (fsub (fmul sigma11 sigma22) (fmul sigma12 sigma12)) float_epsilon = false /\
  isnan (fsub (fmul sigma11 sigma22) (fmul sigma12 sigma12)) = true.
Proof. vm_compute. repeat split; reflexivity. Qed.

(** The same with an infinite entry: [inf * 0] is a NaN. *)
Lemma getWeights_nan_determinant_inf :
  fst (get0 (getWeights infinity 0%float 0%float)) = false /\
  isnan infinity = false /\ isnan 0%float = false /\
  flt (fsub (fmul infinity 0%float) (fmul 0%float 0%float)) float_epsilon = false.
Proof. vm_compute. repeat split; reflexivity. Qed.

(** ** Exact arithmetic *)

Lemma Rltb_true (a b : R) : (a < b)%R -> Rltb a b = true.
Proof. intros; unfold Rltb; destruct (Rlt_dec a b); [reflexivity | contradiction]. Qed.

Lemma Rltb_false (a b : R) : (b <= a)%R -> Rltb a b = false.
Proof. intros; unfold Rltb; destruct (Rlt_dec a b); [lra | reflexivity]. Qed.

Lemma Rleb_true (a b : R) : (a <= b)%R -> Rleb a b = true.
Proof. intros; unfold Rleb; destruct (Rle_dec a b); [reflexivity | contradiction]. Qed.

Lemma Rleb_false (a b : R) : (b < a)%R -> Rleb a b = false.
Proof. intros; unfold Rleb; destruct (Rle_dec a b); [lra | reflexivity]. Qed.

Lemma Reqb_true (a b : R) : a = b -> Reqb a b = true.
Proof. intros; unfold Reqb; destruct (Req_dec_T a b); [reflexivity | contradiction]. Qed.

Lemma Reqb_false (a b : R) : a <> b -> Reqb a b = false.
Proof. intros; unfold Reqb; destruct (Req_dec_T a b); [contradiction | reflexivity]. Qed.

Ltac rneq := first [ lra | apply Rgt_not_eq; lra | apply Rlt_not_eq; lra ].

(** Settles the comparisons of reals in the goal that linear arithmetic
    decides from the context. *)
Ltac rtest :=
  repeat match goal with
  | |- context [Rltb ?a ?b] =>
      first [ rewrite (Rltb_true a b) by lra | rewrite (Rltb_false a b) by lra ]
  | |- context [Rleb ?a ?b] =>
      first [ rewrite (Rleb_true a b) by lra | rewrite (Rleb_false a b) by lra ]
  | |- context [Reqb ?a ?b] =>
      first [ rewrite (Reqb_true a b) by lra | rewrite (Reqb_false a b) by rneq ]
  end.

Lemma xdiv_real (a b : R) : b <> 0%R -> xdiv (XR a) (XR b) = XR (a / b).
Proof. intros Hb; unfold xdiv. now rewrite Reqb_false. Qed.

Lemma xdiv_zero (a : R) : xdiv (XR a) (XR 0) = XNaN.
Proof. unfold xdiv. now rewrite Reqb_true. Qed.

Lemma xsqrt_real (a : R) : (0 <= a)%R -> xsqrt (XR a) = XR (sqrt a).
Proof. intros Ha; unfold xsqrt. now rewrite Rltb_false. Qed.

(** Evaluates the operations of the exact instance on real operands. *)
Ltac xsimpl :=
  repeat first
    [ progress cbn [xlift2 xmap xcmp fadd fsub fmul fdiv fneg fabs fsqrt flt fle feq
                    isnan of_int geom_PI exact fexp to_float exact_libm]
    | rewrite xdiv_real by rneq
    | rewrite xsqrt_real by lra
    | progress rtest ].

Lemma exact_float_epsilon : @float_epsilon xreal _ = XR (1 / 8388608).
Proof. unfold float_epsilon, lit; cbn. now rtest. Qed.

Lemma exact_double_epsilon : @double_epsilon xreal _ = XR (1 / 4503599627370496).
Proof. unfold double_epsilon, lit; cbn. now rtest. Qed.

Lemma exact_lit (p q : Z) : IZR q <> 0%R -> @lit xreal _ p q = XR (IZR p / IZR q).
Proof. intros Hq; unfold lit; cbn. now rewrite Reqb_false. Qed.

Lemma getWeights_exact_ok (a b c : R) :
  (1 / 8388608 <= a * c - b * b)%R ->
  getWeights (XR a) (XR b) (XR c) =
    ((true, XR (a * c - b * b)), XR (c / (a * c - b * b)),
     XR (- b / (a * c - b * b)), XR (a / (a * c - b * b))).
Proof.
  intros Hdet. unfold getWeights. rewrite exact_float_epsilon. cbn.
  now rtest.
Qed.

Lemma getWeights_exact_singular (a b c : R) :
  (a * c - b * b < 1 / 8388608)%R ->
  getWeights (XR a) (XR b) (XR c) = ((false, XR (a * c - b * b)), XNaN, XNaN, XNaN).
Proof.
  intros Hdet. unfold getWeights. rewrite exact_float_epsilon. cbn.
  now rtest.
Qed.

(** C9, as amended.  In exact arithmetic, solving twice returns the
    covariance whenever its determinant lies between the epsilon 2^-23
    and its reciprocal 2^23 (the second call sees the determinant
    [1/det]); and an input whose determinant is below epsilon, a singular
    one in particular, is reported as a failure with the three weights
    NaN. *)
Theorem getWeights_round_trip (a b c : R) :
  let det := (a * c - b * b)%R in
  ((1 / 8388608 <= det <= 8388608)%R ->
   let W := getWeights (XR a) (XR b) (XR c) in
   getWeights (get1 W) (get2 W) (get3 W) = ((true, XR (/ det)), XR a, XR b, XR c)) /\
  ((det < 1 / 8388608)%R ->
   getWeights (XR a) (XR b) (XR c) = ((false, XR det), XNaN, XNaN, XNaN)).
Proof.
  intros det; split; [| apply getWeights_exact_singular].
  intros [Hlo Hhi]. cbv zeta.
  rewrite (getWeights_exact_ok a b c) by exact Hlo.
  unfold get1, get2, get3; cbn [fst snd]. fold det.
  assert (Hpos : (0 < det)%R) by lra.
  assert (Hinv : (c / det * (a / det) - - b / det * (- b / det) = / det)%R).
  { unfold det. field. fold det. lra. }
  rewrite getWeights_exact_ok.
  - rewrite Hinv. unfold det in *. repeat f_equal; field; lra.
  - rewrite Hinv.
    assert ((/ 8388608 <= / det)%R) by (apply Rinv_le_contravar; lra).
    lra.
Qed.

(** C9, a use of the theorem: the covariance (2, 1, 2). *)
Lemma getWeights_round_trip_witness :
  getWeights (get1 (getWeights (XR 2) (XR 1) (XR 2)))
             (get2 (getWeights (XR 2) (XR 1) (XR 2)))
             (get3 (getWeights (XR 2) (XR 1) (XR 2)))
  = ((true, XR (/ (2 * 2 - 1 * 1))), XR 2, XR 1, XR 2).
Proof. apply (getWeights_round_trip 2 1 2); lra. Defined.

(** C9, the counter-example.  The covariance (3000, 0, 3000) is positive
    definite with determinant 9000000, above epsilon; its weights have
    determinant 1/9000000, below epsilon, so the second call fails. *)
Lemma getWeights_round_trip_fails :
  let W := getWeights (XR 3000) (XR 0) (XR 3000) in
  W = ((true, XR (3000 * 3000 - 0 * 0)), XR (3000 / (3000 * 3000 - 0 * 0)),
       XR (- 0 / (3000 * 3000 - 0 * 0)), XR (3000 / (3000 * 3000 - 0 * 0))) /\
  (0 < 3000)%R /\ (1 / 8388608 <= 3000 * 3000 - 0 * 0)%R /\
  fst (get0 (getWeights (get1 W) (get2 W) (get3 W))) = false.
Proof.
  cbv zeta.
  rewrite (getWeights_exact_ok 3000 0 3000) by lra.
  split; [reflexivity |]. split; [lra |]. split; [lra |].
  unfold get1, get2, get3; cbn [fst snd].
  rewrite getWeights_exact_singular; [reflexivity |]. lra.
Qed.

(** ** The accumulator: validation and amplitude *)

Section AccumulatorFacts.
Context {F : Type} `{Arith F} `{Libm F}.
Local Open Scope fl_scope.

Lemma invalid_weights_true (w11 w12 w22 : F) :
  (w11 <? of_int 0) = true \/ (w11 >? of_int 1000000) = true \/
  (fabs w12 >? of_int 1000000) = true \/
  (w22 <? of_int 0) = true \/ (w22 >? of_int 1000000) = true ->
  invalid_weights w11 w12 w22 = true.
Proof.
  unfold invalid_weights.
  intros [E|[E|[E|[E|E]]]]; rewrite E; repeat rewrite orb_true_r; reflexivity.
Qed.

Lemma outside_image_true (image : Image F) (bbox : geom.Box2I) :
  (geom.getMinX bbox < 0 \/ geom.getMaxX bbox >= getWidth image \/
   geom.getMinY bbox < 0 \/ geom.getMaxY bbox >= getHeight image)%Z ->
  outside_image image bbox = true.
Proof.
  unfold outside_image. intros Hout.
  repeat rewrite orb_true_iff.
  rewrite !Z.ltb_lt, !Z.geb_le. lia.
Qed.

Lemma calcmom_ret (image : Image F) (xcen ycen : F) (bbox : geom.Box2I)
    (bkgd : F) (interpflag : bool) (w11 w12 w22 : F) (negative : bool)
    (r : calcmom_result) :
  calcmom image xcen ycen bbox bkgd interpflag w11 w12 w22 negative = Ret r ->
  invalid_weights w11 w12 w22 = false /\ outside_image image bbox = false /\
  for_each (Zrange (geom.getMinY bbox) (geom.getMaxY bbox))
    (fun i => for_each (Zrange (geom.getMinX bbox) (geom.getMaxX bbox))
                (pixel_step image (to_float xcen) (to_float ycen) (to_float bkgd)
                   interpflag w11 w12 w22 i))
    zero_moments = Ret (psums r) /\
  pI0 r = sum (psums r) /
          (geom_PI * fsqrt (get1 (getWeights w11 w12 w22) * get3 (getWeights w11 w12 w22)
                            - get2 (getWeights w11 w12 w22) * get2 (getWeights w11 w12 w22))).
Proof.
  unfold calcmom.
  destruct (invalid_weights w11 w12 w22); [discriminate |].
  destruct (outside_image image bbox); [discriminate |].
  destruct (for_each _ _ _) as [m | e |]; cbn; [| discriminate | discriminate].
  intros E; injection E as <-; cbn. auto.
Qed.

(** C6.  The two validations of [calcmom], in the order the code makes
    them.  A weight outside its bounds makes both variants throw
    [InvalidParameterError]; a box that is not inside the image, tested
    next, makes them throw [LengthError].  Either way the call ends
    before the loops, whatever the pixels are, and hands back no
    sums. *)
Theorem calcmom_validation (image : Image F) (xcen ycen : F) (bbox : geom.Box2I)
    (bkgd : F) (interpflag : bool) (w11 w12 w22 : F) (negative : bool) :
  ((w11 <? of_int 0) = true \/ (w11 >? of_int 1000000) = true \/
   (fabs w12 >? of_int 1000000) = true \/
   (w22 <? of_int 0) = true \/ (w22 >? of_int 1000000) = true ->
   calcmom image xcen ycen bbox bkgd interpflag w11 w12 w22 negative
     = Throw InvalidParameterError /\
   calcmom_flux image xcen ycen bbox bkgd interpflag w11 w12 w22
     = Throw InvalidParameterError) /\
  (invalid_weights w11 w12 w22 = false ->
   (geom.getMinX bbox < 0 \/ geom.getMaxX bbox >= getWidth image \/
    geom.getMinY bbox < 0 \/ geom.getMaxY bbox >= getHeight image)%Z ->
   calcmom image xcen ycen bbox bkgd interpflag w11 w12 w22 negative
     = Throw LengthError /\
   calcmom_flux image xcen ycen bbox bkgd interpflag w11 w12 w22
     = Throw LengthError).
Proof.
  split.
  - intros Hw. apply invalid_weights_true in Hw.
    unfold calcmom, calcmom_flux. rewrite Hw. split; reflexivity.
  - intros Hw Hout. apply outside_image_true in Hout.
    unfold calcmom, calcmom_flux. rewrite Hw, Hout. split; reflexivity.
Qed.
End AccumulatorFacts.

(** ** Flags *)

Section FlagFacts.
Context {F : Type}.

Lemma flags_set (m : Result.member) (v : F) (r : Result.t F) (k : Flag) :
  Result.flags (Result.set m v r) k = Result.flags r k.
Proof. reflexivity. Qed.

Lemma flags_set_flag (k : Flag) (b : bool) (r : Result.t F) (k' : Flag) :
  Result.flags (Result.set_flag k b r) k' = if Flag_eqb k k' then b else Result.flags r k'.
Proof. reflexivity. Qed.

Lemma Flag_eqb_eq (a b : Flag) : Flag_eqb a b = true <-> a = b.
Proof. destruct a, b; cbn; split; intros E; try reflexivity; discriminate. Qed.
End FlagFacts.

Section DriverFacts.
Context {F : Type} `{Arith F} `{Libm F} `{Extern F}.
Local Open Scope fl_scope.

(** What [computeAdaptiveMoments] does to the flags [getAdaptiveMoments]
    left: it only computes the failure flag. *)
Lemma computeAdaptiveMoments_flags (image : Image F) (center_x center_y : F)
    (negative : bool) (control : Control F) (indeterminate : Moments F)
    (result : Result.t F) :
  computeAdaptiveMoments image center_x center_y negative control indeterminate
    = Ret result ->
  exists (o : outcome bool) (s : Result.t F) (shiftmax : F),
    getAdaptiveMoments image (background control)
      (center_x - of_int (getX0 image)) (center_y - of_int (getY0 image)) shiftmax
      new_SdssShapeResult (maxIter control) (tol1 control) (tol2 control) negative
      indeterminate = (o, s) /\
    o <> Diverge /\
    (forall k, k <> FAILURE -> Result.flags result k = Result.flags s k) /\
    Result.flags result FAILURE =
      (match o with Ret b => negb b | _ => true end)
      || Result.flags s UNWEIGHTED || Result.flags s SHIFT.
Proof.
  unfold computeAdaptiveMoments.
  match goal with |- context [getAdaptiveMoments ?a ?b ?c ?d ?e ?f ?g ?h ?i ?j ?k] =>
    destruct (getAdaptiveMoments a b c d e f g h i j k) as [o s] eqn:E;
    intros Hr; exists o, s, e
  end.
  split; [exact E |]. clear E.
  destruct o as [b | e |]; [| | discriminate].
  - split; [discriminate |].
    destruct (Result.flags s UNWEIGHTED) eqn:EU; destruct (Result.flags s SHIFT) eqn:ES;
      destruct b; cbn in Hr; rewrite ?EU, ?ES in Hr; cbn in Hr;
      repeat match type of Hr with
             | (if ?c then _ else _) = _ => destruct c; try discriminate
             end;
      injection Hr as <-; cbn; rewrite ?EU, ?ES;
      (split; [intros k Hk; destruct k; try reflexivity; congruence | reflexivity]).
  - split; [discriminate |].
    destruct (Result.flags s UNWEIGHTED) eqn:EU; destruct (Result.flags s SHIFT) eqn:ES;
      cbn in Hr; rewrite ?EU, ?ES in Hr; cbn in Hr;
      repeat match type of Hr with
             | (if ?c then _ else _) = _ => destruct c; try discriminate
             end;
      injection Hr as <-; cbn; rewrite ?EU, ?ES;
      (split; [intros k Hk; destruct k; try reflexivity; congruence | reflexivity]).
Qed.

(** C10.  In every result [computeAdaptiveMoments] returns, the flag
    [UNWEIGHTED] or the flag [SHIFT] comes with the failure flag. *)
Theorem unweighted_or_shift_is_failure (image : Image F) (center_x center_y : F)
    (negative : bool) (control : Control F) (indeterminate : Moments F)
    (result : Result.t F) :
  computeAdaptiveMoments image center_x center_y negative control indeterminate
    = Ret result ->
  Result.flags result UNWEIGHTED = true \/ Result.flags result SHIFT = true ->
  Result.flags result FAILURE = true.
Proof.
  intros Hr Hf.
  destruct (computeAdaptiveMoments_flags _ _ _ _ _ _ _ Hr)
    as (o & s & shiftmax & _ & _ & Hk & Hfail).
  rewrite Hfail.
  rewrite <- (Hk UNWEIGHTED) by discriminate.
  rewrite <- (Hk SHIFT) by discriminate.
  destruct Hf as [-> | ->]; repeat rewrite orb_true_r; reflexivity.
Qed.
End DriverFacts.

(** ** The flags during one measurement *)

Ltac break_match :=
  match goal with
  | |- context [match ?c with _ => _ end] =>
      match type of c with
      | sumbool _ _ => fail 1
      | _ => destruct c eqn:?
      end
  end.

Ltac flag_leaf k :=
  unfold pass_keeps, locals_of, kept, raise_flag, with_shape in *; cbn in *;
  try solve [auto | destruct k; cbn in *; auto; discriminate].

Section EngineFacts.
Context {F : Type} `{Arith F} `{Libm F} `{Extern F}.
Local Open Scope fl_scope.

Variables (mimage : Image F) (bkgd xcen ycen shiftmax tol1 tol2 : F) (negative : bool).

Lemma update_keeps (k : Flag) (v : @Locals F) (status : Z) :
  pass_keeps k v (update xcen ycen shiftmax tol1 tol2 v status).
Proof.
  unfold update.
  repeat break_match; flag_leaf k.
Qed.

Lemma body_keeps (k : Flag) (v : @Locals F) :
  pass_keeps k v (body mimage bkgd xcen ycen shiftmax tol1 tol2 negative v).
Proof.
  unfold body.
  repeat break_match; try solve [flag_leaf k].
  all: match goal with |- pass_keeps ?k0 _ (update _ _ _ _ _ ?v1 ?st) =>
    exact (update_keeps k0 v1 st)
  end.
Qed.

Lemma loop_keeps (k : Flag) (fuel : nat) (maxIter : Z) (v : @Locals F) :
  pass_keeps k v (loop mimage bkgd xcen ycen shiftmax tol1 tol2 negative fuel maxIter v).
Proof.
  revert v; induction fuel as [| fuel IH]; intros v; cbn [loop].
  - destruct (iter v <? maxIter)%Z; flag_leaf k.
  - destruct (iter v <? maxIter)%Z; [| flag_leaf k].
    pose proof (body_keeps k v) as Hb.
    destruct (body mimage bkgd xcen ycen shiftmax tol1 tol2 negative v) as [v' | | | |];
      try exact Hb.
    match goal with |- pass_keeps k v (loop _ _ _ _ _ _ _ _ _ _ ?v2) =>
      pose proof (IH v2) as Hl;
      destruct (loop mimage bkgd xcen ycen shiftmax tol1 tol2 negative fuel maxIter v2)
    end; flag_leaf k.
Qed.

Lemma after_loop_keeps (k : Flag) (maxIter : Z) (v : @Locals F) :
  kept k (shape v) (shape (after_loop maxIter v)).
Proof.
  unfold after_loop. repeat break_match; flag_leaf k.
Qed.

(** What the unweighted moments do to the flags: nothing, unless they
    fail too; then [UNWEIGHTED] is cleared, [UNWEIGHTED_BAD] is set and
    the function returns false. *)
Lemma unweighted_moments_flags (v : @Locals F) :
  match unweighted_moments mimage bkgd xcen ycen negative v with
  | Next v' | Raise _ v' =>
      forall k, Result.flags (shape v') k = Result.flags (shape v) k
  | Return b v' =>
      b = false /\ Result.flags (shape v) UNWEIGHTED = true /\
      forall k, Result.flags (shape v') k =
                match k with
                | UNWEIGHTED => false
                | UNWEIGHTED_BAD => true
                | _ => Result.flags (shape v) k
                end
  | Break _ => False
  | Hang => True
  end.
Proof.
  unfold unweighted_moments.
  destruct (Result.flags (shape v) UNWEIGHTED) eqn:EU; [| reflexivity].
  destruct (calcmom _ _ _ _ _ _ _ _ _ _) as [r | e |]; [| reflexivity | exact I].
  destruct (_ || _ || _).
  - split; [reflexivity |]. split; [reflexivity |].
    intros k. destruct (sum (psums r) >? of_int 0); destruct k; reflexivity.
  - reflexivity.
Qed.

Lemma store_errors_flags (s s' : Result.t F) (bkgd_var : F) :
  store_errors s bkgd_var = Ret s' ->
  forall k, Result.flags s' k = Result.flags s k.
Proof.
  unfold store_errors. destruct (calc_fisher s bkgd_var); cbn; try discriminate.
  intros E; injection E as <-. reflexivity.
Qed.

Lemma finish_flags (v : @Locals F) (k : Flag) :
  Result.flags (snd (finish mimage xcen ycen v)) k = Result.flags (shape v) k.
Proof.
  unfold finish. destruct (sigmaW v) as [[s11 s12] s22].
  repeat break_match; cbn; try reflexivity.
  match goal with E : store_errors _ _ = Ret _ |- _ =>
    rewrite (store_errors_flags _ _ _ E) end.
  reflexivity.
Qed.

Lemma finish_outcome (v : @Locals F) :
  fst (finish mimage xcen ycen v) = Ret true \/
  fst (finish mimage xcen ycen v) = Throw DomainError.
Proof.
  unfold finish. destruct (sigmaW v) as [[s11 s12] s22].
  repeat break_match; cbn; auto.
  - match goal with E : store_errors _ _ = Throw _ |- _ => revert E end.
    unfold store_errors, calc_fisher. repeat break_match; cbn; try discriminate;
      intros E; injection E as <-; auto.
  - match goal with E : store_errors _ _ = Diverge |- _ => revert E end.
    unfold store_errors, calc_fisher. repeat break_match; cbn; discriminate.
Qed.
End EngineFacts.

Section FlagTheorems.
Context {F : Type} `{Arith F} `{Libm F} `{Extern F}.
Local Open Scope fl_scope.

(** C4, as amended.  During one measurement no flag is cleared once set,
    but for one case: when the unweighted moments fail as well,
    [getAdaptiveMoments] clears [UNWEIGHTED], sets [UNWEIGHTED_BAD] and
    returns false.  Every pass of the loop, the loop, the tests after it,
    the unweighted moments, the end of [getAdaptiveMoments], the driver
    [computeAdaptiveMoments] and [measure] keep every flag that is set;
    the driver computes the failure flag from what [getAdaptiveMoments]
    returned or threw and from the flags [UNWEIGHTED] and [SHIFT]. *)
Theorem flags_only_raised (k : Flag) :
  (forall mimage bkgd xcen ycen shiftmax tol1 tol2 negative (v : @Locals F),
     pass_keeps k v (body mimage bkgd xcen ycen shiftmax tol1 tol2 negative v)) /\
  (forall mimage bkgd xcen ycen shiftmax tol1 tol2 negative fuel maxIter (v : @Locals F),
     pass_keeps k v
       (loop mimage bkgd xcen ycen shiftmax tol1 tol2 negative fuel maxIter v)) /\
  (forall maxIter (v : @Locals F), kept k (shape v) (shape (after_loop maxIter v))) /\
  (forall mimage bkgd xcen ycen negative (v : @Locals F),
     match unweighted_moments mimage bkgd xcen ycen negative v with
     | Return b v' =>
         b = false /\
         Result.flags (shape v) UNWEIGHTED = true /\
         Result.flags (shape v') UNWEIGHTED = false /\
         Result.flags (shape v') UNWEIGHTED_BAD = true /\
         (k <> UNWEIGHTED -> kept k (shape v) (shape v'))
     | p => pass_keeps k v p
     end) /\
  (forall mimage xcen ycen (v : @Locals F),
     kept k (shape v) (snd (finish mimage xcen ycen v))) /\
  (forall image center_x center_y negative control indeterminate result,
     computeAdaptiveMoments image center_x center_y negative control indeterminate
       = Ret result ->
     exists (o : outcome bool) (s : Result.t F) (shiftmax : F),
       getAdaptiveMoments image (background control)
         (center_x - of_int (getX0 image)) (center_y - of_int (getY0 image)) shiftmax
         new_SdssShapeResult (maxIter control) (tol1 control) (tol2 control) negative
         indeterminate = (o, s) /\
       (k <> FAILURE -> Result.flags result k = Result.flags s k) /\
       Result.flags result FAILURE =
         (match o with Ret b => negb b | _ => true end)
         || Result.flags s UNWEIGHTED || Result.flags s SHIFT) /\
  (forall image center_x center_y negative control psf indeterminate result result',
     computeAdaptiveMoments image center_x center_y negative control indeterminate
       = Ret result ->
     measure image center_x center_y negative control psf indeterminate = Ret result' ->
     kept k result result').
Proof.
  split; [| split; [| split; [| split; [| split; [| split]]]]].
  - intros; apply body_keeps.
  - intros; apply loop_keeps.
  - intros; apply after_loop_keeps.
  - intros mimage bkgd xcen ycen negative v.
    pose proof (unweighted_moments_flags mimage bkgd xcen ycen negative v) as Hu.
    destruct (unweighted_moments mimage bkgd xcen ycen negative v) as [v' | v' | b v' | e v' |].
    + unfold pass_keeps, kept; cbn. now rewrite Hu.
    + contradiction.
    + destruct Hu as (Hb & HU & Hk).
      split; [exact Hb |]. split; [exact HU |].
      split; [now rewrite Hk |]. split; [now rewrite Hk |].
      intros Hne. unfold kept. rewrite Hk. destruct k; auto; congruence.
    + unfold pass_keeps, kept; cbn. now rewrite Hu.
    + exact I.
  - intros mimage xcen ycen v. unfold kept. now rewrite finish_flags.
  - intros image center_x center_y negative control indeterminate result Hr.
    destruct (computeAdaptiveMoments_flags _ _ _ _ _ _ _ Hr)
      as (o & s & shiftmax & Hg & _ & Hk & Hfail).
    exists o, s, shiftmax. repeat split; auto.
  - intros image center_x center_y negative control psf indeterminate result result' Hr.
    unfold measure. rewrite Hr. cbn. unfold kept.
    destruct (doMeasurePsf control).
    + destruct psf as [computeShape |].
      * destruct (computeShape _ _); intros E; try discriminate;
          injection E as <-; cbn; destruct k; auto.
      * intros E; injection E as <-; cbn; destruct k; auto.
    + intros E; injection E as <-; auto.
Qed.

(** C5, as amended.  When the loop ends because [iter] has reached
    [maxIter], the tests after it set both [UNWEIGHTED] and [MAXITER].
    In the result [getAdaptiveMoments] leaves, [MAXITER] is set, and
    [UNWEIGHTED] is set too unless the unweighted moments failed as well:
    then the function has returned false with [UNWEIGHTED] cleared and
    [UNWEIGHTED_BAD] set. *)
Theorem max_iterations_flags (mimage : Image F) (bkgd xcen ycen shiftmax : F)
    (shape0 : Result.t F) (maxIter : Z) (tol1 tol2 : F) (negative : bool)
    (indeterminate : Moments F) (v : @Locals F) :
  isnan xcen || isnan ycen = false ->
  loop_exit mimage bkgd xcen ycen shiftmax shape0 maxIter tol1 tol2 negative
    indeterminate = Break v ->
  iter v = maxIter ->
  let o := fst (getAdaptiveMoments mimage bkgd xcen ycen shiftmax shape0 maxIter
                  tol1 tol2 negative indeterminate) in
  let s := snd (getAdaptiveMoments mimage bkgd xcen ycen shiftmax shape0 maxIter
                  tol1 tol2 negative indeterminate) in
  (Result.flags (shape (after_loop maxIter v)) UNWEIGHTED = true /\
   Result.flags (shape (after_loop maxIter v)) MAXITER = true) /\
  (o <> Diverge ->
   Result.flags s MAXITER = true /\
   (Result.flags s UNWEIGHTED = true \/
    (o = Ret false /\ Result.flags s UNWEIGHTED = false /\
     Result.flags s UNWEIGHTED_BAD = true))).
Proof.
  intros Hnan Hexit Hiter o s.
  assert (Hafter : Result.flags (shape (after_loop maxIter v)) UNWEIGHTED = true /\
                   Result.flags (shape (after_loop maxIter v)) MAXITER = true).
  { unfold after_loop. rewrite Hiter, Z.eqb_refl.
    destruct (_ =? _); cbn; auto. }
  split; [exact Hafter |].
  subst o s. unfold getAdaptiveMoments. rewrite Hnan, Hexit.
  pose proof (unweighted_moments_flags mimage bkgd xcen ycen negative
                (after_loop maxIter v)) as Hu.
  destruct Hafter as [HU HM].
  destruct (unweighted_moments mimage bkgd xcen ycen negative (after_loop maxIter v))
    as [v' | v' | b v' | e v' |]; cbn [fst snd].
  - intros _. rewrite !finish_flags, !Hu. auto.
  - contradiction.
  - intros _. destruct Hu as (-> & _ & Hk). rewrite !Hk. auto.
  - intros _. rewrite !Hu. auto.
  - intros Hd; now contradiction Hd.
Qed.
End FlagTheorems.

(** ** The accumulator in exact arithmetic *)

Lemma moments_eq (a b : Moments R) :
  sum a = sum b -> sumx a = sumx b -> sumy a = sumy b -> sumxx a = sumxx b ->
  sumxy a = sumxy b -> sumyy a = sumyy b -> sums4 a = sums4 b -> a = b.
Proof. destruct a, b; cbn; intros; subst; reflexivity. Qed.

Lemma madd_assoc (a b c : Moments R) : madd (madd a b) c = madd a (madd b c).
Proof. apply moments_eq; cbn; ring. Qed.

Lemma madd_mzero_r (a : Moments R) : madd a mzero = a.
Proof. apply moments_eq; cbn; ring. Qed.

Lemma madd_mzero_l (a : Moments R) : madd mzero a = a.
Proof. apply moments_eq; cbn; ring. Qed.

Lemma exact_pixel_step (W Hh x0 y0 : Z) (p : Z -> Z -> R) (var : option (Z -> Z -> R))
    (xc yc bk w11 w12 w22 : R) (i j : Z) (m : Moments R) :
  pixel_step (real_image W Hh x0 y0 p var) (XR xc) (XR yc) (XR bk) false
    (XR w11) (XR w12) (XR w22) i j (lift_moments m)
  = Ret (lift_moments (madd m (pixel_moments p xc yc bk w11 w12 w22 i j))).
Proof.
  unfold pixel_step. rewrite !exact_lit by rneq. cbn.
  unfold pixel_moments, gaussian_exponent.
  destruct (Rleb _ 14).
  - reflexivity.
  - now rewrite madd_mzero_r.
Qed.

Lemma exact_row (W Hh x0 y0 : Z) (p : Z -> Z -> R) (var : option (Z -> Z -> R))
    (xc yc bk w11 w12 w22 : R) (i : Z) (cols : list Z) (m : Moments R) :
  for_each cols
    (pixel_step (real_image W Hh x0 y0 p var) (XR xc) (XR yc) (XR bk) false
       (XR w11) (XR w12) (XR w22) i) (lift_moments m)
  = Ret (lift_moments (madd m (msum (pixel_moments p xc yc bk w11 w12 w22 i) cols))).
Proof.
  revert m; induction cols as [| j cols IH]; intros m; cbn [for_each msum fold_right].
  - now rewrite madd_mzero_r.
  - rewrite exact_pixel_step. cbn [bind]. rewrite IH. now rewrite madd_assoc.
Qed.

Lemma exact_rows (W Hh x0 y0 : Z) (p : Z -> Z -> R) (var : option (Z -> Z -> R))
    (xc yc bk w11 w12 w22 : R) (rows cols : list Z) (m : Moments R) :
  for_each rows
    (fun i => for_each cols
       (pixel_step (real_image W Hh x0 y0 p var) (XR xc) (XR yc) (XR bk) false
          (XR w11) (XR w12) (XR w22) i)) (lift_moments m)
  = Ret (lift_moments
           (madd m (msum (fun i => msum (pixel_moments p xc yc bk w11 w12 w22 i) cols)
                         rows))).
Proof.
  revert m; induction rows as [| i rows IH]; intros m; cbn [for_each msum fold_right].
  - now rewrite madd_mzero_r.
  - rewrite exact_row. cbn [bind]. rewrite IH. now rewrite madd_assoc.
Qed.

Lemma exact_invalid_weights (w11 w12 w22 : R) :
  (0 <= w11 <= 1000000)%R -> (Rabs w12 <= 1000000)%R -> (0 <= w22 <= 1000000)%R ->
  invalid_weights (XR w11) (XR w12) (XR w22) = false.
Proof.
  intros H11 H12 H22. unfold invalid_weights. cbn.
  now rewrite !Rltb_false by lra.
Qed.

Lemma inside_image (F : Type) (image : Image F) (bbox : geom.Box2I) :
  (0 <= geom.getMinX bbox /\ geom.getMaxX bbox < getWidth image /\
   0 <= geom.getMinY bbox /\ geom.getMaxY bbox < getHeight image)%Z ->
  outside_image image bbox = false.
Proof.
  intros Hin. unfold outside_image.
  repeat rewrite orb_false_iff.
  rewrite !Z.ltb_ge, !Z.geb_leb, !Z.leb_gt. lia.
Qed.

(** [calcmom] without interpolation on real data, in closed form. *)
Lemma exact_calcmom (W Hh x0 y0 : Z) (p : Z -> Z -> R) (var : option (Z -> Z -> R))
    (xc yc : R) (bbox : geom.Box2I) (bk w11 w12 w22 : R) (negative : bool) :
  invalid_weights (XR w11) (XR w12) (XR w22) = false ->
  outside_image (real_image W Hh x0 y0 p var) bbox = false ->
  calcmom (real_image W Hh x0 y0 p var) (XR xc) (XR yc) bbox (XR bk) false
    (XR w11) (XR w12) (XR w22) negative
  = let m := box_moments p xc yc bk w11 w12 w22 bbox in
    let weights := getWeights (XR w11) (XR w12) (XR w22) in
    Ret {| status :=
             if negative then
               if Rltb (sum m) 0 && Rltb (sumxx m) 0 && Rltb (sumyy m) 0
               then 0%Z else (-1)%Z
             else
               if Rltb 0 (sum m) && Rltb 0 (sumxx m) && Rltb 0 (sumyy m)
               then 0%Z else (-1)%Z;
           pI0 := fdiv (XR (sum m))
                    (fmul geom_PI
                       (fsqrt (fsub (fmul (get1 weights) (get3 weights))
                                    (fmul (get2 weights) (get2 weights)))));
           psums := lift_moments m |}.
Proof.
  intros Hw Hin. unfold calcmom. rewrite Hw, Hin.
  change (to_float (XR xc)) with (XR xc).
  change (to_float (XR yc)) with (XR yc).
  change (to_float (XR bk)) with (XR bk).
  change (@zero_moments xreal _) with (lift_moments mzero).
  rewrite exact_rows. cbn [bind]. rewrite madd_mzero_l.
  reflexivity.
Qed.

(** C2, as amended.  Without interpolation and in exact arithmetic, a
    call of [calcmom] with weights within bounds and a box inside the
    image returns the sums, over the pixels of the box whose exponent
    [Q = x^2 w11 + 2 x y w12 + y^2 w22] (offsets [x], [y] from the
    centre) is at most 14, of the weighted value
    [(pixel - background) exp(-Q/2)] ([sum]), of that value times the
    column index [j] and times the row index [i] ([sumx], [sumy]: first
    moments in image coordinates, not relative to the centre), times
    [x^2], [x y], [y^2], and times [Q^2] ([sums4]). *)
Theorem calcmom_sums (W Hh x0 y0 : Z) (p : Z -> Z -> R) (var : option (Z -> Z -> R))
    (xc yc : R) (bbox : geom.Box2I) (bk w11 w12 w22 : R) (negative : bool) :
  (0 <= w11 <= 1000000)%R -> (Rabs w12 <= 1000000)%R -> (0 <= w22 <= 1000000)%R ->
  (0 <= geom.getMinX bbox /\ geom.getMaxX bbox < W /\
   0 <= geom.getMinY bbox /\ geom.getMaxY bbox < Hh)%Z ->
  exists r,
    calcmom (real_image W Hh x0 y0 p var) (XR xc) (XR yc) bbox (XR bk) false
      (XR w11) (XR w12) (XR w22) negative = Ret r /\
    psums r = lift_moments (box_moments p xc yc bk w11 w12 w22 bbox).
Proof.
  intros H11 H12 H22 Hin.
  rewrite exact_calcmom.
  - eexists; split; reflexivity.
  - now apply exact_invalid_weights.
  - now apply inside_image.
Qed.

(** ** Examples for the accumulator *)

(** Computes the index lists of the loops in the goal. *)
Ltac eval_ranges :=
  repeat match goal with
  | |- context [Zrange ?a ?b] =>
      let l := eval vm_compute in (Zrange a b) in
      change (Zrange a b) with l
  end.

(** Unfolds the closed form of the sums over the listed pixels. *)
Ltac eval_box :=
  unfold box_moments; eval_ranges;
  cbn [msum fold_right];
  unfold pixel_moments, gaussian_exponent;
  rtest.

(** Rewrites the arguments of [exp] that equal [c] to [c]. *)
Ltac exp_to c :=
  repeat match goal with
  | |- context [exp ?a] =>
      tryif constr_eq a c then fail
      else replace a with c by (first [lra | field; lra | field])
  end.

(** C2, a use of the theorem: the pixel (2, 2) of an image of ones, seen
    from the centre (1, 1) with a flat weight. *)
Lemma calcmom_sums_witness :
  exists r,
    calcmom ones_3x3 (XR 1) (XR 1) pixel_2_2 (XR 0) false (XR 0) (XR 0) (XR 0) false
      = Ret r /\
    psums r = lift_moments (box_moments (fun _ _ => 1%R) 1 1 0 0 0 0 pixel_2_2).
Proof.
  apply (calcmom_sums 3 3 0 0 (fun _ _ => 1%R) None 1 1 pixel_2_2 0 0 0 0 false).
  - lra.
  - rewrite Rabs_R0; lra.
  - lra.
  - cbn; lia.
Defined.

(** C2, the counter-example.  The pixel (2, 2) lies at the offset
    [x = y = 1] from the centre (1, 1); with a flat weight and no
    background its weighted value is 1, the value of [sum].  The first
    moments are 2, the column and the row index, where the claim has
    [x * 1 = 1] and [y * 1 = 1]. *)
Lemma calcmom_first_moments_absolute :
  exists r,
    calcmom ones_3x3 (XR 1) (XR 1) pixel_2_2 (XR 0) false (XR 0) (XR 0) (XR 0) false
      = Ret r /\
    sum (psums r) = XR 1 /\ sumx (psums r) = XR 2 /\ sumy (psums r) = XR 2.
Proof.
  unfold ones_3x3. rewrite exact_calcmom.
  - eexists; split; [reflexivity |]. cbn [psums lift_moments sum sumx sumy].
    eval_box. exp_to 0%R. rewrite exp_0. cbn [madd mzero sum sumx sumy].
    repeat split; f_equal; lra.
  - apply exact_invalid_weights; try lra. rewrite Rabs_R0; lra.
  - apply inside_image; cbn; lia.
Qed.

(** ** The amplitude *)

(** The quotient [calcmom] forms for [pI0], in exact arithmetic: the
    determinant under the root is that of the matrix [getWeights]
    returns for the weights, their inverse, which is [1/det(W)]. *)
Lemma exact_amplitude (S w11 w12 w22 : R) :
  (1 / 8388608 <= w11 * w22 - w12 * w12)%R ->
  fdiv (XR S)
    (fmul geom_PI
       (fsqrt (fsub (fmul (get1 (getWeights (XR w11) (XR w12) (XR w22)))
                          (get3 (getWeights (XR w11) (XR w12) (XR w22))))
                    (fmul (get2 (getWeights (XR w11) (XR w12) (XR w22)))
                          (get2 (getWeights (XR w11) (XR w12) (XR w22)))))))
  = XR (S / (PI * sqrt (/ (w11 * w22 - w12 * w12)))).
Proof.
  intros Hdet. rewrite getWeights_exact_ok by exact Hdet.
  unfold get1, get2, get3; cbn [fst snd].
  set (det := (w11 * w22 - w12 * w12)%R) in *.
  assert (Hpos : (0 < det)%R) by lra.
  assert (Hinv : (w22 / det * (w11 / det) - - w12 / det * (- w12 / det) = / det)%R).
  { unfold det. field. fold det. lra. }
  cbn. rewrite Hinv.
  assert (Hi : (0 < / det)%R) by now apply Rinv_0_lt_compat.
  assert (Hs : (0 < sqrt (/ det))%R) by now apply sqrt_lt_R0.
  assert (Hp : (0 < PI * sqrt (/ det))%R) by (apply Rmult_lt_0_compat; [apply PI_RGT_0 | exact Hs]).
  now rtest.
Qed.

Lemma exact_amplitude_nan (S w11 w12 w22 : R) :
  (w11 * w22 - w12 * w12 < 1 / 8388608)%R ->
  fdiv (XR S)
    (fmul geom_PI
       (fsqrt (fsub (fmul (get1 (getWeights (XR w11) (XR w12) (XR w22)))
                          (get3 (getWeights (XR w11) (XR w12) (XR w22))))
                    (fmul (get2 (getWeights (XR w11) (XR w12) (XR w22)))
                          (get2 (getWeights (XR w11) (XR w12) (XR w22)))))))
  = XNaN.
Proof.
  intros Hdet. rewrite getWeights_exact_singular by exact Hdet. reflexivity.
Qed.

(** C3, as amended.  In exact arithmetic the amplitude a call of
    [calcmom] returns is [sum / (pi sqrt(1/det W))], with
    [det W = w11 w22 - w12^2] at least the epsilon 2^-23: the determinant
    under the root is that of the inverse of the weight matrix, the
    covariance of the weighting function.  With [det W] below epsilon the
    amplitude is NaN. *)
Theorem calcmom_amplitude (image : Image xreal) (xcen ycen : xreal)
    (bbox : geom.Box2I) (bkgd : xreal) (interpflag : bool) (w11 w12 w22 : R)
    (negative : bool) (r : calcmom_result) (S : R) :
  calcmom image xcen ycen bbox bkgd interpflag (XR w11) (XR w12) (XR w22) negative
    = Ret r ->
  sum (psums r) = XR S ->
  ((1 / 8388608 <= w11 * w22 - w12 * w12)%R ->
   pI0 r = XR (S / (PI * sqrt (/ (w11 * w22 - w12 * w12))))) /\
  ((w11 * w22 - w12 * w12 < 1 / 8388608)%R -> pI0 r = XNaN).
Proof.
  intros Hr HS.
  destruct (calcmom_ret _ _ _ _ _ _ _ _ _ _ _ Hr) as (_ & _ & _ & HI).
  rewrite HI, HS. split; intros Hdet.
  - now apply exact_amplitude.
  - now apply exact_amplitude_nan.
Qed.

(** The pixel (2, 2) of an image of ones, seen from the centre (1, 1)
    with the weights (4, 0, 4): the exponent is 8, the accumulation
    succeeds, and the sum is [exp(-4)]. *)
Lemma amplitude_example :
  exists r,
    calcmom ones_3x3 (XR 1) (XR 1) pixel_2_2 (XR 0) false (XR 4) (XR 0) (XR 4) false
      = Ret r /\
    status r = 0%Z /\ sum (psums r) = XR (exp (-4)).
Proof.
  unfold ones_3x3. rewrite exact_calcmom.
  - eexists; split; [reflexivity |].
    assert (He : (0 < exp (-4))%R) by apply exp_pos.
    cbn [status psums lift_moments sum sumxx sumyy].
    eval_box. exp_to (-4)%R. cbn [madd mzero sum sumxx sumyy].
    split.
    + rtest. reflexivity.
    + f_equal; lra.
  - apply exact_invalid_weights; try lra. rewrite Rabs_R0; lra.
  - apply inside_image; cbn; lia.
Qed.

(** C3, a use of the theorem. *)
Lemma calcmom_amplitude_witness :
  exists r,
    calcmom ones_3x3 (XR 1) (XR 1) pixel_2_2 (XR 0) false (XR 4) (XR 0) (XR 4) false
      = Ret r /\
    pI0 r = XR (exp (-4) / (PI * sqrt (/ (4 * 4 - 0 * 0)))).
Proof.
  destruct amplitude_example as (r & Hr & _ & HS).
  exists r. split; [exact Hr |].
  apply (calcmom_amplitude _ _ _ _ _ _ 4 0 4 _ r (exp (-4)) Hr HS). lra.
Defined.

(** C3, the counter-example.  With the weight matrix (4, 0, 4), of
    determinant 16, a successful accumulation of sum [exp(-4)] returns
    the amplitude [exp(-4) / (pi sqrt(1/16))]; the claim has
    [exp(-4) / (pi sqrt(16))], sixteen times less. *)
Lemma calcmom_amplitude_uses_inverse :
  exists r,
    calcmom ones_3x3 (XR 1) (XR 1) pixel_2_2 (XR 0) false (XR 4) (XR 0) (XR 4) false
      = Ret r /\
    status r = 0%Z /\ sum (psums r) = XR (exp (-4)) /\
    pI0 r = XR (exp (-4) / (PI * sqrt (/ (4 * 4 - 0 * 0)))) /\
    (exp (-4) / (PI * sqrt (/ (4 * 4 - 0 * 0)))
     <> exp (-4) / (PI * sqrt (4 * 4 - 0 * 0)))%R.
Proof.
  destruct amplitude_example as (r & Hr & Hst & HS).
  exists r. split; [exact Hr |]. split; [exact Hst |]. split; [exact HS |].
  split.
  - destruct (calcmom_ret _ _ _ _ _ _ _ _ _ _ _ Hr) as (_ & _ & _ & HI).
    rewrite HI, HS. apply exact_amplitude. lra.
  - replace (4 * 4 - 0 * 0)%R with (4 * 4)%R by lra.
    rewrite sqrt_inv, sqrt_square by lra.
    assert (He : (0 < exp (-4))%R) by apply exp_pos.
    assert (Hp : (0 < PI)%R) by apply PI_RGT_0.
    assert (Hx : (0 < exp (-4) / PI)%R) by now apply Rdiv_lt_0_compat.
    replace (exp (-4) / (PI * / 4))%R with (4 * (exp (-4) / PI))%R by (field; lra).
    replace (exp (-4) / (PI * 4))%R with (exp (-4) / PI / 4)%R by (field; lra).
    lra.
Qed.

(** ** The error analysis *)

(** [calc_fisher] on real data. *)
Lemma exact_calc_fisher (s : Result.t xreal) (A s11 s12 s22 v : R) :
  s.[Result.instFlux] = XR A -> s.[Result.xx] = XR s11 ->
  s.[Result.xy] = XR s12 -> s.[Result.yy] = XR s22 ->
  (1 / 4503599627370496 < s11 * s22 - s12 * s12)%R -> (0 < v)%R ->
  exists fisher,
    calc_fisher s (XR v) = Ret fisher /\
    forall i j, (i < 4)%nat -> (j < 4)%nat ->
      fisher i j = XR (fisher_formula A s11 s12 s22 v i j).
Proof.
  intros HA H11 H12 H22 HD Hv.
  unfold calc_fisher. rewrite HA, H11, H12, H22, exact_double_epsilon.
  cbn [to_float exact_libm fmul fsub fle exact xlift2 xcmp of_int].
  rewrite Rleb_false by lra. rewrite Rleb_false by lra.
  eexists; split; [reflexivity |].
  intros i j Hi Hj.
  unfold fisher_formula.
  set (D := (s11 * s22 - s12 * s12)%R) in *.
  assert (HD0 : (0 < D)%R) by lra.
  assert (HD2 : (0 < D * D)%R) by nra.
  destruct i as [| [| [| [| i]]]]; try lia;
    destruct j as [| [| [| [| j]]]]; try lia;
    cbn; fold D; xsimpl; f_equal; field; lra.
Qed.

(** The determinant of the Fisher matrix, in exact arithmetic: with
    [D = xx yy - xy^2] above epsilon and a positive variance [v] it is
    [F^4 A^6 / (256 D^3)], [F = pi sqrt(D) / v].  The matrix is singular
    exactly when the amplitude [A] is zero. *)
Lemma exact_fisher_det (s : Result.t xreal) (A s11 s12 s22 v : R) :
  s.[Result.instFlux] = XR A -> s.[Result.xx] = XR s11 ->
  s.[Result.xy] = XR s12 -> s.[Result.yy] = XR s22 ->
  (1 / 4503599627370496 < s11 * s22 - s12 * s12)%R -> (0 < v)%R ->
  exists fisher,
    calc_fisher s (XR v) = Ret fisher /\
    det4 fisher =
      XR ((PI * sqrt (s11 * s22 - s12 * s12) / v) ^ 4 * A ^ 6
          / (256 * (s11 * s22 - s12 * s12) ^ 3)).
Proof.
  intros HA H11 H12 H22 HD Hv.
  destruct (exact_calc_fisher s A s11 s12 s22 v HA H11 H12 H22 HD Hv)
    as (fisher & Hf & Hentries).
  exists fisher. split; [exact Hf |].
  unfold det4, cofactor, minor, det3, skip. cbn [Nat.even Nat.add Nat.ltb Nat.leb].
  repeat rewrite Hentries by lia.
  unfold fisher_formula.
  set (D := (s11 * s22 - s12 * s12)%R) in *.
  assert (HD0 : (0 < D)%R) by lra.
  xsimpl. f_equal. unfold D in *. field. lra.
Qed.

Lemma cofactor_real (m : nat -> nat -> xreal) (f : nat -> nat -> R) :
  (forall i j, (i < 4)%nat -> (j < 4)%nat -> m i j = XR (f i j)) ->
  forall i j, (i < 4)%nat -> (j < 4)%nat -> exists c, cofactor m i j = XR c.
Proof.
  intros Hm i j Hi Hj.
  unfold cofactor, minor, det3, skip.
  destruct i as [| [| [| [| i]]]]; try lia;
    destruct j as [| [| [| [| j]]]]; try lia;
    cbn [Nat.even Nat.add Nat.ltb Nat.leb];
    repeat rewrite Hm by lia; cbn; eexists; reflexivity.
Qed.

Lemma singular_inverse (m : nat -> nat -> xreal) (f : nat -> nat -> R) :
  (forall i j, (i < 4)%nat -> (j < 4)%nat -> m i j = XR (f i j)) ->
  det4 m = XR 0 ->
  forall i j, (i < 4)%nat -> (j < 4)%nat -> cofactor_inverse m i j = XNaN.
Proof.
  intros Hm Hdet i j Hi Hj. unfold cofactor_inverse. rewrite Hdet.
  destruct (cofactor_real m f Hm j i Hj Hi) as (c & ->).
  apply xdiv_zero.
Qed.

Section ErrorFacts.
Context {F : Type} `{Arith F} `{Libm F} `{Extern F}.
Local Open Scope fl_scope.

Lemma calc_fisher_throws (s : Result.t F) (bkgd_var : F) (e : exn) :
  calc_fisher s bkgd_var = Throw e -> e = DomainError.
Proof.
  unfold calc_fisher. repeat break_match; intros E; try discriminate;
    now injection E as <-.
Qed.

(** C8, as amended.  The error analysis tests the determinant of the
    moments and the variance, and nothing about the amplitude, the
    Fisher matrix or its inverse.  [calc_fisher] throws [DomainError]
    exactly when the determinant [D = xx yy - xy^2], computed in
    [float], is at most the epsilon of [double], or the variance is at
    most 0 (a NaN passes both tests); otherwise it returns a matrix.
    When it throws, the step throws the same on, and the driver,
    catching any exception of [getAdaptiveMoments], sets the failure
    flag.  When it returns a matrix, the step succeeds whatever
    [inverse()] makes of it: the entries of that inverse (their roots
    on the diagonal) are stored as the errors and covariances, the flags
    are left as they are, and [getAdaptiveMoments] ends with true or
    with that [DomainError] only. *)
Theorem store_errors_unchecked (s : Result.t F) (bkgd_var : F) :
  (let D := to_float (to_float (to_float s.[Result.xx] * to_float s.[Result.yy])
                      - to_float (to_float s.[Result.xy] * to_float s.[Result.xy])) in
   if (D <=? double_epsilon) || (to_float bkgd_var <=? of_int 0)
   then calc_fisher s bkgd_var = Throw DomainError /\
        store_errors s bkgd_var = Throw DomainError
   else exists fisher, calc_fisher s bkgd_var = Ret fisher) /\
  (forall e, calc_fisher s bkgd_var = Throw e ->
     e = DomainError /\ store_errors s bkgd_var = Throw DomainError) /\
  (forall fisher, calc_fisher s bkgd_var = Ret fisher ->
     exists s',
       store_errors s bkgd_var = Ret s' /\
       s'.[Result.instFluxErr] = fsqrt (inverse fisher 0 0)%nat /\
       s'.[Result.xxErr] = to_float (fsqrt (inverse fisher 1 1)%nat) /\
       s'.[Result.yyErr] = to_float (fsqrt (inverse fisher 2 2)%nat) /\
       s'.[Result.xyErr] = to_float (fsqrt (inverse fisher 3 3)%nat) /\
       s'.[Result.instFlux_xx_Cov] = to_float (inverse fisher 0 1)%nat /\
       s'.[Result.instFlux_yy_Cov] = to_float (inverse fisher 0 2)%nat /\
       s'.[Result.instFlux_xy_Cov] = to_float (inverse fisher 0 3)%nat /\
       s'.[Result.xx_yy_Cov] = to_float (inverse fisher 1 2)%nat /\
       s'.[Result.xx_xy_Cov] = to_float (inverse fisher 1 3)%nat /\
       s'.[Result.yy_xy_Cov] = to_float (inverse fisher 2 3)%nat /\
       forall k, Result.flags s' k = Result.flags s k) /\
  (forall mimage xcen ycen (v : @Locals F),
     fst (finish mimage xcen ycen v) = Ret true \/
     fst (finish mimage xcen ycen v) = Throw DomainError) /\
  (forall image center_x center_y negative control indeterminate result,
     computeAdaptiveMoments image center_x center_y negative control indeterminate
       = Ret result ->
     exists (o : outcome bool) (s0 : Result.t F) (shiftmax : F),
       getAdaptiveMoments image (background control)
         (center_x - of_int (getX0 image)) (center_y - of_int (getY0 image)) shiftmax
         new_SdssShapeResult (maxIter control) (tol1 control) (tol2 control) negative
         indeterminate = (o, s0) /\
       (forall e, o = Throw e -> Result.flags result FAILURE = true)).
Proof.
  split; [| split; [| split; [| split]]].
  - cbv zeta. unfold store_errors, calc_fisher.
    destruct (_ <=? double_epsilon); cbn [orb bind]; [split; reflexivity |].
    destruct (_ <=? of_int 0); cbn [bind]; [split; reflexivity |].
    eexists; reflexivity.
  - intros e He. pose proof (calc_fisher_throws _ _ _ He) as ->.
    split; [reflexivity |]. unfold store_errors. now rewrite He.
  - intros fisher Hf. unfold store_errors. rewrite Hf. cbn [bind].
    eexists. split; [reflexivity |]. repeat split.
  - intros. apply finish_outcome.
  - intros image center_x center_y negative control indeterminate result Hr.
    destruct (computeAdaptiveMoments_flags _ _ _ _ _ _ _ Hr)
      as (o & s0 & shiftmax & Hg & _ & _ & Hfail).
    exists o, s0, shiftmax. split; [exact Hg |].
    intros e ->. now rewrite Hfail.
Qed.
End ErrorFacts.

(** C8, the counter-example.  For a result with amplitude 0 and the
    moments (1, 0, 1), at variance 1, [calc_fisher] passes its tests and
    returns a matrix of determinant 0.  The step returns all the same,
    and every error and covariance it stores is the NaN the closed-form
    inverse gives for a singular matrix; no failure is signalled. *)
Lemma singular_fisher_is_stored :
  exists fisher s',
    calc_fisher flat_shape (XR 1) = Ret fisher /\
    det4 fisher = XR 0 /\
    store_errors flat_shape (XR 1) = Ret s' /\
    s'.[Result.instFluxErr] = XNaN /\ s'.[Result.xxErr] = XNaN /\
    s'.[Result.yyErr] = XNaN /\ s'.[Result.xyErr] = XNaN /\
    s'.[Result.instFlux_xx_Cov] = XNaN /\ s'.[Result.instFlux_yy_Cov] = XNaN /\
    s'.[Result.instFlux_xy_Cov] = XNaN /\ s'.[Result.xx_yy_Cov] = XNaN /\
    s'.[Result.xx_xy_Cov] = XNaN /\ s'.[Result.yy_xy_Cov] = XNaN.
Proof.
  assert (HD : (1 / 4503599627370496 < 1 * 1 - 0 * 0)%R) by lra.
  assert (Hv : (0 < 1)%R) by lra.
  destruct (exact_calc_fisher flat_shape 0 1 0 1 1
              eq_refl eq_refl eq_refl eq_refl HD Hv) as (fisher & Hf & Hentries).
  destruct (exact_fisher_det flat_shape 0 1 0 1 1
              eq_refl eq_refl eq_refl eq_refl HD Hv) as (fisher' & Hf' & Hdet).
  rewrite Hf in Hf'; injection Hf' as <-.
  assert (Hzero : det4 fisher = XR 0).
  { rewrite Hdet. f_equal. field. }
  pose proof (singular_inverse fisher _ Hentries Hzero) as Hinv.
  exists fisher. eexists.
  split; [exact Hf |]. split; [exact Hzero |].
  unfold store_errors. rewrite Hf. cbn [bind].
  split; [reflexivity |].
  cbn [Result.get Result.set Result.value Result.member_eqb inverse exact_extern
       to_float exact_libm fsqrt exact].
  rewrite !Hinv by lia. cbn. repeat split.
Qed.

(** ** Boxes in exact arithmetic *)

Lemma Rfloor_le (r : R) (z : Z) : (r < IZR z + 1)%R -> (Rfloor r <= z)%Z.
Proof.
  intros Hr. unfold Rfloor. destruct (base_Int_part r) as [Hlo _].
  assert (Hlt : (IZR (Int_part r) < IZR (z + 1))%R) by (rewrite plus_IZR; lra).
  apply lt_IZR in Hlt. lia.
Qed.

Lemma Rfloor_ge (r : R) (z : Z) : (IZR z <= r)%R -> (z <= Rfloor r)%Z.
Proof.
  intros Hr. unfold Rfloor. destruct (base_Int_part r) as [_ Hhi].
  assert (Hlt : (IZR (z - 1) < IZR (Int_part r))%R) by (rewrite minus_IZR; lra).
  apply lt_IZR in Hlt. lia.
Qed.

Lemma Rceil_ge (r : R) (z : Z) : (IZR z - 1 < r)%R -> (z <= Rceil r)%Z.
Proof.
  intros Hr. unfold Rceil.
  assert (Rfloor (- r) <= - z)%Z by (apply Rfloor_le; rewrite opp_IZR; lra).
  unfold Rfloor in *. lia.
Qed.

Lemma Rceil_le (r : R) (z : Z) : (r <= IZR z)%R -> (Rceil r <= z)%Z.
Proof.
  intros Hr. unfold Rceil.
  assert (- z <= Rfloor (- r))%Z by (apply Rfloor_ge; rewrite opp_IZR; lra).
  unfold Rfloor in *. lia.
Qed.

(** The box of [computeAdaptiveMomentsBBox] for a round weighting
    function of variance [s], before clipping: the pixels within
    [4 sqrt(s)] of the centre. *)
Lemma exact_bbox (box : geom.Box2I) (x y s s12 : R) :
  (0 < s)%R -> (4 * sqrt s <= 1000)%R ->
  computeAdaptiveMomentsBBox box (XR x) (XR y) (XR s) (XR s12) (XR s) (of_int 1000)
  = Ret (geom.clip
           (geom.fromCorners (Rfloor (x - 4 * sqrt s + / 2)) (Rfloor (y - 4 * sqrt s + / 2))
                             (Rceil (x + 4 * sqrt s - / 2)) (Rceil (y + 4 * sqrt s - / 2)))
           box).
Proof.
  intros Hs Hr.
  assert (Hq : (0 < sqrt s)%R) by now apply sqrt_lt_R0.
  unfold computeAdaptiveMomentsBBox, fmin, fmax. xsimpl.
  cbn [Box2I_of_Box2D exact_extern]. unfold exact_Box2I_of_Box2D. cbn [xcmp].
  rewrite !Reqb_false by lra. cbn [orb bind].
  rewrite !Rmin_left, !Rmax_right by lra. reflexivity.
Qed.

Lemma clip_cover (a b c d W Hh : Z) :
  (a <= 0)%Z -> (b <= 0)%Z -> (W - 1 <= c)%Z -> (Hh - 1 <= d)%Z ->
  (0 < W)%Z -> (0 < Hh)%Z ->
  geom.clip (geom.fromCorners a b c d)
    {| geom.minimum_x := 0; geom.minimum_y := 0;
       geom.dimensions_x := W; geom.dimensions_y := Hh |}
  = {| geom.minimum_x := 0; geom.minimum_y := 0;
       geom.dimensions_x := W; geom.dimensions_y := Hh |}.
Proof.
  intros Ha Hb Hc Hd HW HH.
  unfold geom.clip, geom.fromCorners.
  destruct (c <? a)%Z eqn:E1; [apply Z.ltb_lt in E1; lia |].
  destruct (d <? b)%Z eqn:E2; [apply Z.ltb_lt in E2; lia |].
  cbn [orb]. unfold geom.isEmpty, geom.getMinX, geom.getMinY, geom.getMaxX, geom.getMaxY.
  cbn [geom.minimum_x geom.minimum_y geom.dimensions_x geom.dimensions_y].
  destruct (c - a + 1 =? 0)%Z eqn:E3; [apply Z.eqb_eq in E3; lia |].
  destruct (W =? 0)%Z eqn:E4; [apply Z.eqb_eq in E4; lia |].
  cbn [andb].
  rewrite (Z.max_r a 0), (Z.max_r b 0) by lia.
  replace (Z.min (a + (c - a + 1) - 1) (0 + W - 1)) with (W - 1)%Z by lia.
  replace (Z.min (b + (d - b + 1) - 1) (0 + Hh - 1)) with (Hh - 1)%Z by lia.
  destruct (W - 1 <? 0)%Z eqn:E5; [apply Z.ltb_lt in E5; lia |].
  destruct (Hh - 1 <? 0)%Z eqn:E6; [apply Z.ltb_lt in E6; lia |].
  cbn [orb]. f_equal; lia.
Qed.

Lemma clip_apart (a b c d W Hh : Z) :
  (a <= c)%Z -> (b <= d)%Z -> (W - 1 < a)%Z -> (0 < W)%Z -> (0 < Hh)%Z ->
  geom.clip (geom.fromCorners a b c d)
    {| geom.minimum_x := 0; geom.minimum_y := 0;
       geom.dimensions_x := W; geom.dimensions_y := Hh |}
  = geom.empty.
Proof.
  intros Hac Hbd Ha HW HH.
  unfold geom.clip, geom.fromCorners.
  destruct (c <? a)%Z eqn:E1; [apply Z.ltb_lt in E1; lia |].
  destruct (d <? b)%Z eqn:E2; [apply Z.ltb_lt in E2; lia |].
  cbn [orb]. unfold geom.isEmpty, geom.getMinX, geom.getMinY, geom.getMaxX, geom.getMaxY.
  cbn [geom.minimum_x geom.minimum_y geom.dimensions_x geom.dimensions_y].
  destruct (c - a + 1 =? 0)%Z eqn:E3; [apply Z.eqb_eq in E3; lia |].
  destruct (W =? 0)%Z eqn:E4; [apply Z.eqb_eq in E4; lia |].
  cbn [andb].
  destruct (Z.min (a + (c - a + 1) - 1) (0 + W - 1) <? Z.max a 0)%Z eqn:E5;
    [reflexivity | apply Z.ltb_ge in E5; lia].
Qed.

(** ** The flux at fixed moments *)

Section FluxFacts.
Context {F : Type} `{Arith F} `{Libm F} `{Extern F}.
Local Open Scope fl_scope.

(** C7, as amended.  Let the box be computed, the moments be solved for
    weights, and the accumulator return the weighted sum.  For an image
    without variance [computeFixedMomentsFlux] then returns the flux
    [2 * sum], with a NaN error and no test of the centre.  For an image
    with variance it tests the centre, truncated to a pixel index,
    against the image box after the accumulation: outside, it throws
    [RuntimeError]; inside, it returns the flux [2 * sum] with the error
    [2 sqrt(variance * pi sqrt(det(shape)))]. *)
Theorem computeFixedMomentsFlux_cases (image : Image F) (shape : Quadrupole F)
    (center_x center_y : F) (bbox : geom.Box2I) (sum0 : F) :
  let weights := getWeights (getIxx shape) (getIxy shape) (getIyy shape) in
  let localCenter_x := center_x - of_int (getX0 image) in
  let localCenter_y := center_y - of_int (getY0 image) in
  let ix := to_int (center_x - of_int (getX0 image)) in
  let iy := to_int (center_y - of_int (getY0 image)) in
  computeAdaptiveMomentsBBox (getBBox_LOCAL image) localCenter_x localCenter_y
    (getIxx shape) (getIxy shape) (getIyy shape) (of_int 1000) = Ret bbox ->
  fst (get0 weights) = true ->
  calcmom_flux image localCenter_x localCenter_y bbox (of_int 0)
    (shouldInterp (getIxx shape) (getIyy shape) (snd (get0 weights)))
    (get1 weights) (get2 weights) (get3 weights) = Ret sum0 ->
  (variance image = None ->
   computeFixedMomentsFlux image shape center_x center_y
     = Ret {| flux_instFlux := sum0 * of_int 2; flux_instFluxErr := NaN |}) /\
  (forall var, variance image = Some var ->
     geom.contains (getBBox_LOCAL image) ix iy = false ->
     computeFixedMomentsFlux image shape center_x center_y = Throw RuntimeError) /\
  (forall var, variance image = Some var ->
     geom.contains (getBBox_LOCAL image) ix iy = true ->
     computeFixedMomentsFlux image shape center_x center_y
       = Ret {| flux_instFlux := sum0 * of_int 2;
                flux_instFluxErr :=
                  of_int 2 * fsqrt (var ix iy
                                    * (geom_PI * fsqrt (getIxx shape * getIyy shape
                                                        - getIxy shape * getIxy shape))) |}).
Proof.
  intros weights lx ly ix iy Hbox Hok Hsum.
  unfold computeFixedMomentsFlux. fold lx ly. rewrite Hbox. cbn [bind].
  fold weights. rewrite Hok. cbn [negb]. rewrite Hsum. cbn [bind].
  unfold hasVariance, getVariance. subst lx ly ix iy.
  split; [| split].
  - intros ->. reflexivity.
  - intros var -> Hc. rewrite Hc. reflexivity.
  - intros var -> Hc. rewrite Hc. reflexivity.
Qed.
End FluxFacts.

(** The flux of the 3 by 3 image of ones, which has no variance, at
    the moments of the unit circle, about the point (10, 10) outside it. *)
Lemma flux_example :
  computeAdaptiveMomentsBBox (getBBox_LOCAL ones_3x3)
    (fsub (XR 10) (of_int (getX0 ones_3x3))) (fsub (XR 10) (of_int (getY0 ones_3x3)))
    (getIxx unit_circle) (getIxy unit_circle) (getIyy unit_circle) (of_int 1000)
    = Ret geom.empty /\
  fst (get0 (getWeights (getIxx unit_circle) (getIxy unit_circle) (getIyy unit_circle)))
    = true /\
  calcmom_flux ones_3x3
    (fsub (XR 10) (of_int (getX0 ones_3x3))) (fsub (XR 10) (of_int (getY0 ones_3x3)))
    geom.empty (of_int 0)
    (shouldInterp (getIxx unit_circle) (getIyy unit_circle)
       (snd (get0 (getWeights (getIxx unit_circle) (getIxy unit_circle)
                     (getIyy unit_circle)))))
    (get1 (getWeights (getIxx unit_circle) (getIxy unit_circle) (getIyy unit_circle)))
    (get2 (getWeights (getIxx unit_circle) (getIxy unit_circle) (getIyy unit_circle)))
    (get3 (getWeights (getIxx unit_circle) (getIxy unit_circle) (getIyy unit_circle)))
    = Ret (XR 0).
Proof.
  cbn [getIxx getIxy getIyy unit_circle].
  rewrite (getWeights_exact_ok 1 0 1) by lra.
  unfold get0, get1, get2, get3; cbn [fst snd].
  split; [| split; [reflexivity |]].
  - xsimpl. unfold ones_3x3, real_image, getBBox_LOCAL.
    cbn [getX0 getY0 getWidth getHeight].
    rewrite exact_bbox by (rewrite ?sqrt_1; lra).
    rewrite sqrt_1. f_equal.
    apply clip_apart; try lia.
    + apply Z.le_trans with 10%Z; [apply Rfloor_le; lra | apply Rceil_ge; lra].
    + apply Z.le_trans with 10%Z; [apply Rfloor_le; lra | apply Rceil_ge; lra].
    + match goal with |- (_ < ?t)%Z =>
        assert (6 <= t)%Z by (apply Rfloor_ge; lra) end.
      lia.
  - unfold calcmom_flux.
    assert (Hw : invalid_weights (XR (1 / (1 * 1 - 0 * 0))) (XR (- 0 / (1 * 1 - 0 * 0)))
                   (XR (1 / (1 * 1 - 0 * 0))) = false).
    { apply exact_invalid_weights.
      - lra.
      - replace (- 0 / (1 * 1 - 0 * 0))%R with 0%R by lra. rewrite Rabs_R0. lra.
      - lra. }
    rewrite Hw. reflexivity.
Qed.

(** C7, a use of the theorem. *)
Lemma computeFixedMomentsFlux_witness :
  computeFixedMomentsFlux ones_3x3 unit_circle (XR 10) (XR 10)
  = Ret {| flux_instFlux := fmul (XR 0) (of_int 2); flux_instFluxErr := NaN |}.
Proof.
  destruct flux_example as (Hbox & Hok & Hsum).
  exact (proj1 (computeFixedMomentsFlux_cases ones_3x3 unit_circle (XR 10) (XR 10)
                  geom.empty (XR 0) Hbox Hok Hsum) eq_refl).
Defined.

(** C7, the counter-example.  The centre (10, 10) lies outside the 3 by 3
    image, which has no variance plane: the call throws nothing and
    returns the flux 0 of the empty box. *)
Lemma computeFixedMomentsFlux_centre_unchecked :
  geom.contains (getBBox_LOCAL ones_3x3) 10 10 = false /\
  hasVariance ones_3x3 = false /\
  computeFixedMomentsFlux ones_3x3 unit_circle (XR 10) (XR 10)
  = Ret {| flux_instFlux := XR 0; flux_instFluxErr := XNaN |}.
Proof.
  split; [reflexivity |]. split; [reflexivity |].
  destruct flux_example as (Hbox & Hok & Hsum).
  unfold computeFixedMomentsFlux. rewrite Hbox. cbn [bind]. rewrite Hok. cbn [negb].
  rewrite Hsum. cbn [bind]. cbn. repeat f_equal. lra.
Qed.

(** ** Runs of the engine in exact arithmetic *)

Section LoopSteps.
Context {F : Type} `{Arith F} `{Libm F} `{Extern F}.

Lemma loop_step (mimage : Image F) (bkgd xcen ycen shiftmax tol1 tol2 : F)
    (negative : bool) (fuel : nat) (maxIter : Z) (v : @Locals F) :
  (iter v < maxIter)%Z ->
  loop mimage bkgd xcen ycen shiftmax tol1 tol2 negative (S fuel) maxIter v
  = match body mimage bkgd xcen ycen shiftmax tol1 tol2 negative v with
    | Next v' =>
        loop mimage bkgd xcen ycen shiftmax tol1 tol2 negative fuel maxIter
          {| iter := (iter v' + 1)%Z; I0 := I0 v'; sums := sums v';
             sigmaW := sigmaW v'; w := w v'; olds := olds v';
             interpflag := interpflag v'; bbox := bbox v'; shape := shape v' |}
    | p => p
    end.
Proof.
  intros Hlt. cbn [loop]. apply Z.ltb_lt in Hlt. now rewrite Hlt.
Qed.

Lemma loop_done (mimage : Image F) (bkgd xcen ycen shiftmax tol1 tol2 : F)
    (negative : bool) (fuel : nat) (maxIter : Z) (v : @Locals F) :
  (maxIter <= iter v)%Z ->
  loop mimage bkgd xcen ycen shiftmax tol1 tol2 negative fuel maxIter v = Break v.
Proof.
  intros Hge. apply Z.ltb_ge in Hge. destruct fuel; cbn [loop]; now rewrite Hge.
Qed.
End LoopSteps.

Lemma sqrt_3_2 : (1 <= sqrt (3 / 2) <= 3 / 2)%R.
Proof.
  split.
  - rewrite <- sqrt_1 at 1. apply sqrt_le_1_alt. lra.
  - apply Rlt_le, sqrt_less; lra.
Qed.

(** The weights of the first pass: the inverse of (3/2, 0, 3/2). *)
Lemma first_weights :
  getWeights (XR (3 / 2)) (XR 0) (XR (3 / 2))
  = ((true, XR (9 / 4)), XR (2 / 3), XR 0, XR (2 / 3)).
Proof.
  rewrite getWeights_exact_ok by lra.
  replace (3 / 2 * (3 / 2) - 0 * 0)%R with (9 / 4)%R by lra.
  replace (3 / 2 / (9 / 4))%R with (2 / 3)%R by field.
  replace (- 0 / (9 / 4))%R with 0%R by field.
  reflexivity.
Qed.

(** The first pass through the loop body on real data, up to [update]:
    the weighting function is round with variance 3/2, the weights are
    (2/3, 0, 2/3), and there is no interpolation.  [B] is the box. *)
Lemma first_pass (W Hh x0 y0 : Z) (p : Z -> Z -> R) (var : option (Z -> Z -> R))
    (bk x y : R) (shiftmax tol1 tol2 : xreal) (negative : bool)
    (shape0 : Result.t xreal) (indeterminate : Moments xreal) (B : geom.Box2I) :
  geom.clip
    (geom.fromCorners (Rfloor (x - 4 * sqrt (3 / 2) + / 2))
                      (Rfloor (y - 4 * sqrt (3 / 2) + / 2))
                      (Rceil (x + 4 * sqrt (3 / 2) - / 2))
                      (Rceil (y + 4 * sqrt (3 / 2) - / 2)))
    (getBBox_LOCAL (real_image W Hh x0 y0 p var)) = B ->
  outside_image (real_image W Hh x0 y0 p var) B = false ->
  body (real_image W Hh x0 y0 p var) (XR bk) (XR x) (XR y) shiftmax tol1 tol2 negative
    (entry shape0 indeterminate)
  = let m := box_moments p x y bk (2 / 3) 0 (2 / 3) B in
    update (XR x) (XR y) shiftmax tol1 tol2
      {| iter := 0;
         I0 := XR (sum m / (PI * sqrt (/ (2 / 3 * (2 / 3) - 0 * 0))));
         sums := lift_moments m;
         sigmaW := (XR (3 / 2), XR 0, XR (3 / 2));
         w := (XR (2 / 3), XR 0, XR (2 / 3));
         olds := (XR (1000000 / 1), XR (1000000 / 1), XR (1000000 / 1));
         interpflag := false; bbox := B; shape := shape0 |}
      (if negative then
         if Rltb (sum m) 0 && Rltb (sumxx m) 0 && Rltb (sumyy m) 0 then 0%Z else (-1)%Z
       else
         if Rltb 0 (sum m) && Rltb 0 (sumxx m) && Rltb 0 (sumyy m) then 0%Z else (-1)%Z).
Proof.
  intros HB Hin.
  pose proof sqrt_3_2 as [Hlo Hhi].
  unfold body, entry. rewrite !exact_lit by rneq.
  cbn [sigmaW w olds iter interpflag I0 sums shape bbox to_float exact_libm of_int exact].
  rewrite exact_bbox by lra. rewrite HB.
  rewrite first_weights. unfold get0, get1, get2, get3; cbn [fst snd negb].
  rewrite exact_float_epsilon.
  unfold shouldInterp. rewrite !exact_lit by rneq.
  xsimpl. cbn [orb andb negb].
  rewrite exact_calcmom; [| apply exact_invalid_weights; try lra; rewrite Rabs_R0; lra
                          | exact Hin].
  cbv zeta. cbn [status pI0 psums].
  rewrite exact_amplitude by lra.
  reflexivity.
Qed.

(** *** A dark pixel *)

Lemma dark_box_moments (x y w11 w12 w22 : R) (B : geom.Box2I) :
  box_moments (fun _ _ => 0%R) x y 0 w11 w12 w22 B = mzero.
Proof.
  assert (Hp : forall i j, pixel_moments (fun _ _ => 0%R) x y 0 w11 w12 w22 i j = mzero).
  { intros i j. unfold pixel_moments. destruct (Rleb _ 14); [| reflexivity].
    apply moments_eq; cbn; ring. }
  assert (Hrow : forall i cols,
             msum (pixel_moments (fun _ _ => 0%R) x y 0 w11 w12 w22 i) cols = mzero).
  { intros i cols. induction cols as [| j cols IH]; cbn [msum fold_right]; [reflexivity |].
    fold (msum (pixel_moments (fun _ _ => 0%R) x y 0 w11 w12 w22 i) cols).
    now rewrite IH, Hp, madd_mzero_l. }
  unfold box_moments.
  induction (Zrange (geom.getMinY B) (geom.getMaxY B)) as [| i rows IH];
    cbn [msum fold_right]; [reflexivity |].
  match goal with |- madd _ ?rest = _ => change rest with
    (msum (fun i => msum (pixel_moments (fun _ _ => 0%R) x y 0 w11 w12 w22 i)
                      (Zrange (geom.getMinX B) (geom.getMaxX B))) rows) end.
  now rewrite IH, Hrow, madd_mzero_l.
Qed.

Lemma dark_box :
  geom.clip
    (geom.fromCorners (Rfloor (0 - 0 - 4 * sqrt (3 / 2) + / 2))
                      (Rfloor (0 - 0 - 4 * sqrt (3 / 2) + / 2))
                      (Rceil (0 - 0 + 4 * sqrt (3 / 2) - / 2))
                      (Rceil (0 - 0 + 4 * sqrt (3 / 2) - / 2)))
    (getBBox_LOCAL dark_pixel) = getBBox_LOCAL dark_pixel.
Proof.
  pose proof sqrt_3_2 as [Hlo Hhi].
  unfold getBBox_LOCAL, dark_pixel, real_image; cbn [getWidth getHeight].
  apply clip_cover; try lia.
  - apply Rfloor_le; lra.
  - apply Rfloor_le; lra.
  - apply (Rceil_ge _ 0); lra.
  - apply (Rceil_ge _ 0); lra.
Qed.

(** The loop on the dark pixel: the first pass finds no positive sum,
    sets [UNWEIGHTED] and breaks. *)
Lemma dark_loop :
  exists v,
    loop_exit dark_pixel (XR 0) (XR (0 - 0)) (XR (0 - 0)) (XR 2) new_SdssShapeResult
      100 (XR (1 / 100000)) (XR (1 / 10000)) false unwritten = Break v /\
    iter v = 0%Z /\ sums v = lift_moments mzero /\ interpflag v = false /\
    bbox v = getBBox_LOCAL dark_pixel /\
    shape v = Result.set_flag UNWEIGHTED true new_SdssShapeResult.
Proof.
  unfold loop_exit. rewrite loop_step by (cbn; lia).
  unfold dark_pixel at 1.
  rewrite (first_pass 1 1 0 0 (fun _ _ => 0%R) None 0 (0 - 0) (0 - 0) (XR 2) _ _ false
             new_SdssShapeResult unwritten (getBBox_LOCAL dark_pixel) dark_box)
    by (apply inside_image; cbn; lia).
  cbv zeta. rewrite dark_box_moments.
  cbn [sum sumxx sumyy mzero]. rtest. cbn [andb].
  unfold update. cbn [Z.ltb Z.compare].
  eexists. split; [reflexivity |]. cbn. repeat split.
Qed.

(** The whole measurement of the dark pixel: the unweighted moments
    fail as well, [UNWEIGHTED] is cleared and [UNWEIGHTED_BAD] is set. *)
Lemma dark_measurement :
  exists result,
    computeAdaptiveMoments dark_pixel (XR 0) (XR 0) false default_control unwritten
      = Ret result /\
    Result.flags result UNWEIGHTED = false /\
    Result.flags result UNWEIGHTED_BAD = true /\
    Result.flags result FAILURE = true.
Proof.
  destruct dark_loop as (v & Hv & Hiter & Hsums & Hinterp & Hbbox & Hshape).
  destruct v as [it i0 sm sg ww ol ip bb sh]; cbn in Hiter, Hsums, Hinterp, Hbbox, Hshape.
  subst it sm ip bb sh.
  unfold computeAdaptiveMoments.
  cbn [default_control background maxIter maxShift tol1 tol2 to_float exact_libm
       dark_pixel real_image getX0 getY0].
  xsimpl.
  unfold getAdaptiveMoments. cbn [isnan exact orb].
  fold dark_pixel. rewrite Hv.
  unfold after_loop. cbn [iter sums Z.eqb lift_moments mzero sumxx sumyy].
  xsimpl.
  unfold unweighted_moments, raise_flag, with_shape.
  cbn [iter I0 sums sigmaW w olds interpflag bbox shape
       Result.flags Result.set_flag Flag_eqb of_int exact].
  change (calcmom dark_pixel) with (calcmom (real_image 1 1 0 0 (fun _ _ => 0%R) None)).
  rewrite exact_calcmom;
    [| apply exact_invalid_weights; try lra; rewrite Rabs_R0; lra
     | apply inside_image; cbn; lia].
  cbv zeta. rewrite dark_box_moments.
  cbn [psums status lift_moments sum sumxx sumyy mzero negb andb orb].
  rtest. cbn [andb orb Z.ltb Z.compare]. xsimpl.
  cbn [shape hasVariance dark_pixel real_image variance
       Result.get Result.set Result.set_flag Result.value Result.flags
       Result.member_eqb Flag_eqb new_SdssShapeResult NaN exact negb orb andb].
  xsimpl. cbn [andb].
  eexists. split; [reflexivity |]. cbn. repeat split.
Qed.

(** *** Two pixels on a diagonal *)

Lemma diagonal_box :
  geom.clip
    (geom.fromCorners (Rfloor (0 - 0 - 4 * sqrt (3 / 2) + / 2))
                      (Rfloor (0 - 0 - 4 * sqrt (3 / 2) + / 2))
                      (Rceil (0 - 0 + 4 * sqrt (3 / 2) - / 2))
                      (Rceil (0 - 0 + 4 * sqrt (3 / 2) - / 2)))
    (getBBox_LOCAL diagonal_pair) = getBBox_LOCAL diagonal_pair.
Proof.
  pose proof sqrt_3_2 as [Hlo Hhi].
  unfold getBBox_LOCAL, diagonal_pair, real_image; cbn [getWidth getHeight].
  apply clip_cover; try lia.
  - apply Rfloor_le; lra.
  - apply Rfloor_le; lra.
  - apply (Rceil_ge _ 1); lra.
  - apply (Rceil_ge _ 1); lra.
Qed.

(** The sums of the first pass: the pixel at the centre has weight 1,
    the other one the weight [exp(-2/3)]. *)
Lemma diagonal_weighted_moments :
  box_moments (fun j i => if (j =? i)%Z then 1%R else 0%R) (0 - 0) (0 - 0) 0
    (2 / 3) 0 (2 / 3) (getBBox_LOCAL diagonal_pair)
  = {| sum := 1 + exp (- (2 / 3)); sumx := exp (- (2 / 3)); sumy := exp (- (2 / 3));
       sumxx := exp (- (2 / 3)); sumxy := exp (- (2 / 3)); sumyy := exp (- (2 / 3));
       sums4 := 16 / 9 * exp (- (2 / 3)) |}%R.
Proof.
  eval_box. cbn [Z.eqb Pos.eqb].
  exp_to 0%R. rewrite exp_0. exp_to (- (2 / 3))%R.
  apply moments_eq; cbn [madd mzero sum sumx sumy sumxx sumxy sumyy sums4]; lra.
Qed.

(** The sums of the unweighted moments. *)
Lemma diagonal_flat_moments :
  box_moments (fun j i => if (j =? i)%Z then 1%R else 0%R) (0 - 0) (0 - 0) 0
    0 0 0 (getBBox_LOCAL diagonal_pair)
  = {| sum := 2; sumx := 1; sumy := 1; sumxx := 1; sumxy := 1; sumyy := 1;
       sums4 := 0 |}%R.
Proof.
  eval_box. cbn [Z.eqb Pos.eqb].
  exp_to 0%R. rewrite exp_0.
  apply moments_eq; cbn [madd mzero sum sumx sumy sumxx sumxy sumyy sums4]; lra.
Qed.

Lemma diagonal_loop :
  exists v,
    loop_exit diagonal_pair (XR 0) (XR (0 - 0)) (XR (0 - 0)) (XR 2) new_SdssShapeResult
      100 (XR (1 / 100000)) (XR (1 / 10000)) false unwritten = Break v /\
    iter v = 0%Z /\ interpflag v = false /\
    sums v = lift_moments
               {| sum := 1 + exp (- (2 / 3)); sumx := exp (- (2 / 3));
                  sumy := exp (- (2 / 3)); sumxx := exp (- (2 / 3));
                  sumxy := exp (- (2 / 3)); sumyy := exp (- (2 / 3));
                  sums4 := 16 / 9 * exp (- (2 / 3)) |}%R /\
    bbox v = getBBox_LOCAL diagonal_pair /\
    forall k, Result.flags (shape v) k = match k with UNWEIGHTED => true | _ => false end.
Proof.
  assert (Hb : (0 < exp (- (2 / 3)))%R) by apply exp_pos.
  set (b := exp (- (2 / 3))) in *.
  assert (Hq : (0 < b / (1 + b) < 1)%R).
  { split.
    - apply Rdiv_lt_0_compat; lra.
    - apply Rmult_lt_reg_r with (1 + b)%R; [lra |].
      unfold Rdiv. rewrite Rmult_assoc, Rinv_l by lra. lra. }
  unfold loop_exit. rewrite loop_step by (cbn; lia).
  unfold diagonal_pair at 1.
  rewrite (first_pass 2 2 0 0 _ None 0 (0 - 0) (0 - 0) (XR 2) _ _ false
             new_SdssShapeResult unwritten (getBBox_LOCAL diagonal_pair) diagonal_box)
    by (apply inside_image; cbn; lia).
  cbv zeta. rewrite diagonal_weighted_moments. fold b.
  cbn [sum sumxx sumyy]. rtest. cbn [andb].
  unfold update.
  cbn [Z.ltb Z.compare sums w olds iter shape lift_moments sum sumx sumy sumxx sumxy sumyy
       to_float exact_libm].
  xsimpl. fold b.
  cbn [orb andb Z.gtb Z.compare Result.get Result.set Result.value Result.member_eqb].
  xsimpl.
  replace (Rabs (b / (1 + b) - (0 - 0))) with (b / (1 + b))%R
    by (rewrite Rabs_pos_eq; lra).
  rtest. cbn [orb].
  rewrite getWeights_exact_singular by lra.
  cbn [get0 fst negb].
  eexists. split; [reflexivity |].
  cbn [raise_flag with_shape iter interpflag sums bbox shape].
  repeat split. intros k; destruct k; reflexivity.
Qed.

(** The whole measurement of the diagonal pair: the loop breaks with
    [UNWEIGHTED], the unweighted moments succeed, and the result comes
    back with [UNWEIGHTED] set. *)
Lemma diagonal_measurement :
  exists result,
    computeAdaptiveMoments diagonal_pair (XR 0) (XR 0) false default_control unwritten
      = Ret result /\
    Result.flags result UNWEIGHTED = true.
Proof.
  destruct diagonal_loop as (v & Hv & Hiter & Hinterp & Hsums & Hbbox & Hflags).
  destruct v as [it i0 sm sg ww ol ip bb sh]; cbn in Hiter, Hsums, Hinterp, Hbbox, Hflags.
  subst it sm ip bb.
  assert (Hb : (0 < exp (- (2 / 3)))%R) by apply exp_pos.
  set (b := exp (- (2 / 3))) in *.
  unfold computeAdaptiveMoments.
  cbn [default_control background maxIter maxShift tol1 tol2 to_float exact_libm
       diagonal_pair real_image getX0 getY0].
  xsimpl.
  unfold getAdaptiveMoments. cbn [isnan exact orb].
  fold diagonal_pair. rewrite Hv.
  unfold after_loop. cbn [iter sums Z.eqb lift_moments sumxx sumyy].
  xsimpl.
  unfold unweighted_moments, raise_flag, with_shape.
  cbn [iter I0 sums sigmaW w olds interpflag bbox shape
       Result.flags Result.set_flag Flag_eqb of_int exact].
  rewrite (Hflags UNWEIGHTED).
  change (calcmom diagonal_pair)
    with (calcmom (real_image 2 2 0 0 (fun j i => if (j =? i)%Z then 1%R else 0%R) None)).
  rewrite exact_calcmom;
    [| apply exact_invalid_weights; try lra; rewrite Rabs_R0; lra
     | apply inside_image; cbn; lia].
  cbv zeta. rewrite diagonal_flat_moments.
  cbn [psums status pI0 lift_moments sum sumx sumy sumxx sumxy sumyy negb andb orb].
  rtest. cbn [andb orb Z.ltb Z.compare]. xsimpl. cbn [andb orb].
  assert (Hidx : Rfloor (0 - 0 + / 2) = 0%Z).
  { assert (Rfloor (0 - 0 + / 2) <= 0)%Z by (apply Rfloor_le; lra).
    assert (0 <= Rfloor (0 - 0 + / 2))%Z by (apply Rfloor_ge; lra). lia. }
  unfold finish.
  cbn [iter I0 sums sigmaW w olds interpflag bbox shape
       Result.get Result.set Result.set_flag Result.value Result.flags
       Result.member_eqb positionToIndex exact_extern].
  rewrite Hidx. xsimpl.
  cbn [negb andb orb Z.geb Z.ltb Z.compare diagonal_pair real_image getWidth getHeight
       getVariance variance to_float exact_libm NaN exact flt xcmp of_int].
  match goal with |- context [Result.set Result.instFlux ?a sh] => generalize a end.
  intros flux.
  cbn [Result.get Result.set Result.set_flag Result.value Result.flags
       Result.member_eqb Flag_eqb].
  rewrite (Hflags UNWEIGHTED). cbn [orb].
  cbn [Result.get Result.set Result.set_flag Result.value Result.flags
       Result.member_eqb Flag_eqb negb andb].
  match goal with |- context [if ?c && false then _ else _] =>
    replace (c && false) with false by (destruct c; reflexivity) end.
  eexists. split; [reflexivity |].
  cbn [hasVariance diagonal_pair real_image variance Result.flags Result.set
       Result.set_flag Flag_eqb].
  apply (Hflags UNWEIGHTED).
Qed.

(** The diagonal pair is measured with unweighted moments, and reported
    as failed. *)
Lemma unweighted_or_shift_is_failure_witness :
  exists result,
    computeAdaptiveMoments diagonal_pair (XR 0) (XR 0) false default_control unwritten
      = Ret result /\
    Result.flags result UNWEIGHTED = true /\
    Result.flags result FAILURE = true.
Proof.
  destruct diagonal_measurement as (result & Hr & HU).
  exists result. split; [exact Hr |]. split; [exact HU |].
  exact (unweighted_or_shift_is_failure diagonal_pair (XR 0) (XR 0) false
           default_control unwritten result Hr (or_introl HU)).
Defined.

(** *** A ring around a dark centre *)

Lemma ringed_box :
  geom.clip
    (geom.fromCorners (Rfloor (1 - 0 - 4 * sqrt (3 / 2) + / 2))
                      (Rfloor (1 - 0 - 4 * sqrt (3 / 2) + / 2))
                      (Rceil (1 - 0 + 4 * sqrt (3 / 2) - / 2))
                      (Rceil (1 - 0 + 4 * sqrt (3 / 2) - / 2)))
    (getBBox_LOCAL ringed_3x3) = getBBox_LOCAL ringed_3x3.
Proof.
  pose proof sqrt_3_2 as [Hlo Hhi].
  unfold getBBox_LOCAL, ringed_3x3, real_image; cbn [getWidth getHeight].
  apply clip_cover; try lia.
  - apply Rfloor_le; lra.
  - apply Rfloor_le; lra.
  - apply (Rceil_ge _ 2); lra.
  - apply (Rceil_ge _ 2); lra.
Qed.

(** The sums of the first pass: the neighbours have the weight
    [exp(-1/3)], the corners [exp(-2/3)]. *)
Lemma ringed_weighted_moments :
  box_moments ringed_value (1 - 0) (1 - 0) 0 (2 / 3) 0 (2 / 3) (getBBox_LOCAL ringed_3x3)
  = {| sum := 8 * exp (- (1 / 3)) - 4 * exp (- (2 / 3));
       sumx := 8 * exp (- (1 / 3)) - 4 * exp (- (2 / 3));
       sumy := 8 * exp (- (1 / 3)) - 4 * exp (- (2 / 3));
       sumxx := 4 * exp (- (1 / 3)) - 4 * exp (- (2 / 3));
       sumxy := 0;
       sumyy := 4 * exp (- (1 / 3)) - 4 * exp (- (2 / 3));
       sums4 := 32 / 9 * exp (- (1 / 3)) - 64 / 9 * exp (- (2 / 3)) |}%R.
Proof.
  eval_box. unfold ringed_value. cbn [Z.eqb Pos.eqb andb orb].
  exp_to 0%R. rewrite exp_0. exp_to (- (1 / 3))%R. exp_to (- (2 / 3))%R.
  apply moments_eq; cbn [madd mzero sum sumx sumy sumxx sumxy sumyy sums4]; lra.
Qed.

(** The sums of the unweighted moments: the second moments vanish. *)
Lemma ringed_flat_moments :
  box_moments ringed_value (1 - 0) (1 - 0) 0 0 0 0 (getBBox_LOCAL ringed_3x3)
  = {| sum := 4; sumx := 4; sumy := 4; sumxx := 0; sumxy := 0; sumyy := 0;
       sums4 := 0 |}%R.
Proof.
  eval_box. unfold ringed_value. cbn [Z.eqb Pos.eqb andb orb].
  exp_to 0%R. rewrite exp_0.
  apply moments_eq; cbn [madd mzero sum sumx sumy sumxx sumxy sumyy sums4]; lra.
Qed.

(** What is needed of the two weights. *)
Lemma ringed_weights :
  let a := exp (- (1 / 3)) in
  let b := exp (- (2 / 3)) in
  (0 < a < 3 / 4 /\ 0 < b < 3 / 4 * a)%R.
Proof.
  cbv zeta.
  assert (Ha : (0 < exp (- (1 / 3)))%R) by apply exp_pos.
  assert (Ha' : (exp (- (1 / 3)) < 3 / 4)%R).
  { rewrite exp_Ropp.
    assert (H : (1 + 1 / 3 < exp (1 / 3))%R) by (apply exp_ineq1; lra).
    replace (3 / 4)%R with (/ (4 / 3))%R by field.
    apply Rinv_lt_contravar; [| lra].
    apply Rmult_lt_0_compat; lra. }
  assert (Hb : (exp (- (2 / 3)) = exp (- (1 / 3)) * exp (- (1 / 3)))%R).
  { rewrite <- exp_plus. f_equal. field. }
  rewrite Hb. repeat split; try lra; nra.
Qed.

Lemma ringed_loop :
  exists v,
    loop_exit ringed_3x3 (XR 0) (XR (1 - 0)) (XR (1 - 0)) (XR 2) new_SdssShapeResult
      1 (XR (1 / 100000)) (XR (1 / 10000)) false unwritten = Break v /\
    iter v = 1%Z /\ interpflag v = false /\
    sums v = lift_moments
               {| sum := 8 * exp (- (1 / 3)) - 4 * exp (- (2 / 3));
                  sumx := 8 * exp (- (1 / 3)) - 4 * exp (- (2 / 3));
                  sumy := 8 * exp (- (1 / 3)) - 4 * exp (- (2 / 3));
                  sumxx := 4 * exp (- (1 / 3)) - 4 * exp (- (2 / 3));
                  sumxy := 0;
                  sumyy := 4 * exp (- (1 / 3)) - 4 * exp (- (2 / 3));
                  sums4 := 32 / 9 * exp (- (1 / 3)) - 64 / 9 * exp (- (2 / 3)) |}%R /\
    bbox v = getBBox_LOCAL ringed_3x3 /\
    forall k, Result.flags (shape v) k = false.
Proof.
  destruct ringed_weights as [[Ha Ha'] [Hb0 Hb1]].
  set (a := exp (- (1 / 3))) in *. set (b := exp (- (2 / 3))) in *.
  assert (Hs : (1 / 5 <= (4 * a - 4 * b) / (8 * a - 4 * b) <= 1 / 2)%R).
  { assert (E : ((4 * a - 4 * b) / (8 * a - 4 * b) * (8 * a - 4 * b)
                 = 4 * a - 4 * b)%R) by (field; lra).
    split; apply Rmult_le_reg_r with (8 * a - 4 * b)%R; try lra; rewrite E; lra. }
  unfold loop_exit. rewrite loop_step by (cbn; lia).
  unfold ringed_3x3 at 1.
  rewrite (first_pass 3 3 0 0 _ None 0 (1 - 0) (1 - 0) (XR 2) _ _ false
             new_SdssShapeResult unwritten (getBBox_LOCAL ringed_3x3) ringed_box)
    by (apply inside_image; cbn; lia).
  cbv zeta. rewrite ringed_weighted_moments. fold a b.
  cbn [sum sumxx sumyy]. rtest. cbn [andb].
  unfold update.
  cbn [Z.ltb Z.compare sums w olds iter shape lift_moments sum sumx sumy sumxx sumxy sumyy
       to_float exact_libm].
  xsimpl. fold a b.
  cbn [orb andb Z.gtb Z.compare Result.get Result.set Result.value Result.member_eqb].
  xsimpl.
  replace (0 / (8 * a - 4 * b))%R with 0%R by (field; lra).
  replace ((8 * a - 4 * b) / (8 * a - 4 * b))%R with 1%R by (field; lra).
  replace (Rabs (1 - (1 - 0))) with 0%R by (rewrite Rabs_pos_eq; lra).
  set (s := ((4 * a - 4 * b) / (8 * a - 4 * b))%R) in *.
  rtest. cbn [orb].
  rewrite getWeights_exact_ok by nra.
  cbn [get0 get1 get2 get3 fst snd negb].
  xsimpl.
  assert (Hn : (4 / 3 <= s / (s * s - 0 * 0) - 2 / 3 <= 13 / 3)%R).
  { replace (s / (s * s - 0 * 0))%R with (/ s)%R by (field; lra).
    assert (/ (1 / 2) <= / s)%R by (apply Rinv_le_contravar; lra).
    assert (/ s <= / (1 / 5))%R by (apply Rinv_le_contravar; lra).
    replace (/ (1 / 2))%R with 2%R in * by field.
    replace (/ (1 / 5))%R with 5%R in * by field.
    lra. }
  replace (- 0 / (s * s - 0 * 0) - 0)%R with 0%R by (field; lra).
  set (n := (s / (s * s - 0 * 0) - 2 / 3)%R) in *.
  rewrite getWeights_exact_ok by nra.
  cbn [get0 get1 get2 get3 fst snd negb].
  assert (Ht : (0 < n / (n * n - 0 * 0))%R).
  { replace (n / (n * n - 0 * 0))%R with (/ n)%R by (field; lra).
    apply Rinv_0_lt_compat; lra. }
  set (t := (n / (n * n - 0 * 0))%R) in *.
  xsimpl. cbn [orb].
  rewrite loop_done by (cbn; lia).
  eexists. split; [reflexivity |].
  cbn [iter interpflag sums bbox shape].
  repeat split.
Qed.

(** The measurement of the ring with one pass allowed.  The pass ends
    normally, so that the loop stops on [iter = maxIter]; the unweighted
    second moments are 0, and the engine returns false with [MAXITER]
    and [UNWEIGHTED_BAD] set and [UNWEIGHTED] cleared. *)
Lemma ringed_engine :
  exists s,
    getAdaptiveMoments ringed_3x3 (XR 0) (XR (1 - 0)) (XR (1 - 0)) (XR 2)
      new_SdssShapeResult 1 (XR (1 / 100000)) (XR (1 / 10000)) false unwritten
      = (Ret false, s) /\
    Result.flags s MAXITER = true /\
    Result.flags s UNWEIGHTED = false /\
    Result.flags s UNWEIGHTED_BAD = true.
Proof.
  destruct ringed_loop as (v & Hv & Hiter & Hinterp & Hsums & Hbbox & Hflags).
  destruct v as [it i0 sm sg ww ol ip bb sh]; cbn in Hiter, Hsums, Hinterp, Hbbox, Hflags.
  subst it sm ip bb.
  destruct ringed_weights as [[Ha Ha'] [Hb0 Hb1]].
  set (a := exp (- (1 / 3))) in *. set (b := exp (- (2 / 3))) in *.
  unfold getAdaptiveMoments. cbn [isnan exact orb].
  rewrite Hv.
  unfold after_loop, raise_flag, with_shape.
  cbn [iter I0 sums sigmaW w olds interpflag bbox shape Z.eqb Pos.eqb
       lift_moments sumxx sumyy].
  xsimpl.
  unfold unweighted_moments.
  cbn [iter I0 sums sigmaW w olds interpflag bbox shape
       Result.flags Result.set_flag Flag_eqb of_int exact].
  change (calcmom ringed_3x3) with (calcmom (real_image 3 3 0 0 ringed_value None)).
  rewrite exact_calcmom;
    [| apply exact_invalid_weights; try lra; rewrite Rabs_R0; lra
     | apply inside_image; cbn; lia].
  cbv zeta. rewrite ringed_flat_moments.
  cbn [psums status pI0 lift_moments sum sumx sumy sumxx sumxy sumyy negb andb orb].
  rtest. cbn [andb orb Z.ltb Z.compare]. xsimpl. cbn [andb orb].
  eexists. split; [reflexivity |].
  cbn. repeat split.
Qed.

(** The same measurement through the driver. *)
Lemma ringed_measurement :
  exists result,
    computeAdaptiveMoments ringed_3x3 (XR 1) (XR 1) false one_pass_control unwritten
      = Ret result /\
    Result.flags result MAXITER = true /\
    Result.flags result UNWEIGHTED = false /\
    Result.flags result UNWEIGHTED_BAD = true /\
    Result.flags result FAILURE = true.
Proof.
  destruct ringed_engine as (s & Hs & HM & HU & HB).
  unfold computeAdaptiveMoments.
  cbn [one_pass_control background maxIter maxShift tol1 tol2 to_float exact_libm
       ringed_3x3 real_image getX0 getY0].
  xsimpl. fold ringed_3x3. rewrite Hs.
  cbn [negb Result.get Result.set Result.set_flag Result.value Result.flags
       Result.member_eqb Flag_eqb].
  rewrite HU. cbn [orb].
  destruct (Result.flags s SHIFT);
    cbn [negb Result.get Result.set Result.set_flag Result.value Result.flags
         Result.member_eqb Flag_eqb];
    (match goal with |- context [if ?c && false then _ else _] =>
       replace (c && false) with false by (destruct c; reflexivity) end);
    (eexists; split; [reflexivity |]);
    cbn [hasVariance ringed_3x3 real_image variance Result.flags Result.set
         Result.set_flag Flag_eqb];
    auto.
Qed.

(** C5, the counter-example.  With one pass allowed, the loop over the
    ring ends on [iter = maxIter] with no flag raised by the pass; the
    tests after the loop set [UNWEIGHTED] and [MAXITER], the unweighted
    moments fail, and the engine and the driver return results in which
    [MAXITER] is set and [UNWEIGHTED] is not. *)
Lemma max_iterations_unweighted_cleared :
  exists v s result,
    loop_exit ringed_3x3 (XR 0) (XR (1 - 0)) (XR (1 - 0)) (XR 2) new_SdssShapeResult
      1 (XR (1 / 100000)) (XR (1 / 10000)) false unwritten = Break v /\
    iter v = 1%Z /\
    Result.flags (shape v) UNWEIGHTED = false /\
    getAdaptiveMoments ringed_3x3 (XR 0) (XR (1 - 0)) (XR (1 - 0)) (XR 2)
      new_SdssShapeResult 1 (XR (1 / 100000)) (XR (1 / 10000)) false unwritten
      = (Ret false, s) /\
    Result.flags s MAXITER = true /\
    Result.flags s UNWEIGHTED = false /\
    computeAdaptiveMoments ringed_3x3 (XR 1) (XR 1) false one_pass_control unwritten
      = Ret result /\
    Result.flags result MAXITER = true /\
    Result.flags result UNWEIGHTED = false.
Proof.
  destruct ringed_loop as (v & Hv & Hiter & _ & _ & _ & Hflags).
  destruct ringed_engine as (s & Hs & HM & HU & _).
  destruct ringed_measurement as (result & Hr & HM' & HU' & _).
  exists v, s, result. repeat split; auto.
Qed.

(** C5, a use of the theorem: the ring with one pass allowed. *)
Lemma max_iterations_flags_witness :
  exists v,
    loop_exit ringed_3x3 (XR 0) (XR (1 - 0)) (XR (1 - 0)) (XR 2) new_SdssShapeResult
      1 (XR (1 / 100000)) (XR (1 / 10000)) false unwritten = Break v /\
    iter v = 1%Z /\
    Result.flags (shape (after_loop 1 v)) UNWEIGHTED = true /\
    Result.flags (shape (after_loop 1 v)) MAXITER = true.
Proof.
  destruct ringed_loop as (v & Hv & Hiter & _).
  exists v. split; [exact Hv |]. split; [exact Hiter |].
  exact (proj1 (max_iterations_flags ringed_3x3 (XR 0) (XR (1 - 0)) (XR (1 - 0)) (XR 2)
                  new_SdssShapeResult 1 (XR (1 / 100000)) (XR (1 / 10000)) false
                  unwritten v eq_refl Hv Hiter)).
Defined.

(** C4, the counter-example.  On the dark pixel the first pass raises
    [UNWEIGHTED] and breaks; the unweighted moments fail too, and the
    result comes back with [UNWEIGHTED] cleared. *)
Lemma unweighted_flag_is_cleared :
  exists v result,
    loop_exit dark_pixel (XR 0) (XR (0 - 0)) (XR (0 - 0)) (XR 2) new_SdssShapeResult
      100 (XR (1 / 100000)) (XR (1 / 10000)) false unwritten = Break v /\
    Result.flags (shape v) UNWEIGHTED = true /\
    computeAdaptiveMoments dark_pixel (XR 0) (XR 0) false default_control unwritten
      = Ret result /\
    Result.flags result UNWEIGHTED = false /\
    Result.flags result UNWEIGHTED_BAD = true.
Proof.
  destruct dark_loop as (v & Hv & _ & _ & _ & _ & Hshape).
  destruct dark_measurement as (result & Hr & HU & HB & _).
  exists v, result. rewrite Hshape. repeat split; auto.
Qed.

(** ** The fuel of the loop *)

Section FuelFacts.
Context {F : Type} `{Arith F} `{Libm F} `{Extern F}.
Local Open Scope fl_scope.

Variables (mimage : Image F) (bkgd xcen ycen shiftmax tol1 tol2 : F) (negative : bool).

Lemma update_next (v v' : @Locals F) (status : Z) :
  update xcen ycen shiftmax tol1 tol2 v status = Next v' ->
  iter v' = iter v /\ interpflag v' = interpflag v.
Proof.
  unfold update.
  repeat break_match; intros E; try discriminate; injection E as <-; auto.
Qed.

(** A pass that goes on leaves [iter] alone, or has just turned
    interpolation on and taken [iter] one back. *)
Lemma body_next (v v' : @Locals F) :
  body mimage bkgd xcen ycen shiftmax tol1 tol2 negative v = Next v' ->
  (iter v' = iter v /\ (interpflag v = true -> interpflag v' = true)) \/
  (iter v' = (iter v - 1)%Z /\ interpflag v = false /\ interpflag v' = true).
Proof.
  unfold body.
  repeat break_match; intros E; try discriminate;
    apply update_next in E; cbn [iter interpflag] in E; destruct E as [Ei Ef];
    rewrite Ei, Ef;
    repeat match goal with
           | Hc : _ && _ = true |- _ => apply andb_true_iff in Hc; destruct Hc
           | Hc : negb _ = true |- _ => apply negb_true_iff in Hc
           end;
    try (left; split; [reflexivity | intros ->; reflexivity]);
    right; repeat split; auto;
    match goal with Hs : shouldInterp _ _ _ = true |- _ => rewrite Hs end;
    apply orb_true_r.
Qed.

(** The fuel is enough: the loop hangs only when a pass does. *)
Lemma loop_fuel (fuel : nat) (maxIter : Z) (v : @Locals F) :
  (passes_left maxIter v <= fuel)%nat ->
  loop mimage bkgd xcen ycen shiftmax tol1 tol2 negative fuel maxIter v = Hang ->
  exists v', body mimage bkgd xcen ycen shiftmax tol1 tol2 negative v' = Hang.
Proof.
  revert v; induction fuel as [| fuel IH]; intros v Hm; cbn [loop];
    destruct (iter v <? maxIter)%Z eqn:Hlt; try discriminate.
  - apply Z.ltb_lt in Hlt. unfold passes_left in Hm. lia.
  - apply Z.ltb_lt in Hlt.
    destruct (body mimage bkgd xcen ycen shiftmax tol1 tol2 negative v) as [v' | | | |] eqn:Hb;
      try discriminate.
    + apply IH. unfold passes_left in *. cbn [iter interpflag].
      destruct (body_next v v' Hb) as [[Ei Ef] | (Ei & Ef & Ef')].
      * rewrite Ei. destruct (interpflag v).
        -- rewrite Ef by reflexivity. lia.
        -- destruct (interpflag v'); lia.
      * rewrite Ei, Ef'. rewrite Ef in Hm. lia.
    + intros _. now exists v.
Qed.
End FuelFacts.

(** [getAdaptiveMoments] runs its loop with fuel for [maxIter + 1] passes;
    from the entry that is enough: the loop is left, unless a pass of
    its own does not end. *)
Lemma loop_exit_fuel {F : Type} `{Arith F} `{Libm F} `{Extern F}
    (mimage : Image F) (bkgd xcen ycen shiftmax : F) (shape0 : Result.t F)
    (maxIter : Z) (tol1 tol2 : F) (negative : bool) (indeterminate : Moments F) :
  loop_exit mimage bkgd xcen ycen shiftmax shape0 maxIter tol1 tol2 negative indeterminate
    <> Hang \/
  exists v', body mimage bkgd xcen ycen shiftmax (to_float tol1) (to_float tol2)
               negative v' = Hang.
Proof.
  destruct (loop_exit mimage bkgd xcen ycen shiftmax shape0 maxIter tol1 tol2 negative
              indeterminate) eqn:E; try (left; discriminate).
  right. revert E. unfold loop_exit. apply loop_fuel.
  unfold passes_left, entry. cbn [iter interpflag]. lia.
Qed.

(** ** The Fisher matrix in closed form *)

(** In exact arithmetic, with the determinant [D] of the moments above
    the double epsilon and a positive variance [v], [calc_fisher] returns
    a matrix of determinant [F^4 A^6 / (256 D^3)], [F = pi sqrt(D) / v]:
    it is singular exactly when the amplitude [A] is 0. *)
Theorem fisher_determinant (s : Result.t xreal) (A s11 s12 s22 v : R) :
  s.[Result.instFlux] = XR A -> s.[Result.xx] = XR s11 ->
  s.[Result.xy] = XR s12 -> s.[Result.yy] = XR s22 ->
  (1 / 4503599627370496 < s11 * s22 - s12 * s12)%R -> (0 < v)%R ->
  exists fisher,
    calc_fisher s (XR v) = Ret fisher /\
    det4 fisher =
      XR ((PI * sqrt (s11 * s22 - s12 * s12) / v) ^ 4 * A ^ 6
          / (256 * (s11 * s22 - s12 * s12) ^ 3)).
Proof.
  exact (exact_fisher_det s A s11 s12 s22 v).
Qed.

(** The determinant at the shape with amplitude 0: the Fisher matrix of
    [flat_shape] is singular. *)
Lemma fisher_determinant_witness :
  exists fisher,
    calc_fisher flat_shape (XR 1) = Ret fisher /\
    det4 fisher = XR ((PI * sqrt (1 * 1 - 0 * 0) / 1) ^ 4 * 0 ^ 6
                      / (256 * (1 * 1 - 0 * 0) ^ 3)).
Proof.
  apply (fisher_determinant flat_shape 0 1 0 1 1).
  - reflexivity.
  - reflexivity.
  - reflexivity.
  - reflexivity.
  - lra.
  - lra.
Defined.

(** * Further properties of the code *)

(** ** Which flags the engine touches *)

Ltac frame_leaf k :=
  unfold locals_of, raise_flag, with_shape in *; cbn in *;
  try solve [auto | discriminate
            | match goal with E : Some _ = Some _ |- _ => injection E as <- end;
              cbn in *; destruct k; cbn in *; auto; congruence ].

Section FlagFrame.
Context {F : Type} `{Arith F} `{Libm F} `{Extern F}.
Local Open Scope fl_scope.

Variables (mimage : Image F) (bkgd xcen ycen shiftmax tol1 tol2 : F) (negative : bool).

(** The second half of a pass writes no flag but [UNWEIGHTED] and
    [SHIFT]. *)
Lemma update_frame (k : Flag) (v v' : @Locals F) (status : Z) :
  k <> UNWEIGHTED -> k <> SHIFT ->
  locals_of (update xcen ycen shiftmax tol1 tol2 v status) = Some v' ->
  Result.flags (shape v') k = Result.flags (shape v) k.
Proof.
  intros HU HS. unfold update.
  repeat break_match; intros E; frame_leaf k.
Qed.

Lemma body_frame (k : Flag) (v v' : @Locals F) :
  k <> UNWEIGHTED -> k <> SHIFT ->
  locals_of (body mimage bkgd xcen ycen shiftmax tol1 tol2 negative v) = Some v' ->
  Result.flags (shape v') k = Result.flags (shape v) k.
Proof.
  intros HU HS. unfold body.
  repeat break_match; try solve [intros E; frame_leaf k].
  all: intros E; apply (update_frame k _ _ _ HU HS) in E; exact E.
Qed.

Lemma loop_frame (k : Flag) (fuel : nat) (maxIter : Z) (v v' : @Locals F) :
  k <> UNWEIGHTED -> k <> SHIFT ->
  locals_of (loop mimage bkgd xcen ycen shiftmax tol1 tol2 negative fuel maxIter v)
    = Some v' ->
  Result.flags (shape v') k = Result.flags (shape v) k.
Proof.
  intros HU HS. revert v; induction fuel as [| fuel IH]; intros v; cbn [loop].
  - destruct (iter v <? maxIter)%Z; intros E; frame_leaf k.
  - destruct (iter v <? maxIter)%Z; [| intros E; frame_leaf k].
    pose proof (body_frame k v) as Hb.
    destruct (body mimage bkgd xcen ycen shiftmax tol1 tol2 negative v) as [v1 | v1 | b v1 | e v1 |].
    + intros E. apply IH in E. cbn [shape] in E. rewrite E.
      apply Hb; auto.
    + intros E. apply Hb; auto.
    + intros E. apply Hb; auto.
    + intros E. apply Hb; auto.
    + discriminate.
Qed.

(** The tests after the loop raise [MAXITER] only together with
    [UNWEIGHTED], and touch nothing else. *)
Lemma after_loop_frame (maxIter : Z) (v : @Locals F) :
  (forall k, k <> UNWEIGHTED -> k <> MAXITER ->
     Result.flags (shape (after_loop maxIter v)) k = Result.flags (shape v) k) /\
  (Result.flags (shape v) MAXITER = false ->
   Result.flags (shape (after_loop maxIter v)) MAXITER = true ->
   Result.flags (shape (after_loop maxIter v)) UNWEIGHTED = true).
Proof.
  unfold after_loop. split.
  - intros k HU HM. repeat break_match; unfold raise_flag, with_shape; cbn;
      destruct k; cbn; auto; congruence.
  - repeat break_match; unfold raise_flag, with_shape; cbn; congruence.
Qed.
End FlagFrame.

Section FlagCases.
Context {F : Type} `{Arith F} `{Libm F} `{Extern F}.
Local Open Scope fl_scope.

(** The flags [getAdaptiveMoments] leaves in a result that had none:
    never [PSF_SHAPE_BAD] or [FAILURE]; [UNWEIGHTED_BAD] only when it
    returns false, and then without [UNWEIGHTED]; [MAXITER] only with
    [UNWEIGHTED], unless it returns false. *)
Lemma getAdaptiveMoments_fresh_flags (mimage : Image F) (bkgd xcen ycen shiftmax : F)
    (shape0 : Result.t F) (maxIter : Z) (tol1 tol2 : F) (negative : bool)
    (indeterminate : Moments F) (o : outcome bool) (s : Result.t F) :
  (forall k, Result.flags shape0 k = false) ->
  getAdaptiveMoments mimage bkgd xcen ycen shiftmax shape0 maxIter tol1 tol2 negative
    indeterminate = (o, s) ->
  Result.flags s PSF_SHAPE_BAD = false /\
  Result.flags s FAILURE = false /\
  (Result.flags s UNWEIGHTED_BAD = true ->
   o = Ret false /\ Result.flags s UNWEIGHTED = false) /\
  (Result.flags s MAXITER = true ->
   Result.flags s UNWEIGHTED = true \/ o = Ret false).
Proof.
  intros H0' . unfold getAdaptiveMoments.
  destruct (isnan xcen || isnan ycen).
  { intros E; injection E as <- <-. cbn. rewrite !H0'. repeat split; auto; discriminate. }
  unfold loop_exit.
  set (tl1 := to_float tol1). set (tl2 := to_float tol2).
  set (fuel := S (Z.to_nat maxIter)).
  assert (Hloop : forall k v',
            k <> UNWEIGHTED -> k <> SHIFT ->
            locals_of (loop mimage bkgd xcen ycen shiftmax tl1 tl2 negative fuel maxIter
                         (entry shape0 indeterminate)) = Some v' ->
            Result.flags (shape v') k = false).
  { intros k v' HU HS E.
    rewrite (loop_frame mimage bkgd xcen ycen shiftmax tl1 tl2 negative k fuel maxIter
               _ v' HU HS E).
    apply H0'. }
  assert (Hplain : forall v' (q : outcome bool),
            locals_of (loop mimage bkgd xcen ycen shiftmax tl1 tl2 negative fuel maxIter
                         (entry shape0 indeterminate)) = Some v' ->
            (q, shape v') = (o, s) ->
            Result.flags s PSF_SHAPE_BAD = false /\
            Result.flags s FAILURE = false /\
            (Result.flags s UNWEIGHTED_BAD = true ->
             o = Ret false /\ Result.flags s UNWEIGHTED = false) /\
            (Result.flags s MAXITER = true ->
             Result.flags s UNWEIGHTED = true \/ o = Ret false)).
  { intros v' q E Eq; injection Eq as <- <-.
    rewrite (Hloop PSF_SHAPE_BAD v'), (Hloop FAILURE v'), (Hloop UNWEIGHTED_BAD v'),
      (Hloop MAXITER v') by (auto; discriminate).
    repeat split; discriminate. }
  assert (Hafter : forall v',
            locals_of (loop mimage bkgd xcen ycen shiftmax tl1 tl2 negative fuel maxIter
                         (entry shape0 indeterminate)) = Some v' ->
            match unweighted_moments mimage bkgd xcen ycen negative (after_loop maxIter v') with
            | Hang => (Diverge, shape0)
            | Raise e v => (Throw e, shape v)
            | Return b v => (Ret b, shape v)
            | Next v | Break v => finish mimage xcen ycen v
            end = (o, s) ->
            Result.flags s PSF_SHAPE_BAD = false /\
            Result.flags s FAILURE = false /\
            (Result.flags s UNWEIGHTED_BAD = true ->
             o = Ret false /\ Result.flags s UNWEIGHTED = false) /\
            (Result.flags s MAXITER = true ->
             Result.flags s UNWEIGHTED = true \/ o = Ret false)).
  { intros v' E.
    destruct (after_loop_frame maxIter v') as [Hsame Hmax].
    assert (HP : Result.flags (shape (after_loop maxIter v')) PSF_SHAPE_BAD = false)
      by (rewrite Hsame by discriminate; apply (Hloop _ v'); auto; discriminate).
    assert (HF : Result.flags (shape (after_loop maxIter v')) FAILURE = false)
      by (rewrite Hsame by discriminate; apply (Hloop _ v'); auto; discriminate).
    assert (HB : Result.flags (shape (after_loop maxIter v')) UNWEIGHTED_BAD = false)
      by (rewrite Hsame by discriminate; apply (Hloop _ v'); auto; discriminate).
    assert (HM : Result.flags (shape (after_loop maxIter v')) MAXITER = true ->
                 Result.flags (shape (after_loop maxIter v')) UNWEIGHTED = true)
      by (apply Hmax; apply (Hloop _ v'); auto; discriminate).
    pose proof (unweighted_moments_flags mimage bkgd xcen ycen negative
                  (after_loop maxIter v')) as Hu.
    destruct (unweighted_moments mimage bkgd xcen ycen negative (after_loop maxIter v'))
      as [v2 | v2 | b v2 | e v2 |].
    - intros Eq.
      assert (Es : s = snd (finish mimage xcen ycen v2)) by (rewrite Eq; reflexivity).
      subst s. rewrite !finish_flags, !Hu, HP, HF, HB.
      repeat split; try discriminate. intros HM'. left. auto.
    - contradiction.
    - intros Eq; injection Eq as <- <-. destruct Hu as (-> & HU & Hk).
      rewrite !Hk, HP, HF. repeat split; auto.
    - intros Eq; injection Eq as <- <-. rewrite !Hu, HP, HF, HB.
      repeat split; try discriminate. intros HM'. left. auto.
    - intros Eq; injection Eq as <- <-. rewrite !H0'. repeat split; discriminate. }
  destruct (loop mimage bkgd xcen ycen shiftmax tl1 tl2 negative fuel maxIter
              (entry shape0 indeterminate)) as [v1 | v1 | b v1 | e v1 |] eqn:El.
  - apply Hafter. reflexivity.
  - apply Hafter. reflexivity.
  - apply (Hplain v1). reflexivity.
  - apply (Hplain v1). reflexivity.
  - intros Eq; injection Eq as <- <-. rewrite !H0'. repeat split; discriminate.
Qed.

(** Every flag is a failure: in a result [computeAdaptiveMoments]
    returns, a flag that is set comes with the umbrella flag [FAILURE];
    [PSF_SHAPE_BAD] is never set there, and [UNWEIGHTED] and
    [UNWEIGHTED_BAD] are never set together. *)
Theorem every_flag_is_failure (image : Image F) (center_x center_y : F)
    (negative : bool) (control : Control F) (indeterminate : Moments F)
    (result : Result.t F) :
  computeAdaptiveMoments image center_x center_y negative control indeterminate
    = Ret result ->
  (forall k, Result.flags result k = true -> Result.flags result FAILURE = true) /\
  Result.flags result PSF_SHAPE_BAD = false /\
  Result.flags result UNWEIGHTED && Result.flags result UNWEIGHTED_BAD = false.
Proof.
  intros Hr.
  destruct (computeAdaptiveMoments_flags _ _ _ _ _ _ _ Hr)
    as (o & s & shiftmax & Hg & _ & Hk & Hfail).
  assert (Hnone : forall k, Result.flags (@new_SdssShapeResult F _) k = false)
    by reflexivity.
  destruct (getAdaptiveMoments_fresh_flags _ _ _ _ _ _ _ _ _ _ _ _ _ Hnone Hg)
    as (HP & _ & HB & HM).
  split; [| split].
  - intros k Hset. rewrite Hfail.
    destruct k; try (rewrite Hk in Hset by discriminate).
    + rewrite <- Hfail. exact Hset.
    + destruct (HB Hset) as [-> _]. reflexivity.
    + rewrite Hset. apply orb_true_iff. left. apply orb_true_r.
    + rewrite Hset. apply orb_true_r.
    + destruct (HM Hset) as [HU | ->]; [rewrite HU; apply orb_true_iff; left;
                                        apply orb_true_r | reflexivity].
    + congruence.
  - rewrite Hk by discriminate. exact HP.
  - rewrite !Hk by discriminate.
    destruct (Result.flags s UNWEIGHTED_BAD) eqn:EB.
    + destruct (HB eq_refl) as [_ ->]. reflexivity.
    + apply andb_false_r.
Qed.

(** [computeAdaptiveMoments] throws nothing but [LogicError]: whatever
    [getAdaptiveMoments] throws is caught and becomes the failure flag. *)
Theorem computeAdaptiveMoments_throws_LogicError_only (image : Image F)
    (center_x center_y : F) (negative : bool) (control : Control F)
    (indeterminate : Moments F) :
  match computeAdaptiveMoments image center_x center_y negative control indeterminate with
  | Throw e => e = LogicError
  | _ => True
  end.
Proof.
  unfold computeAdaptiveMoments.
  match goal with |- context [getAdaptiveMoments ?a ?b ?c ?d ?e ?f ?g ?h ?i ?j ?k] =>
    destruct (getAdaptiveMoments a b c d e f g h i j k) as [o s]
  end.
  destruct o as [b | e |]; cbn; [| | exact I];
    repeat match goal with
           | |- context [if ?c then _ else _] => destruct c; cbn
           end; auto.
Qed.

(** A result that comes back without the failure flag has regular
    moments: the test [Ixx Iyy < (1 + 1e-6) Ixy^2] is false on it. *)
Theorem no_failure_regular_moments (image : Image F) (center_x center_y : F)
    (negative : bool) (control : Control F) (indeterminate : Moments F) :
  match computeAdaptiveMoments image center_x center_y negative control indeterminate with
  | Ret result =>
      Result.flags result FAILURE = true \/
      (result.[Result.xx] * result.[Result.yy]
       <? (of_int 1 + lit 1 1000000) * (result.[Result.xy] * result.[Result.xy])) = false
  | _ => True
  end.
Proof.
  unfold computeAdaptiveMoments.
  match goal with |- context [getAdaptiveMoments ?a ?b ?c ?d ?e ?f ?g ?h ?i ?j ?k] =>
    destruct (getAdaptiveMoments a b c d e f g h i j k) as [o s]
  end.
  destruct o as [b | e |]; [| | exact I]; cbv zeta;
    (match goal with
     | |- context [if ?c && negb (Result.flags ?r FAILURE) then _ else _] =>
         destruct c eqn:Ec; destruct (Result.flags r FAILURE) eqn:EF
     end);
    cbn [andb negb]; try exact I;
    destruct (hasVariance image);
    cbn [Result.get Result.set Result.value Result.flags Result.member_eqb];
    auto.
Qed.
End FlagCases.

(** A measurement that ran out of passes: [MAXITER] comes with
    [FAILURE]. *)
Lemma every_flag_is_failure_witness :
  exists result,
    computeAdaptiveMoments ringed_3x3 (XR 1) (XR 1) false one_pass_control unwritten
      = Ret result /\
    Result.flags result MAXITER = true /\
    Result.flags result FAILURE = true.
Proof.
  destruct ringed_measurement as (result & Hr & HM & _).
  exists result. split; [exact Hr |]. split; [exact HM |].
  exact (proj1 (every_flag_is_failure ringed_3x3 (XR 1) (XR 1) false one_pass_control
                  unwritten result Hr) MAXITER HM).
Defined.

Section NaNCentre.
Context {F : Type} `{Arith F} `{Libm F} `{Extern F}.
Local Open Scope fl_scope.

(** A centre that is NaN in the frame of the image: no pixel is read,
    nothing is thrown, and the result comes back with [FAILURE] and
    [UNWEIGHTED_BAD] as its only flags and with the moments and their
    errors still at the NaN the constructor left. *)
Theorem computeAdaptiveMoments_nan_centre (image : Image F) (center_x center_y : F)
    (negative : bool) (control : Control F) (indeterminate : Moments F) :
  isnan (center_x - of_int (getX0 image)) || isnan (center_y - of_int (getY0 image))
    = true ->
  exists result,
    computeAdaptiveMoments image center_x center_y negative control indeterminate
      = Ret result /\
    (forall k, Result.flags result k =
               match k with FAILURE | UNWEIGHTED_BAD => true | _ => false end) /\
    result.[Result.xx] = NaN /\ result.[Result.yy] = NaN /\ result.[Result.xy] = NaN /\
    result.[Result.xxErr] = NaN /\ result.[Result.yyErr] = NaN /\
    result.[Result.xyErr] = NaN.
Proof.
  intros Hnan. unfold computeAdaptiveMoments, getAdaptiveMoments.
  rewrite Hnan. cbv zeta.
  cbn [negb Result.get Result.set Result.set_flag Result.value Result.flags
       Result.member_eqb Flag_eqb new_SdssShapeResult orb].
  rewrite andb_false_r.
  destruct (hasVariance image); eexists; (split; [reflexivity |]);
    cbn [Result.get Result.set Result.set_flag Result.value Result.flags
         Result.member_eqb Flag_eqb new_SdssShapeResult];
    (split; [intros k; destruct k; reflexivity | repeat split]).
Qed.
End NaNCentre.

(** The dark pixel measured at a NaN column. *)
Lemma computeAdaptiveMoments_nan_centre_witness :
  exists result,
    computeAdaptiveMoments dark_pixel XNaN (XR 0) false default_control unwritten
      = Ret result /\
    Result.flags result FAILURE = true /\ Result.flags result UNWEIGHTED_BAD = true /\
    result.[Result.xx] = XNaN.
Proof.
  assert (Hnan : isnan (fsub XNaN (of_int (getX0 dark_pixel)))
                 || isnan (fsub (XR 0) (of_int (getY0 dark_pixel))) = true)
    by reflexivity.
  destruct (computeAdaptiveMoments_nan_centre dark_pixel XNaN (XR 0) false
              default_control unwritten Hnan)
    as (result & Hr & Hk & Hxx & _).
  exists result. split; [exact Hr |].
  split; [apply (Hk FAILURE) |]. split; [apply (Hk UNWEIGHTED_BAD) | exact Hxx].
Defined.

(** ** The loops end *)

Section LoopsReturn.
Context {F : Type} `{Arith F} `{Libm F}.
Local Open Scope fl_scope.

(** A [for] loop over integers whose body always returns. *)
Lemma for_each_returns (A : Type) (ks : list Z) (body : Z -> A -> outcome A) (acc : A) :
  (forall k a, exists a', body k a = Ret a') ->
  exists a', for_each ks body acc = Ret a'.
Proof.
  intros Hbody. revert acc; induction ks as [| k ks IH]; intros acc; cbn [for_each].
  - now exists acc.
  - destruct (Hbody k acc) as [a' ->]. cbn [bind]. apply IH.
Qed.
End LoopsReturn.

(** In exact arithmetic the loop [for (X = lo; X <= hi; X += 0.25)]
    ends within its fuel when [hi - lo] is less than a quarter of it. *)
Lemma subgrid_returns (A : Type) (fuel : nat) (X hi : xreal)
    (body : xreal -> A -> outcome A) (acc : A) :
  (forall Y a, exists a', body Y a = Ret a') ->
  match X, hi with
  | XR a, XR b => (b - a < INR fuel / 4)%R
  | _, _ => True
  end ->
  exists a', subgrid fuel X hi body acc = Ret a'.
Proof.
  intros Hbody. revert X acc; induction fuel as [| fuel IH]; intros X acc Hlen.
  - cbn [subgrid].
    destruct X as [| a]; destruct hi as [| b]; cbn; try (now exists acc).
    cbn in Hlen. rewrite Rleb_false by lra. now exists acc.
  - cbn [subgrid].
    destruct X as [| a]; destruct hi as [| b]; cbn [fle exact xcmp];
      try (now exists acc).
    destruct (Rleb a b) eqn:Hab; [| now exists acc].
    destruct (Hbody (XR a) acc) as [a' ->]. cbn [bind].
    apply IH. rewrite exact_lit by rneq. cbn.
    rewrite S_INR in Hlen. lra.
Qed.

(** One pixel of [calcmom] always returns, in exact arithmetic. *)
Lemma exact_pixel_step_returns (image : Image xreal) (xcen ycen bkgd : xreal)
    (interpflag : bool) (w11 w12 w22 : xreal) (i j : Z) (m : Moments xreal) :
  exists m', pixel_step image xcen ycen bkgd interpflag w11 w12 w22 i j m = Ret m'.
Proof.
  unfold pixel_step. rewrite !exact_lit by rneq.
  destruct interpflag.
  - match goal with |- context [if ?c then _ else _] => destruct c end;
      [| now exists m].
    apply subgrid_returns.
    + intros Y a. apply subgrid_returns.
      * intros X a0. unfold subpixel. eexists; reflexivity.
      * destruct xcen as [| c]; cbn; auto. unfold subgrid_fuel. cbn. lra.
    + destruct ycen as [| c]; cbn; auto. unfold subgrid_fuel. cbn. lra.
  - match goal with |- context [if ?c then _ else _] => destruct c end;
      eexists; reflexivity.
Qed.

Lemma exact_flux_pixel_returns (image : Image xreal) (xcen ycen bkgd : xreal)
    (interpflag : bool) (w11 w12 w22 : xreal) (i j : Z) (s : xreal) :
  exists s', flux_pixel image xcen ycen bkgd interpflag w11 w12 w22 i j s = Ret s'.
Proof.
  unfold flux_pixel. rewrite !exact_lit by rneq.
  destruct interpflag.
  - match goal with |- context [if ?c then _ else _] => destruct c end;
      [| now exists s].
    apply subgrid_returns.
    + intros Y a. apply subgrid_returns.
      * intros X a0. unfold flux_subpixel. eexists; reflexivity.
      * destruct xcen as [| c]; cbn; auto. unfold subgrid_fuel. cbn. lra.
    + destruct ycen as [| c]; cbn; auto. unfold subgrid_fuel. cbn. lra.
  - match goal with |- context [if ?c then _ else _] => destruct c end;
      eexists; reflexivity.
Qed.

(** With weights within bounds and a box inside the image both variants
    of [calcmom] return, in exact arithmetic. *)
Lemma exact_calcmom_ends (image : Image xreal) (xcen ycen : xreal)
    (bbox : geom.Box2I) (bkgd : xreal) (interpflag : bool) (w11 w12 w22 : xreal)
    (negative : bool) :
  invalid_weights w11 w12 w22 = false ->
  outside_image image bbox = false ->
  (exists r, calcmom image xcen ycen bbox bkgd interpflag w11 w12 w22 negative = Ret r) /\
  (exists s, calcmom_flux image xcen ycen bbox bkgd interpflag w11 w12 w22 = Ret s).
Proof.
  intros Hw Hin. unfold calcmom, calcmom_flux. rewrite Hw, Hin. split.
  - match goal with |- context [for_each ?ks ?f ?a] =>
      destruct (for_each_returns _ ks f a) as [m ->]
    end.
    + intros i m. apply for_each_returns. intros j m'.
      apply exact_pixel_step_returns.
    + cbn [bind]. eexists; reflexivity.
  - apply for_each_returns. intros i s. apply for_each_returns. intros j s'.
    apply exact_flux_pixel_returns.
Qed.

(** ** The box stays inside the image *)

(** A box made from corners is the default empty box or has positive
    sides. *)
Lemma fromCorners_cases (x0 y0 x1 y1 : Z) :
  proper_box (geom.fromCorners x0 y0 x1 y1).
Proof.
  unfold proper_box, geom.fromCorners.
  destruct (x1 <? x0)%Z eqn:Ex; [now left |].
  destruct (y1 <? y0)%Z eqn:Ey; [now left |].
  right. apply Z.ltb_ge in Ex, Ey. cbn. lia.
Qed.

(** Clipped to the box of an image, such a box passes the test of
    [calcmom]. *)
Lemma clip_inside (F : Type) (image : Image F) (b : geom.Box2I) :
  (0 <= getWidth image)%Z -> (0 <= getHeight image)%Z ->
  proper_box b ->
  outside_image image (geom.clip b (getBBox_LOCAL image)) = false.
Proof.
  intros HW HH Hb. apply inside_image.
  unfold geom.clip, getBBox_LOCAL.
  destruct Hb as [-> | [Hx Hy]]; [cbn; lia |].
  assert (E1 : geom.isEmpty b = false).
  { unfold geom.isEmpty. destruct (Z.eqb_spec (geom.dimensions_x b) 0); [lia | reflexivity]. }
  rewrite E1. clear E1.
  destruct (geom.isEmpty _); [cbn; lia |].
  unfold geom.getMinX, geom.getMinY, geom.getMaxX, geom.getMaxY.
  cbn [geom.minimum_x geom.minimum_y geom.dimensions_x geom.dimensions_y].
  unfold geom.fromCorners.
  destruct (_ || _) eqn:Eo; [cbn; lia |].
  apply orb_false_iff in Eo. destruct Eo as [Ex Ey].
  apply Z.ltb_ge in Ex, Ey. cbn. lia.
Qed.

Lemma clipped_empty (F : Type) (image : Image F) : clipped_to image geom.empty.
Proof.
  exists geom.empty. split; [now left | reflexivity].
Qed.

(** In exact arithmetic the box of [computeAdaptiveMomentsBBox] passes
    the test of [calcmom]; the conversion of the box throws only for a
    centre with a NaN row and a column that is a number. *)
Lemma exact_bbox_cases (image : Image xreal) (center_x center_y : xreal)
    (sigma11_w sigma12_w sigma22_w maxRadius : xreal) :
  match computeAdaptiveMomentsBBox (getBBox_LOCAL image) center_x center_y
          sigma11_w sigma12_w sigma22_w maxRadius with
  | Ret b => clipped_to image b
  | Throw e => e = InvalidParameterError /\ isnan center_x = false /\
               isnan center_y = true
  | Diverge => False
  end.
Proof.
  unfold computeAdaptiveMomentsBBox.
  generalize (fmin (of_int 4 * fsqrt (fmax sigma11_w sigma22_w))%fl maxRadius).
  intros radius.
  cbn [Box2I_of_Box2D exact_extern]. unfold exact_Box2I_of_Box2D.
  destruct center_x as [| a], center_y as [| b], radius as [| r];
    cbn [fsub fadd exact xlift2 xcmp orb];
    repeat match goal with
           | |- context [if ?c then _ else _] => destruct c
           end;
    cbn [bind isnan exact];
    try (repeat split; reflexivity);
    try apply clipped_empty;
    (eexists; split; [| reflexivity]; apply fromCorners_cases).
Qed.

(** For a centre of two numbers the box is always there. *)
Lemma exact_bbox_inside (image : Image xreal) (cx cy : R)
    (sigma11_w sigma12_w sigma22_w maxRadius : xreal) :
  exists b,
    computeAdaptiveMomentsBBox (getBBox_LOCAL image) (XR cx) (XR cy)
      sigma11_w sigma12_w sigma22_w maxRadius = Ret b /\
    clipped_to image b.
Proof.
  pose proof (exact_bbox_cases image (XR cx) (XR cy) sigma11_w sigma12_w sigma22_w
                maxRadius) as Hb.
  destruct (computeAdaptiveMomentsBBox _ _ _ _ _ _ _) as [b | e |].
  - now exists b.
  - destruct Hb as (_ & _ & Hn). discriminate.
  - contradiction.
Qed.

Lemma clipped_inside (F : Type) (image : Image F) (b : geom.Box2I) :
  (0 <= getWidth image)%Z -> (0 <= getHeight image)%Z ->
  clipped_to image b -> outside_image image b = false.
Proof.
  intros HW HH (b0 & Hb0 & ->). now apply clip_inside.
Qed.

(** ** The engine in exact arithmetic *)

(** A successful [getWeights] has seen three numbers with a determinant
    of at least epsilon. *)
Lemma getWeights_exact_success (a b c : xreal) :
  fst (get0 (getWeights a b c)) = true ->
  exists x y z,
    a = XR x /\ b = XR y /\ c = XR z /\ (1 / 8388608 <= x * z - y * y)%R.
Proof.
  unfold getWeights. rewrite exact_float_epsilon.
  destruct a as [| x]; destruct b as [| y]; destruct c as [| z]; cbn;
    try discriminate.
  destruct (Rltb (x * z - y * y) (1 / 8388608)) eqn:E; cbn; [discriminate |].
  intros _. exists x, y, z. repeat split.
  unfold Rltb in E. destruct (Rlt_dec _ _); [discriminate | lra].
Qed.

Section UpdateShape.
Context {F : Type} `{Arith F} `{Libm F} `{Extern F}.
Local Open Scope fl_scope.

(** The second half of a pass goes on or breaks, and keeps the box. *)
Lemma update_cases (xcen ycen shiftmax tol1 tol2 : F) (v : @Locals F) (status : Z) :
  exists v',
    (update xcen ycen shiftmax tol1 tol2 v status = Next v' \/
     update xcen ycen shiftmax tol1 tol2 v status = Break v') /\
    bbox v' = bbox v.
Proof.
  unfold update.
  repeat break_match; eexists;
    (split; [first [left; reflexivity | right; reflexivity] | reflexivity]).
Qed.
End UpdateShape.

(** A pass in exact arithmetic: it ends; it never takes the early
    [return false]; it throws only what the conversion of the box and
    the two tests of [calcmom] throw; and it leaves a box clipped to the
    image. *)
Lemma exact_body_cases (mimage : Image xreal) (bkgd xcen ycen shiftmax tol1 tol2 : xreal)
    (negative : bool) (v : @Locals xreal) :
  clipped_to mimage (bbox v) ->
  match body mimage bkgd xcen ycen shiftmax tol1 tol2 negative v with
  | Next v' | Break v' => clipped_to mimage (bbox v')
  | Raise e v' =>
      clipped_to mimage (bbox v') /\
      (e = InvalidParameterError \/
       (e = LengthError /\ outside_image mimage (bbox v') = true))
  | Return _ _ | Hang => False
  end.
Proof.
  intros Hbox. unfold body.
  destruct (sigmaW v) as [[s11 s12] s22].
  pose proof (exact_bbox_cases mimage xcen ycen s11 s12 s22 (of_int 1000)) as Hb'.
  destruct (computeAdaptiveMomentsBBox _ _ _ _ _ _ _) as [b' | e |];
    [| destruct Hb' as (-> & _); split; [exact Hbox | now left] | contradiction].
  destruct (fst (get0 (getWeights s11 s12 s22))) eqn:Eok; cbn [negb]; [| exact Hb'].
  destruct (getWeights_exact_success _ _ _ Eok) as (x & y & z & -> & -> & -> & Hdet).
  rewrite exact_float_epsilon. cbn [fmul fsub flt exact xlift2 xcmp].
  rewrite Rltb_false by lra.
  destruct (w v) as [[ow11 ow12] ow22]. destruct (olds v) as [[e1 e2] so].
  match goal with
  | |- context [calcmom mimage xcen ycen b' bkgd ?ip0 _ _ _ negative] =>
      generalize ip0; intros ip
  end.
  match goal with
  | |- context [if ?c then (ow11, ow12, ow22) else _] => destruct c
  end; cbv iota beta;
  match goal with
  | |- context [calcmom mimage xcen ycen b' bkgd ip ?a ?b ?c negative] =>
      destruct (invalid_weights a b c) eqn:Ew;
      [ unfold calcmom; rewrite Ew; cbn; auto
      | destruct (outside_image mimage b') eqn:Hin;
        [ unfold calcmom; rewrite Ew, Hin; cbn; auto
        | destruct (exact_calcmom_ends mimage xcen ycen b' bkgd ip a b c negative
                      Ew Hin) as [[r ->] _] ] ]
  end;
  cbn [status pI0 psums];
  match goal with |- context [update ?a ?b ?c ?d ?e ?v1 ?st] =>
    destruct (update_cases a b c d e v1 st) as (v' & [-> | ->] & Hu)
  end; rewrite Hu; exact Hb'.
Qed.

(** The loop in exact arithmetic: it is left, never by the early
    [return false]. *)
Lemma exact_loop_cases (mimage : Image xreal) (bkgd xcen ycen shiftmax tol1 tol2 : xreal)
    (negative : bool) (fuel : nat) (maxIter : Z) (v : @Locals xreal) :
  clipped_to mimage (bbox v) ->
  (passes_left maxIter v <= fuel)%nat ->
  match loop mimage bkgd xcen ycen shiftmax tol1 tol2 negative fuel maxIter v with
  | Next v' | Break v' => clipped_to mimage (bbox v')
  | Raise e v' =>
      clipped_to mimage (bbox v') /\
      (e = InvalidParameterError \/
       (e = LengthError /\ outside_image mimage (bbox v') = true))
  | Return _ _ | Hang => False
  end.
Proof.
  revert v; induction fuel as [| fuel IH]; intros v Hbox Hm; cbn [loop];
    destruct (iter v <? maxIter)%Z eqn:Hlt; try exact Hbox.
  - apply Z.ltb_lt in Hlt. unfold passes_left in Hm. lia.
  - apply Z.ltb_lt in Hlt.
    pose proof (exact_body_cases mimage bkgd xcen ycen shiftmax tol1 tol2 negative v
                  Hbox) as Hb.
    destruct (body mimage bkgd xcen ycen shiftmax tol1 tol2 negative v)
      as [v' | v' | b v' | e v' |] eqn:Eb; try exact Hb.
    apply IH; [exact Hb |].
    unfold passes_left in *. cbn [iter interpflag].
    destruct (body_next mimage bkgd xcen ycen shiftmax tol1 tol2 negative v v' Eb)
      as [[Ei Ef] | (Ei & Ef & Ef')].
    + rewrite Ei. destruct (interpflag v).
      * rewrite Ef by reflexivity. lia.
      * destruct (interpflag v'); lia.
    + rewrite Ei, Ef'. rewrite Ef in Hm. lia.
Qed.

(** The unweighted moments in exact arithmetic: the weights (0, 0, 0)
    pass the first test of [calcmom]. *)
Lemma exact_unweighted_cases (mimage : Image xreal) (bkgd xcen ycen : xreal)
    (negative : bool) (v : @Locals xreal) :
  clipped_to mimage (bbox v) ->
  match unweighted_moments mimage bkgd xcen ycen negative v with
  | Next _ => True
  | Return b v' => b = false /\ Result.flags (shape v') UNWEIGHTED_BAD = true
  | Raise e v' => e = LengthError /\ outside_image mimage (bbox v) = true
  | Break _ | Hang => False
  end.
Proof.
  intros Hbox.
  pose proof (unweighted_moments_flags mimage bkgd xcen ycen negative v) as Hu.
  revert Hu. unfold unweighted_moments.
  destruct (Result.flags (shape v) UNWEIGHTED); [| auto].
  cbv zeta.
  assert (Ew : invalid_weights (of_int 0) (of_int 0) (of_int 0) = false).
  { apply exact_invalid_weights; try lra. rewrite Rabs_R0; lra. }
  destruct (outside_image mimage (bbox v)) eqn:Hin.
  - unfold calcmom. rewrite Ew, Hin. cbn. auto.
  - destruct (exact_calcmom_ends mimage xcen ycen (bbox v) bkgd (interpflag v)
                (of_int 0) (of_int 0) (of_int 0) negative Ew Hin) as [[r ->] _].
    destruct (_ || _ || _); [| auto].
    intros (Hb & _ & Hk). split; [exact Hb |]. apply Hk.
Qed.

(** How [getAdaptiveMoments] can end in exact arithmetic, on an image of
    proper dimensions: it returns true; or it returns false, and then
    [UNWEIGHTED_BAD] is set (the early [return false] of the loop is
    never taken); or [calcmom] has thrown for weights out of bounds; or
    [calc_fisher] has thrown.  It never throws [LengthError], and it
    always ends. *)
Theorem exact_getAdaptiveMoments_outcomes (mimage : Image xreal)
    (bkgd xcen ycen shiftmax : xreal) (shape0 : Result.t xreal) (maxIter : Z)
    (tol1 tol2 : xreal) (negative : bool) (indeterminate : Moments xreal) :
  (0 <= getWidth mimage)%Z -> (0 <= getHeight mimage)%Z ->
  let res := getAdaptiveMoments mimage bkgd xcen ycen shiftmax shape0 maxIter tol1 tol2
               negative indeterminate in
  fst res = Ret true \/
  (fst res = Ret false /\ Result.flags (snd res) UNWEIGHTED_BAD = true) \/
  fst res = Throw InvalidParameterError \/
  fst res = Throw DomainError.
Proof.
  intros HW HH. cbv zeta. unfold getAdaptiveMoments.
  destruct (isnan xcen || isnan ycen); [right; left; split; reflexivity |].
  assert (Hl := exact_loop_cases mimage bkgd xcen ycen shiftmax (to_float tol1)
                  (to_float tol2) negative (S (Z.to_nat maxIter)) maxIter
                  (entry shape0 indeterminate) (clipped_empty xreal mimage)).
  unfold loop_exit.
  match type of Hl with ?P -> _ =>
    assert (Hm : P) by (unfold passes_left, entry; cbn [iter interpflag]; lia)
  end.
  specialize (Hl Hm). clear Hm.
  assert (Hafter : forall v, clipped_to mimage (bbox v) ->
            let res := match unweighted_moments mimage bkgd xcen ycen negative
                               (after_loop maxIter v) with
                       | Hang => (Diverge, shape0)
                       | Raise e v => (Throw e, shape v)
                       | Return b v => (Ret b, shape v)
                       | Next v | Break v => finish mimage xcen ycen v
                       end in
            fst res = Ret true \/
            (fst res = Ret false /\ Result.flags (snd res) UNWEIGHTED_BAD = true) \/
            fst res = Throw InvalidParameterError \/
            fst res = Throw DomainError).
  { intros v Hbox. cbv zeta.
    assert (Hbox' : clipped_to mimage (bbox (after_loop maxIter v))).
    { unfold after_loop, raise_flag, with_shape. repeat break_match; exact Hbox. }
    pose proof (exact_unweighted_cases mimage bkgd xcen ycen negative
                  (after_loop maxIter v) Hbox') as Hu.
    destruct (unweighted_moments mimage bkgd xcen ycen negative (after_loop maxIter v))
      as [v' | v' | b v' | e v' |]; try contradiction.
    - destruct (finish_outcome mimage xcen ycen v') as [-> | ->]; auto.
    - destruct Hu as [-> Hu]. right; left. split; [reflexivity | exact Hu].
    - destruct Hu as [_ Hu].
      rewrite (clipped_inside xreal mimage _ HW HH Hbox') in Hu. discriminate. }
  destruct (loop mimage bkgd xcen ycen shiftmax (to_float tol1) (to_float tol2) negative
              (S (Z.to_nat maxIter)) maxIter (entry shape0 indeterminate))
    as [v | v | b v | e v |]; try contradiction.
  - now apply Hafter.
  - now apply Hafter.
  - destruct Hl as [Hbox [-> | [_ Hout]]]; [auto |].
    rewrite (clipped_inside xreal mimage _ HW HH Hbox) in Hout. discriminate.
Qed.

(** The run on the ring ends by returning false. *)
Lemma exact_getAdaptiveMoments_outcomes_witness :
  let res := getAdaptiveMoments ringed_3x3 (XR 0) (XR (1 - 0)) (XR (1 - 0)) (XR 2)
               new_SdssShapeResult 1 (XR (1 / 100000)) (XR (1 / 10000)) false unwritten in
  fst res = Ret true \/
  (fst res = Ret false /\ Result.flags (snd res) UNWEIGHTED_BAD = true) \/
  fst res = Throw InvalidParameterError \/
  fst res = Throw DomainError.
Proof.
  apply exact_getAdaptiveMoments_outcomes; cbn; lia.
Defined.

(** In exact arithmetic [computeAdaptiveMoments] always ends: it
    returns a result or throws [LogicError]. *)
Theorem exact_computeAdaptiveMoments_ends (image : Image xreal)
    (center_x center_y : xreal) (negative : bool) (control : Control xreal)
    (indeterminate : Moments xreal) :
  (exists result,
     computeAdaptiveMoments image center_x center_y negative control indeterminate
       = Ret result) \/
  computeAdaptiveMoments image center_x center_y negative control indeterminate
    = Throw LogicError.
Proof.
  unfold computeAdaptiveMoments.
  match goal with |- context [getAdaptiveMoments ?a ?b ?c ?d ?e ?f ?g ?h ?i ?j ?k] =>
    assert (Hend : fst (getAdaptiveMoments a b c d e f g h i j k) <> Diverge);
    [| destruct (getAdaptiveMoments a b c d e f g h i j k) as [o s] ]
  end.
  - unfold getAdaptiveMoments.
    destruct (isnan _ || isnan _); [discriminate |].
    match goal with |- context [loop_exit ?a ?b ?c ?d ?e ?f ?g ?h ?i ?j ?k] =>
      assert (Hl := exact_loop_cases a b c d e (to_float h) (to_float i) j
                      (S (Z.to_nat g)) g (entry f k) (clipped_empty xreal a));
      unfold loop_exit
    end.
    match type of Hl with ?P -> _ =>
      assert (Hm : P) by (unfold passes_left, entry; cbn [iter interpflag]; lia)
    end.
    specialize (Hl Hm). clear Hm.
    assert (Hafter : forall v, clipped_to image (bbox v) ->
              fst (match unweighted_moments image (background control)
                           (center_x - of_int (getX0 image))%fl
                           (center_y - of_int (getY0 image))%fl negative
                           (after_loop (maxIter control) v) with
                   | Hang => (Diverge, @new_SdssShapeResult xreal _)
                   | Raise e v => (Throw e, shape v)
                   | Return b v => (Ret b, shape v)
                   | Next v | Break v =>
                       finish image (center_x - of_int (getX0 image))%fl
                         (center_y - of_int (getY0 image))%fl v
                   end) <> Diverge).
    { intros v Hbox.
      assert (Hbox' : clipped_to image (bbox (after_loop (maxIter control) v))).
      { unfold after_loop, raise_flag, with_shape. repeat break_match; exact Hbox. }
      match goal with |- context [unweighted_moments ?a ?b ?c ?d ?e ?v1] =>
        pose proof (exact_unweighted_cases a b c d e v1 Hbox') as Hu;
        destruct (unweighted_moments a b c d e v1) as [v' | v' | b0 v' | e0 v' |]
      end; try contradiction; try discriminate.
      match goal with |- context [finish ?a ?b ?c ?v1] =>
        destruct (finish_outcome a b c v1) as [-> | ->]
      end; discriminate. }
    match goal with |- context [loop ?a ?b ?c ?d ?e ?f ?g ?h ?i ?j ?k] =>
      destruct (loop a b c d e f g h i j k) as [v | v | b0 v | e0 v |]
    end; try contradiction; try discriminate; now apply Hafter.
  - cbn [fst] in Hend.
    destruct o as [b | e |]; [| | contradiction]; cbv zeta;
      match goal with
      | |- context [if ?c && negb (Result.flags ?r FAILURE) then _ else _] =>
          destruct (c && negb (Result.flags r FAILURE))
      end; auto;
      destruct (hasVariance image); left; eexists; reflexivity.
Qed.

(** How [computeFixedMomentsFlux] ends in exact arithmetic, on an image
    of proper dimensions, step by step.  The conversion of the box
    throws [InvalidParameterError] for a centre with a NaN row and a
    column that is a number, and for no other.  With a box, which then
    lies inside the image, a shape [getWeights] rejects, or one whose
    weights fail the bounds of [calcmom] (a negative moment, or a
    weight above 1e6), gives [InvalidParameterError].  Any other shape
    has its weighted sum computed; an image without variance then
    gives the flux [2 * sum] with a NaN error, and an image with
    variance gives [RuntimeError] when the truncated centre lies
    outside of it, and else the flux with the error
    [2 sqrt(variance * pi sqrt(det))].  [LengthError] is never seen,
    and the call always ends. *)
Theorem exact_computeFixedMomentsFlux_outcomes (image : Image xreal)
    (shape : Quadrupole xreal) (center_x center_y : xreal) :
  (0 <= getWidth image)%Z -> (0 <= getHeight image)%Z ->
  let localCenter_x := (center_x - of_int (getX0 image))%fl in
  let localCenter_y := (center_y - of_int (getY0 image))%fl in
  let weights := getWeights (getIxx shape) (getIxy shape) (getIyy shape) in
  let flux := computeFixedMomentsFlux image shape center_x center_y in
  match computeAdaptiveMomentsBBox (getBBox_LOCAL image) localCenter_x localCenter_y
          (getIxx shape) (getIxy shape) (getIyy shape) (of_int 1000) with
  | Throw e =>
      isnan localCenter_x = false /\ isnan localCenter_y = true /\
      flux = Throw InvalidParameterError
  | Diverge => False
  | Ret bbox =>
      outside_image image bbox = false /\
      if negb (fst (get0 weights))
         || invalid_weights (get1 weights) (get2 weights) (get3 weights)
      then flux = Throw InvalidParameterError
      else
        exists sum0,
          calcmom_flux image localCenter_x localCenter_y bbox (of_int 0)
            (shouldInterp (getIxx shape) (getIyy shape) (snd (get0 weights)))
            (get1 weights) (get2 weights) (get3 weights) = Ret sum0 /\
          if hasVariance image then
            if geom.contains (getBBox_LOCAL image) (to_int localCenter_x)
                 (to_int localCenter_y)
            then flux = Ret {| flux_instFlux := (sum0 * of_int 2)%fl;
                               flux_instFluxErr :=
                                 (of_int 2
                                  * fsqrt (getVariance image (to_int localCenter_x)
                                             (to_int localCenter_y)
                                           * (geom_PI
                                              * fsqrt (getIxx shape * getIyy shape
                                                       - getIxy shape * getIxy shape))))%fl
                            |}
            else flux = Throw RuntimeError
          else flux = Ret {| flux_instFlux := (sum0 * of_int 2)%fl;
                             flux_instFluxErr := NaN |}
  end.
Proof.
  intros HW HH lx ly weights flux. subst flux. unfold computeFixedMomentsFlux.
  fold lx ly weights.
  pose proof (exact_bbox_cases image lx ly (getIxx shape) (getIxy shape) (getIyy shape)
                (of_int 1000)) as Hb.
  destruct (computeAdaptiveMomentsBBox _ _ _ _ _ _ _) as [bbox | e |];
    [| destruct Hb as (-> & Hx & Hy); repeat split; assumption | contradiction].
  pose proof (clipped_inside xreal image bbox HW HH Hb) as Hin.
  split; [exact Hin |]. cbn [bind].
  destruct (fst (get0 weights)); cbn [negb orb]; [| reflexivity].
  destruct (invalid_weights (get1 weights) (get2 weights) (get3 weights)) eqn:Ew.
  { unfold calcmom_flux. rewrite Ew. reflexivity. }
  match goal with |- context [calcmom_flux ?a ?b ?c ?d ?e ?f ?g ?h ?i] =>
    destruct (exact_calcmom_ends a b c d e f g h i false Ew Hin) as [_ [s Hs]]
  end.
  exists s. split; [exact Hs |]. rewrite Hs. cbn [bind].
  destruct (hasVariance image); [| reflexivity].
  destruct (geom.contains _ _ _); reflexivity.
Qed.

(** The unit circle on the image of ones. *)
Lemma exact_computeFixedMomentsFlux_outcomes_witness :
  let image := ones_3x3 in
  let shape := unit_circle in
  let localCenter_x := fsub (XR 1) (of_int (getX0 image)) in
  let localCenter_y := fsub (XR 1) (of_int (getY0 image)) in
  let weights := getWeights (getIxx shape) (getIxy shape) (getIyy shape) in
  let flux := computeFixedMomentsFlux image shape (XR 1) (XR 1) in
  match computeAdaptiveMomentsBBox (getBBox_LOCAL image) localCenter_x localCenter_y
          (getIxx shape) (getIxy shape) (getIyy shape) (of_int 1000) with
  | Throw e =>
      isnan localCenter_x = false /\ isnan localCenter_y = true /\
      flux = Throw InvalidParameterError
  | Diverge => False
  | Ret bbox =>
      outside_image image bbox = false /\
      if negb (fst (get0 weights))
         || invalid_weights (get1 weights) (get2 weights) (get3 weights)
      then flux = Throw InvalidParameterError
      else
        exists sum0,
          calcmom_flux image localCenter_x localCenter_y bbox (of_int 0)
            (shouldInterp (getIxx shape) (getIyy shape) (snd (get0 weights)))
            (get1 weights) (get2 weights) (get3 weights) = Ret sum0 /\
          if hasVariance image then
            if geom.contains (getBBox_LOCAL image) (to_int localCenter_x)
                 (to_int localCenter_y)
            then flux = Ret {| flux_instFlux := fmul sum0 (of_int 2);
                               flux_instFluxErr :=
                                 fmul (of_int 2)
                                   (fsqrt (fmul (getVariance image (to_int localCenter_x)
                                                   (to_int localCenter_y))
                                             (fmul geom_PI
                                                (fsqrt (fsub (fmul (getIxx shape)
                                                                (getIyy shape))
                                                          (fmul (getIxy shape)
                                                             (getIxy shape))))))) |}
            else flux = Throw RuntimeError
          else flux = Ret {| flux_instFlux := fmul sum0 (of_int 2);
                             flux_instFluxErr := NaN |}
  end.
Proof.
  apply (exact_computeFixedMomentsFlux_outcomes ones_3x3 unit_circle (XR 1) (XR 1));
    cbn; lia.
Defined.

(** ** The errors in closed form *)

(** The inverse of the Fisher matrix of [calc_fisher], in exact
    arithmetic and for an amplitude that is not zero. *)
Lemma exact_fisher_inverse (s : Result.t xreal) (A s11 s12 s22 v : R) :
  s.[Result.instFlux] = XR A -> s.[Result.xx] = XR s11 ->
  s.[Result.xy] = XR s12 -> s.[Result.yy] = XR s22 ->
  (1 / 4503599627370496 < s11 * s22 - s12 * s12)%R -> (0 < v)%R -> A <> 0%R ->
  let Ff := (PI * sqrt (s11 * s22 - s12 * s12) / v)%R in
  exists fisher,
    calc_fisher s (XR v) = Ret fisher /\
    inverse fisher 0%nat 0%nat = XR (2 / Ff) /\
    inverse fisher 1%nat 1%nat = XR (8 * (s11 * s11) / (Ff * (A * A))) /\
    inverse fisher 2%nat 2%nat = XR (8 * (s22 * s22) / (Ff * (A * A))) /\
    inverse fisher 3%nat 3%nat = XR (4 * (s11 * s22 + s12 * s12) / (Ff * (A * A))) /\
    inverse fisher 0%nat 1%nat = XR (- (2 * s11) / (Ff * A)) /\
    inverse fisher 0%nat 2%nat = XR (- (2 * s22) / (Ff * A)) /\
    inverse fisher 0%nat 3%nat = XR (- (2 * s12) / (Ff * A)) /\
    inverse fisher 1%nat 2%nat = XR (8 * (s12 * s12) / (Ff * (A * A))) /\
    inverse fisher 1%nat 3%nat = XR (8 * (s11 * s12) / (Ff * (A * A))) /\
    inverse fisher 2%nat 3%nat = XR (8 * (s22 * s12) / (Ff * (A * A))).
Proof.
  intros HA H11 H12 H22 HD Hv HA0 Ff.
  destruct (exact_calc_fisher s A s11 s12 s22 v HA H11 H12 H22 HD Hv)
    as (fisher & Hf & Hentries).
  destruct (exact_fisher_det s A s11 s12 s22 v HA H11 H12 H22 HD Hv)
    as (fisher' & Hf' & Hdet).
  rewrite Hf in Hf'; injection Hf' as <-.
  exists fisher. split; [exact Hf |].
  assert (HD0 : (0 < s11 * s22 - s12 * s12)%R) by lra.
  assert (Hq : (0 < sqrt (s11 * s22 - s12 * s12))%R) by now apply sqrt_lt_R0.
  assert (HF : (0 < Ff)%R).
  { apply Rdiv_lt_0_compat; [| exact Hv].
    apply Rmult_lt_0_compat; [apply PI_RGT_0 | exact Hq]. }
  cbn [inverse exact_extern]. unfold cofactor_inverse. rewrite Hdet.
  unfold cofactor, minor, det3, skip. cbn [Nat.even Nat.add Nat.ltb Nat.leb].
  repeat rewrite Hentries by lia.
  unfold fisher_formula.
  set (D := (s11 * s22 - s12 * s12)%R) in *.
  fold Ff.
  assert (Hdet0 : (Ff ^ 4 * A ^ 6 / (256 * D ^ 3) <> 0)%R).
  { apply Rgt_not_eq. apply Rdiv_lt_0_compat.
    - apply Rmult_lt_0_compat; [apply pow_lt; exact HF |].
      replace (A ^ 6)%R with ((A * A) ^ 3)%R by ring.
      apply pow_lt. nra.
    - apply Rmult_lt_0_compat; [lra | apply pow_lt; exact HD0]. }
  cbn [fmul fsub fadd fneg fdiv exact xlift2 xmap].
  rewrite !xdiv_real by exact Hdet0.
  repeat split; f_equal; unfold D; field; fold D; repeat split; lra.
Qed.

(** The errors [getAdaptiveMoments] stores, in closed form.  In exact
    arithmetic, for an amplitude [A] that is not zero, moments with a
    determinant [D] above the double epsilon and a positive variance
    [v], with [F = pi sqrt(D) / v]: the variance of the amplitude is
    [2/F], those of [xx], [yy] and [xy] are [8 xx^2], [8 yy^2] and
    [4 (xx yy + xy^2)] over [F A^2], the covariances of the amplitude
    with the moments are [-2 xx], [-2 yy], [-2 xy] over [F A], and those
    between the moments [8 xy^2], [8 xx xy], [8 yy xy] over [F A^2]. *)
Theorem exact_store_errors (s : Result.t xreal) (A s11 s12 s22 v : R) :
  s.[Result.instFlux] = XR A -> s.[Result.xx] = XR s11 ->
  s.[Result.xy] = XR s12 -> s.[Result.yy] = XR s22 ->
  (1 / 4503599627370496 < s11 * s22 - s12 * s12)%R -> (0 < v)%R -> A <> 0%R ->
  let Ff := (PI * sqrt (s11 * s22 - s12 * s12) / v)%R in
  exists s',
    store_errors s (XR v) = Ret s' /\
    s'.[Result.instFluxErr] = XR (sqrt (2 / Ff)) /\
    s'.[Result.xxErr] = XR (sqrt (8 * (s11 * s11) / (Ff * (A * A)))) /\
    s'.[Result.yyErr] = XR (sqrt (8 * (s22 * s22) / (Ff * (A * A)))) /\
    s'.[Result.xyErr] = XR (sqrt (4 * (s11 * s22 + s12 * s12) / (Ff * (A * A)))) /\
    s'.[Result.instFlux_xx_Cov] = XR (- (2 * s11) / (Ff * A)) /\
    s'.[Result.instFlux_yy_Cov] = XR (- (2 * s22) / (Ff * A)) /\
    s'.[Result.instFlux_xy_Cov] = XR (- (2 * s12) / (Ff * A)) /\
    s'.[Result.xx_yy_Cov] = XR (8 * (s12 * s12) / (Ff * (A * A))) /\
    s'.[Result.xx_xy_Cov] = XR (8 * (s11 * s12) / (Ff * (A * A))) /\
    s'.[Result.yy_xy_Cov] = XR (8 * (s22 * s12) / (Ff * (A * A))).
Proof.
  intros HA H11 H12 H22 HD Hv HA0 Ff.
  destruct (exact_fisher_inverse s A s11 s12 s22 v HA H11 H12 H22 HD Hv HA0)
    as (fisher & Hf & H00 & H11' & H22' & H33 & H01 & H02 & H03 & H12' & H13 & H23).
  fold Ff in H00, H11', H22', H33, H01, H02, H03, H12', H13, H23.
  assert (HD0 : (0 < s11 * s22 - s12 * s12)%R) by lra.
  assert (HF : (0 < Ff)%R).
  { apply Rdiv_lt_0_compat; [| exact Hv].
    apply Rmult_lt_0_compat; [apply PI_RGT_0 | now apply sqrt_lt_R0]. }
  assert (HFA : (0 < Ff * (A * A))%R) by (apply Rmult_lt_0_compat; [exact HF | nra]).
  unfold store_errors. rewrite Hf. cbn [bind].
  eexists. split; [reflexivity |].
  cbn [Result.get Result.set Result.value Result.member_eqb to_float exact_libm].
  rewrite H00, H11', H22', H33, H01, H02, H03, H12', H13, H23.
  cbn [fsqrt exact].
  assert (Hinv : (0 <= / (Ff * (A * A)))%R) by (apply Rlt_le, Rinv_0_lt_compat; exact HFA).
  assert (S0 : (0 <= 2 / Ff)%R) by (apply Rlt_le, Rdiv_lt_0_compat; lra).
  assert (S1 : (0 <= 8 * (s11 * s11) / (Ff * (A * A)))%R)
    by (apply Rmult_le_pos; [nra | exact Hinv]).
  assert (S2 : (0 <= 8 * (s22 * s22) / (Ff * (A * A)))%R)
    by (apply Rmult_le_pos; [nra | exact Hinv]).
  assert (S3 : (0 <= 4 * (s11 * s22 + s12 * s12) / (Ff * (A * A)))%R)
    by (apply Rmult_le_pos; [nra | exact Hinv]).
  rewrite !xsqrt_real by assumption.
  repeat split.
Qed.

(** The errors of the round shape of amplitude 2 at variance 1. *)
Lemma exact_store_errors_witness :
  let Ff := (PI * sqrt (1 * 1 - 0 * 0) / 1)%R in
  exists s',
    store_errors round_shape (XR 1) = Ret s' /\
    s'.[Result.instFluxErr] = XR (sqrt (2 / Ff)) /\
    s'.[Result.xxErr] = XR (sqrt (8 * (1 * 1) / (Ff * (2 * 2)))) /\
    s'.[Result.yyErr] = XR (sqrt (8 * (1 * 1) / (Ff * (2 * 2)))) /\
    s'.[Result.xyErr] = XR (sqrt (4 * (1 * 1 + 0 * 0) / (Ff * (2 * 2)))) /\
    s'.[Result.instFlux_xx_Cov] = XR (- (2 * 1) / (Ff * 2)) /\
    s'.[Result.instFlux_yy_Cov] = XR (- (2 * 1) / (Ff * 2)) /\
    s'.[Result.instFlux_xy_Cov] = XR (- (2 * 0) / (Ff * 2)) /\
    s'.[Result.xx_yy_Cov] = XR (8 * (0 * 0) / (Ff * (2 * 2))) /\
    s'.[Result.xx_xy_Cov] = XR (8 * (1 * 0) / (Ff * (2 * 2))) /\
    s'.[Result.yy_xy_Cov] = XR (8 * (1 * 0) / (Ff * (2 * 2))).
Proof.
  apply (exact_store_errors round_shape 2 1 0 1 1); try reflexivity; lra.
Defined.

(** ** The weights are the inverse matrix *)

(** In exact arithmetic the weights of a successful [getWeights] are
    the inverse of the covariance: the product of the two matrices is
    the identity, and the determinant of the weights is the reciprocal
    of the determinant returned. *)
Theorem getWeights_inverse (a b c : R) :
  (1 / 8388608 <= a * c - b * b)%R ->
  let W := getWeights (XR a) (XR b) (XR c) in
  (XR a * get1 W + XR b * get2 W = XR 1 /\
   XR a * get2 W + XR b * get3 W = XR 0 /\
   XR b * get1 W + XR c * get2 W = XR 0 /\
   XR b * get2 W + XR c * get3 W = XR 1 /\
   get1 W * get3 W - get2 W * get2 W = XR (/ (a * c - b * b)))%fl.
Proof.
  intros Hdet. cbv zeta. rewrite getWeights_exact_ok by exact Hdet.
  unfold get1, get2, get3; cbn [fst snd fadd fsub fmul exact xlift2].
  repeat split; f_equal; field; lra.
Qed.

Lemma getWeights_inverse_witness :
  let W := getWeights (XR 2) (XR 1) (XR 2) in
  (XR 2 * get1 W + XR 1 * get2 W = XR 1 /\
   XR 2 * get2 W + XR 1 * get3 W = XR 0 /\
   XR 1 * get1 W + XR 2 * get2 W = XR 0 /\
   XR 1 * get2 W + XR 2 * get3 W = XR 1 /\
   get1 W * get3 W - get2 W * get2 W = XR (/ (2 * 2 - 1 * 1)))%fl.
Proof.
  apply (getWeights_inverse 2 1 2). lra.
Defined.

(** ** The flux-only accumulator *)

Section FluxAgrees.
Context {F : Type} `{Arith F} `{Libm F}.
Local Open Scope fl_scope.

Lemma for_each_agrees (ks : list Z) (full : Z -> Moments F -> outcome (Moments F))
    (flux : Z -> F -> outcome F) (m : Moments F) (s : F) :
  (forall k m s, sum m = s -> sum_agrees (full k m) (flux k s)) ->
  sum m = s ->
  sum_agrees (for_each ks full m) (for_each ks flux s).
Proof.
  intros Hstep. revert m s; induction ks as [| k ks IH]; intros m s Hms; cbn [for_each].
  - exact Hms.
  - pose proof (Hstep k m s Hms) as Hk.
    destruct (full k m) as [m' | e |]; destruct (flux k s) as [s' | e' |];
      cbn in Hk; try contradiction; cbn [bind].
    + now apply IH.
    + exact Hk.
    + exact I.
Qed.

Lemma subgrid_agrees (fuel : nat) (X hi : F)
    (full : F -> Moments F -> outcome (Moments F)) (flux : F -> F -> outcome F)
    (m : Moments F) (s : F) :
  (forall Y m s, sum m = s -> sum_agrees (full Y m) (flux Y s)) ->
  sum m = s ->
  sum_agrees (subgrid fuel X hi full m) (subgrid fuel X hi flux s).
Proof.
  intros Hstep. revert X m s; induction fuel as [| fuel IH]; intros X m s Hms;
    cbn [subgrid]; destruct (X <=? hi); try exact Hms; try exact I.
  pose proof (Hstep X m s Hms) as Hk.
  destruct (full X m) as [m' | e |]; destruct (flux X s) as [s' | e' |];
    cbn in Hk; try contradiction; cbn [bind].
  - now apply IH.
  - exact Hk.
  - exact I.
Qed.

Lemma pixel_agrees (image : Image F) (xcen ycen bkgd : F) (interpflag : bool)
    (w11 w12 w22 : F) (i j : Z) (m : Moments F) (s : F) :
  sum m = s ->
  sum_agrees (pixel_step image xcen ycen bkgd interpflag w11 w12 w22 i j m)
             (flux_pixel image xcen ycen bkgd interpflag w11 w12 w22 i j s).
Proof.
  intros Hms. unfold pixel_step, flux_pixel.
  destruct interpflag.
  - destruct (_ <=? of_int 9); [| exact Hms].
    apply subgrid_agrees; [| exact Hms].
    intros Y m1 s1 H1. apply subgrid_agrees; [| exact H1].
    intros X m2 s2 H2. unfold subpixel, flux_subpixel. cbn. now rewrite H2.
  - destruct (_ <=? of_int 14); [| exact Hms].
    cbn. now rewrite Hms.
Qed.

Lemma calcmom_flux_agrees (image : Image F) (xcen ycen : F) (bbox : geom.Box2I)
    (bkgd : F) (interpflag : bool) (w11 w12 w22 : F) (negative : bool) :
  calcmom_flux image xcen ycen bbox bkgd interpflag w11 w12 w22
  = match calcmom image xcen ycen bbox bkgd interpflag w11 w12 w22 negative with
    | Ret r => Ret (sum (psums r))
    | Throw e => Throw e
    | Diverge => Diverge
    end.
Proof.
  unfold calcmom, calcmom_flux.
  destruct (invalid_weights w11 w12 w22); [reflexivity |].
  destruct (outside_image image bbox); [reflexivity |].
  match goal with |- for_each ?ks ?flux ?s = match bind (for_each ?ks ?full ?m) _ with _ => _ end =>
    assert (Hag : sum_agrees (for_each ks full m) (for_each ks flux s));
    [| destruct (for_each ks full m) as [m' | e |];
       destruct (for_each ks flux s) as [s' | e' |];
       cbn in Hag; try contradiction; cbn [bind psums]; congruence ]
  end.
  apply for_each_agrees; [| reflexivity].
  intros i m s Hms. apply for_each_agrees; [| exact Hms].
  intros j m' s' Hms'. now apply pixel_agrees.
Qed.

(** The flux-only [calcmom] computes the [sum] of the full one: on the
    same arguments it throws what the full one throws, and returns the
    [sum] the full one returns, in the arithmetic of the machine as in
    any other. *)
Theorem calcmom_flux_is_sum (image : Image F) (xcen ycen : F) (bbox : geom.Box2I)
    (bkgd : F) (interpflag : bool) (w11 w12 w22 : F) (negative : bool) :
  calcmom_flux image xcen ycen bbox bkgd interpflag w11 w12 w22
  = match calcmom image xcen ycen bbox bkgd interpflag w11 w12 w22 negative with
    | Ret r => Ret (sum (psums r))
    | Throw e => Throw e
    | Diverge => Diverge
    end.
Proof.
  apply calcmom_flux_agrees.
Qed.
End FluxAgrees.

(** ** The origin of the image *)

Section Origin.
Context {F : Type} `{Arith F} `{Libm F} `{Extern F}.
Local Open Scope fl_scope.

Variables (W Hh : Z) (p : Z -> Z -> F) (var : option (Z -> Z -> F)).

(** The engine works in the frame of the image: it does not look at the
    origin. *)
Lemma loop_origin (x0 y0 x0' y0' : Z) (bkgd xcen ycen shiftmax tol1 tol2 : F)
    (negative : bool) (fuel : nat) (maxIter : Z) (v : @Locals F) :
  loop {| getWidth := W; getHeight := Hh; getX0 := x0; getY0 := y0;
          pixel := p; variance := var |}
       bkgd xcen ycen shiftmax tol1 tol2 negative fuel maxIter v
  = loop {| getWidth := W; getHeight := Hh; getX0 := x0'; getY0 := y0';
            pixel := p; variance := var |}
         bkgd xcen ycen shiftmax tol1 tol2 negative fuel maxIter v.
Proof.
  reflexivity.
Qed.

Lemma getAdaptiveMoments_origin (x0 y0 x0' y0' : Z) (bkgd xcen ycen shiftmax : F)
    (shape0 : Result.t F) (maxIter : Z) (tol1 tol2 : F) (negative : bool)
    (indeterminate : Moments F) :
  getAdaptiveMoments {| getWidth := W; getHeight := Hh; getX0 := x0; getY0 := y0;
                        pixel := p; variance := var |}
    bkgd xcen ycen shiftmax shape0 maxIter tol1 tol2 negative indeterminate
  = getAdaptiveMoments {| getWidth := W; getHeight := Hh; getX0 := x0'; getY0 := y0';
                          pixel := p; variance := var |}
      bkgd xcen ycen shiftmax shape0 maxIter tol1 tol2 negative indeterminate.
Proof.
  unfold getAdaptiveMoments, loop_exit.
  rewrite (loop_origin x0 y0 x0' y0').
  reflexivity.
Qed.
End Origin.

(** Parent and local coordinates.  In exact arithmetic, measuring an
    image with origin [(x0, y0)] at the centre [(cx, cy)] is measuring
    the same pixels with origin (0, 0) at [(cx - x0, cy - y0)]: the same
    exception, or results with the same flags and the same values but
    for the centroid, which is moved by the origin. *)
Theorem computeAdaptiveMoments_origin (W Hh x0 y0 : Z) (p : Z -> Z -> xreal)
    (var : option (Z -> Z -> xreal)) (cx cy : R) (negative : bool)
    (control : Control xreal) (indeterminate : Moments xreal) :
  match
    computeAdaptiveMoments
      {| getWidth := W; getHeight := Hh; getX0 := x0; getY0 := y0;
         pixel := p; variance := var |}
      (XR cx) (XR cy) negative control indeterminate,
    computeAdaptiveMoments
      {| getWidth := W; getHeight := Hh; getX0 := 0; getY0 := 0;
         pixel := p; variance := var |}
      (XR (cx - IZR x0)) (XR (cy - IZR y0)) negative control indeterminate
  with
  | Ret r, Ret r0 =>
      (forall k, Result.flags r k = Result.flags r0 k) /\
      r.[Result.x] = (r0.[Result.x] + of_int x0)%fl /\
      r.[Result.y] = (r0.[Result.y] + of_int y0)%fl /\
      (forall m, m <> Result.x -> m <> Result.y -> r.[m] = r0.[m])
  | Throw e, Throw e0 => e = e0
  | Diverge, Diverge => True
  | _, _ => False
  end.
Proof.
  unfold computeAdaptiveMoments.
  cbn [getX0 getY0 fsub exact xlift2 of_int].
  replace (cx - IZR x0 - 0)%R with (cx - IZR x0)%R by lra.
  replace (cy - IZR y0 - 0)%R with (cy - IZR y0)%R by lra.
  rewrite (getAdaptiveMoments_origin W Hh p var x0 y0 0 0).
  match goal with |- context [getAdaptiveMoments ?a ?b ?c ?d ?e ?f ?g ?h ?i ?j ?k] =>
    destruct (getAdaptiveMoments a b c d e f g h i j k) as [o s]
  end.
  destruct o as [b | e |]; [| | exact I]; cbv zeta;
    cbn [Result.flags Result.set_flag Flag_eqb];
    destruct (Result.flags s UNWEIGHTED || Result.flags s SHIFT);
    cbn [Result.get Result.set Result.set_flag Result.value Result.flags
         Result.member_eqb Flag_eqb];
    (match goal with
     | |- context [if ?c && ?d then Throw LogicError else _] => destruct (c && d)
     end);
    try reflexivity;
    unfold hasVariance; cbn [variance]; destruct var;
    cbn [Result.get Result.set Result.set_flag Result.value Result.flags
         Result.member_eqb Flag_eqb];
    (split; [reflexivity |]);
    (split; [destruct (Result.value s Result.x); cbn; try reflexivity; f_equal; lra |]);
    (split; [destruct (Result.value s Result.y); cbn; try reflexivity; f_equal; lra |]);
    intros m Hx Hy; destruct m; try reflexivity; congruence.
Qed.

(** The same for the flux at fixed moments: the origin only moves the
    centre. *)
Theorem computeFixedMomentsFlux_origin (W Hh x0 y0 : Z) (p : Z -> Z -> xreal)
    (var : option (Z -> Z -> xreal)) (shape : Quadrupole xreal) (cx cy : R) :
  computeFixedMomentsFlux
    {| getWidth := W; getHeight := Hh; getX0 := x0; getY0 := y0;
       pixel := p; variance := var |} shape (XR cx) (XR cy)
  = computeFixedMomentsFlux
      {| getWidth := W; getHeight := Hh; getX0 := 0; getY0 := 0;
         pixel := p; variance := var |} shape (XR (cx - IZR x0)) (XR (cy - IZR y0)).
Proof.
  unfold computeFixedMomentsFlux.
  cbn [getX0 getY0 fsub exact xlift2 of_int].
  replace (cx - IZR x0 - 0)%R with (cx - IZR x0)%R by lra.
  replace (cy - IZR y0 - 0)%R with (cy - IZR y0)%R by lra.
  reflexivity.
Qed.

(** ** The slot extractors *)

Section ExtractorFacts.
Context {F : Type} `{Arith F}.
Import InputUtilities.

(** What [SafeCentroidExtractor] returns.  A flagged slot never gives a
    centre without the failure flag; a centre with a NaN coordinate is
    the first peak of the footprint, standing in for a slot that is NaN
    and flagged; and a centre returned without the failure flag is the
    value of the slot, free of NaN. *)
Theorem SafeCentroidExtractor_returns (record : SourceRecord F) (c : F * F)
    (failure : bool) :
  SafeCentroidExtractor record = Returned c failure ->
  getCentroidKey_isValid record = true /\
  (getCentroidFlagKey_isValid record && getCentroidFlag record = true ->
   failure = true) /\
  (isnan (fst c) || isnan (snd c) = true ->
   exists rest, getFootprint record = Some (c :: rest) /\
                getCentroidFlag record = true) /\
  (failure = false ->
   c = getCentroid record /\ isnan (fst c) || isnan (snd c) = false).
Proof.
  unfold SafeCentroidExtractor.
  destruct (getCentroidKey_isValid record); cbn [negb]; [| discriminate].
  destruct (isnan (fst (getCentroid record)) || isnan (snd (getCentroid record))) eqn:En.
  - destruct (getCentroidFlagKey_isValid record); cbn [negb]; [| discriminate].
    destruct (getCentroidFlag record); cbn [negb]; [| discriminate].
    destruct (getFootprint record) as [[| front rest] |]; try discriminate.
    intros E; injection E as <- <-.
    repeat split; auto; try discriminate.
    intros _. exists rest. auto.
  - destruct (getCentroidFlagKey_isValid record && getCentroidFlag record) eqn:Ef;
      intros E; injection E as <- <-; repeat split; auto; try congruence;
      try discriminate.
Qed.

(** [SafeShapeExtractor] never returns a shape with a NaN moment: it
    returns the value of the slot, with the failure flag when the slot
    is flagged. *)
Theorem SafeShapeExtractor_returns (record : SourceRecord F) (q : Quadrupole F)
    (failure : bool) :
  SafeShapeExtractor record = Returned q failure ->
  q = getShape record /\
  isnan (getIxx q) = false /\ isnan (getIyy q) = false /\ isnan (getIxy q) = false /\
  failure = getShapeFlagKey_isValid record && getShapeFlag record.
Proof.
  unfold SafeShapeExtractor.
  destruct (getShapeKey_isValid record); cbn [negb]; [| discriminate].
  destruct (isnan (getIxx (getShape record)) || isnan (getIyy (getShape record))
            || isnan (getIxy (getShape record))) eqn:En.
  - repeat (match goal with |- context [if ?c then _ else _] => destruct c end;
            try discriminate).
  - apply orb_false_iff in En. destruct En as [En Exy].
    apply orb_false_iff in En. destruct En as [Exx Eyy].
    destruct (getShapeFlagKey_isValid record && getShapeFlag record);
      intros E; injection E as <- <-; auto.
Qed.
End ExtractorFacts.

(** The flagged record: the peak stands in for the NaN centroid, and
    the shape of the slot comes back with the failure flag. *)
Lemma SafeCentroidExtractor_returns_witness :
  InputUtilities.SafeCentroidExtractor flagged_record
    = InputUtilities.Returned (XR 3, XR 4) true /\
  InputUtilities.getCentroidKey_isValid flagged_record = true.
Proof.
  assert (E : InputUtilities.SafeCentroidExtractor flagged_record
              = InputUtilities.Returned (XR 3, XR 4) true) by reflexivity.
  split; [exact E |].
  exact (proj1 (SafeCentroidExtractor_returns flagged_record (XR 3, XR 4) true E)).
Defined.

Lemma SafeShapeExtractor_returns_witness :
  InputUtilities.SafeShapeExtractor flagged_record
    = InputUtilities.Returned unit_circle true /\
  isnan (getIxx unit_circle) = false.
Proof.
  assert (E : InputUtilities.SafeShapeExtractor flagged_record
              = InputUtilities.Returned unit_circle true) by reflexivity.
  split; [exact E |].
  exact (proj1 (proj2 (SafeShapeExtractor_returns flagged_record unit_circle true E))).
Defined.

(** ** The counter and the interpolation switch *)

Section LoopInvariants.
Context {F : Type} `{Arith F} `{Libm F} `{Extern F}.
Local Open Scope fl_scope.

Variables (mimage : Image F) (bkgd xcen ycen shiftmax tol1 tol2 : F) (negative : bool).

Lemma update_same (v v' : @Locals F) (status : Z) :
  locals_of (update xcen ycen shiftmax tol1 tol2 v status) = Some v' ->
  iter v' = iter v /\ interpflag v' = interpflag v.
Proof.
  unfold update.
  repeat break_match; intros E; unfold locals_of, raise_flag, with_shape in E;
    try discriminate; injection E as <-; auto.
Qed.

Lemma body_invariants (v v' : @Locals F) :
  locals_of (body mimage bkgd xcen ycen shiftmax tol1 tol2 negative v) = Some v' ->
  (interpflag v = true -> interpflag v' = true) /\
  (0 <= iter v -> 0 <= iter v')%Z /\ (iter v' <= iter v)%Z.
Proof.
  unfold body.
  repeat break_match; intros E;
    repeat match goal with
           | Hc : _ && _ = true |- _ => apply andb_true_iff in Hc; destruct Hc
           | Hc : (_ >? _)%Z = true |- _ => apply Z.gtb_lt in Hc
           end;
    first [ apply update_same in E; cbn [iter interpflag] in E;
            destruct E as [Ei Ef]; rewrite Ei, Ef
          | unfold locals_of, raise_flag, with_shape in E;
            try discriminate; injection E as <-; cbn [iter interpflag] ];
    repeat split; try lia; try (intros ->; reflexivity); auto.
Qed.

(** Through the loop the counter [iter] stays between 0 and [maxIter]
    (the one step back that turns interpolation on is taken only from a
    positive count), and the switch [interpflag], once on, stays on. *)
Theorem loop_invariants (fuel : nat) (maxIter : Z) (v : @Locals F) :
  match locals_of (loop mimage bkgd xcen ycen shiftmax tol1 tol2 negative fuel maxIter v) with
  | Some v' =>
      (interpflag v = true -> interpflag v' = true) /\
      (0 <= iter v -> 0 <= iter v')%Z /\
      (iter v' <= Z.max (iter v) maxIter)%Z
  | None => True
  end.
Proof.
  revert v; induction fuel as [| fuel IH]; intros v; cbn [loop];
    destruct (iter v <? maxIter)%Z eqn:Hlt;
    try (cbn; repeat split; auto; lia).
  pose proof (body_invariants v) as Hb.
  apply Z.ltb_lt in Hlt.
  destruct (body mimage bkgd xcen ycen shiftmax tol1 tol2 negative v)
    as [v1 | v1 | b v1 | e v1 |]; cbn [locals_of] in *;
    try (destruct (Hb v1 eq_refl) as (Hf & H0' & Hi); repeat split; auto; lia);
    try exact I.
  destruct (Hb v1 eq_refl) as (Hf & H0' & Hi).
  match goal with |- match locals_of (loop _ _ _ _ _ _ _ _ _ _ ?v2) with _ => _ end =>
    specialize (IH v2); destruct (locals_of (loop mimage bkgd xcen ycen shiftmax tol1 tol2
                                               negative fuel maxIter v2)) as [v' |]
  end; [| exact I].
  cbn [iter interpflag] in IH. destruct IH as (If & I0' & Ii).
  repeat split; auto; lia.
Qed.
End LoopInvariants.

(** ** The accumulator with interpolation *)

Lemma subgrid_step (A : Type) (n : nat) (X h : R) (body : xreal -> A -> outcome A)
    (acc : A) :
  (X <= h)%R ->
  subgrid (S n) (XR X) (XR h) body acc
  = bind (body (XR X) acc) (fun acc' => subgrid n (XR (X + 1 / 4)) (XR h) body acc').
Proof.
  intros Hle. cbn [subgrid]. rewrite exact_lit by rneq.
  cbn [fle exact xcmp fadd xlift2 to_float exact_libm].
  now rewrite Rleb_true.
Qed.

Lemma subgrid_stop (A : Type) (n : nat) (X h : R) (body : xreal -> A -> outcome A)
    (acc : A) :
  (h < X)%R -> subgrid n (XR X) (XR h) body acc = Ret acc.
Proof.
  intros Hlt. destruct n; cbn [subgrid fle exact xcmp]; now rewrite Rleb_false.
Qed.

(** One loop over the grid, for a body that adds real numbers. *)
Lemma exact_subgrid_sum (lo h : R) (body : xreal -> Moments xreal -> outcome (Moments xreal))
    (g : R -> Moments R) (m : Moments R) :
  (forall X m, body (XR X) (lift_moments m) = Ret (lift_moments (madd m (g X)))) ->
  (lo + 3 / 4 <= h < lo + 1)%R ->
  subgrid subgrid_fuel (XR lo) (XR h) body (lift_moments m)
  = Ret (lift_moments (madd m (msum g (quarter_steps lo)))).
Proof.
  intros Hbody Hh. unfold subgrid_fuel.
  rewrite subgrid_step, Hbody by lra. cbn [bind].
  rewrite subgrid_step, Hbody by lra. cbn [bind].
  rewrite subgrid_step, Hbody by lra. cbn [bind].
  rewrite subgrid_step, Hbody by lra. cbn [bind].
  rewrite subgrid_stop by lra.
  do 2 f_equal. unfold quarter_steps. cbn [msum fold_right].
  apply moments_eq; cbn; ring.
Qed.

Lemma exact_subpixel (image : Image xreal) (xc yc bk w11 w12 w22 t Y X : R)
    (m : Moments R) :
  subpixel (XR xc) (XR yc) (XR w11) (XR w12) (XR w22) (XR t) (XR Y) (XR X)
    (lift_moments m)
  = Ret (lift_moments (madd m (subpixel_moments t xc yc w11 w12 w22 Y X))).
Proof.
  unfold subpixel. rewrite !exact_lit by rneq. cbn.
  unfold subpixel_moments, gaussian_exponent. reflexivity.
Qed.

Lemma exact_corner_expon (xl xh yl yh w11 w12 w22 : R) :
  corner_expon (XR xl) (XR xh) (XR yl) (XR yh) (XR w11) (XR w12) (XR w22)
  = XR (corner_exponent xl xh yl yh w11 w12 w22).
Proof.
  unfold corner_expon, corner_exponent. cbn.
  repeat (destruct (Rltb _ _); cbn); reflexivity.
Qed.

Lemma exact_interp_pixel_step (W Hh x0 y0 : Z) (p : Z -> Z -> R)
    (var : option (Z -> Z -> R)) (xc yc bk w11 w12 w22 : R) (i j : Z) (m : Moments R) :
  pixel_step (real_image W Hh x0 y0 p var) (XR xc) (XR yc) (XR bk) true
    (XR w11) (XR w12) (XR w22) i j (lift_moments m)
  = Ret (lift_moments (madd m (interp_pixel_moments p xc yc bk w11 w12 w22 i j))).
Proof.
  unfold pixel_step, interp_pixel_moments. rewrite !exact_lit by rneq.
  cbn -[corner_expon subgrid subpixel Rleb corner_exponent msum quarter_steps madd].
  rewrite exact_corner_expon. cbn [fle exact xcmp of_int].
  destruct (Rleb _ 9).
  - rewrite (exact_subgrid_sum _ _ _
               (fun Y => msum (subpixel_moments (p j i - bk) xc yc w11 w12 w22 Y)
                              (quarter_steps (IZR j - xc - 3 / 8)))).
    + reflexivity.
    + intros Y m'.
      rewrite (exact_subgrid_sum _ _ _ (subpixel_moments (p j i - bk) xc yc w11 w12 w22 Y)).
      * reflexivity.
      * intros X m''.
        apply (exact_subpixel (real_image W Hh x0 y0 p var) xc yc bk).
      * lra.
    + lra.
  - now rewrite madd_mzero_r.
Qed.

Lemma exact_interp_row (W Hh x0 y0 : Z) (p : Z -> Z -> R) (var : option (Z -> Z -> R))
    (xc yc bk w11 w12 w22 : R) (i : Z) (cols : list Z) (m : Moments R) :
  for_each cols
    (pixel_step (real_image W Hh x0 y0 p var) (XR xc) (XR yc) (XR bk) true
       (XR w11) (XR w12) (XR w22) i) (lift_moments m)
  = Ret (lift_moments
           (madd m (msum (interp_pixel_moments p xc yc bk w11 w12 w22 i) cols))).
Proof.
  revert m; induction cols as [| j cols IH]; intros m; cbn [for_each msum fold_right].
  - now rewrite madd_mzero_r.
  - rewrite exact_interp_pixel_step. cbn [bind]. rewrite IH. now rewrite madd_assoc.
Qed.

Lemma exact_interp_rows (W Hh x0 y0 : Z) (p : Z -> Z -> R) (var : option (Z -> Z -> R))
    (xc yc bk w11 w12 w22 : R) (rows cols : list Z) (m : Moments R) :
  for_each rows
    (fun i => for_each cols
       (pixel_step (real_image W Hh x0 y0 p var) (XR xc) (XR yc) (XR bk) true
          (XR w11) (XR w12) (XR w22) i)) (lift_moments m)
  = Ret (lift_moments
           (madd m (msum (fun i => msum (interp_pixel_moments p xc yc bk w11 w12 w22 i)
                                        cols) rows))).
Proof.
  revert m; induction rows as [| i rows IH]; intros m; cbn [for_each msum fold_right].
  - now rewrite madd_mzero_r.
  - rewrite exact_interp_row. cbn [bind]. rewrite IH. now rewrite madd_assoc.
Qed.

(** [calcmom] with interpolation on real data, in closed form. *)
Lemma exact_interp_calcmom (W Hh x0 y0 : Z) (p : Z -> Z -> R)
    (var : option (Z -> Z -> R)) (xc yc : R) (bbox : geom.Box2I)
    (bk w11 w12 w22 : R) (negative : bool) :
  invalid_weights (XR w11) (XR w12) (XR w22) = false ->
  outside_image (real_image W Hh x0 y0 p var) bbox = false ->
  exists r,
    calcmom (real_image W Hh x0 y0 p var) (XR xc) (XR yc) bbox (XR bk) true
      (XR w11) (XR w12) (XR w22) negative = Ret r /\
    psums r = lift_moments (interp_box_moments p xc yc bk w11 w12 w22 bbox).
Proof.
  intros Hw Hin. unfold calcmom. rewrite Hw, Hin.
  change (to_float (XR xc)) with (XR xc).
  change (to_float (XR yc)) with (XR yc).
  change (to_float (XR bk)) with (XR bk).
  change (@zero_moments xreal _) with (lift_moments mzero).
  rewrite exact_interp_rows. cbn [bind]. rewrite madd_mzero_l.
  eexists; split; reflexivity.
Qed.

(** ** The flux at fixed moments is linear in the image *)

Lemma sum_msum_linear (A : Type) (a b : R) (f g h : A -> Moments R) (ks : list A) :
  (forall k, sum (h k) = a * sum (f k) + b * sum (g k))%R ->
  (sum (msum h ks) = a * sum (msum f ks) + b * sum (msum g ks))%R.
Proof.
  intros Hk. induction ks as [| k ks IH]; cbn [msum fold_right].
  - cbn. ring.
  - unfold msum in IH. cbn [madd sum]. rewrite IH, Hk. ring.
Qed.

Lemma weighted_sum_linear (a b : R) (p q : Z -> Z -> R) (xc yc w11 w12 w22 : R)
    (bbox : geom.Box2I) (interpflag : bool) :
  (weighted_sum (blend a b p q) xc yc 0 w11 w12 w22 bbox interpflag
   = a * weighted_sum p xc yc 0 w11 w12 w22 bbox interpflag
     + b * weighted_sum q xc yc 0 w11 w12 w22 bbox interpflag)%R.
Proof.
  unfold weighted_sum. destruct interpflag.
  - unfold interp_box_moments.
    apply sum_msum_linear; intros i. apply sum_msum_linear; intros j.
    unfold interp_pixel_moments. destruct (Rleb _ 9); [| cbn; ring].
    apply sum_msum_linear; intros Y. apply sum_msum_linear; intros X.
    unfold subpixel_moments, blend. cbn [sum]. ring.
  - unfold box_moments.
    apply sum_msum_linear; intros i. apply sum_msum_linear; intros j.
    unfold pixel_moments, blend. destruct (Rleb _ 14); cbn [sum mzero]; ring.
Qed.

(** The flux-only [calcmom] on real data, in closed form. *)
Lemma exact_calcmom_flux (W Hh x0 y0 : Z) (p : Z -> Z -> R) (var : option (Z -> Z -> R))
    (xc yc : R) (bbox : geom.Box2I) (bk w11 w12 w22 : R) (interpflag : bool) :
  invalid_weights (XR w11) (XR w12) (XR w22) = false ->
  outside_image (real_image W Hh x0 y0 p var) bbox = false ->
  calcmom_flux (real_image W Hh x0 y0 p var) (XR xc) (XR yc) bbox (XR bk) interpflag
    (XR w11) (XR w12) (XR w22)
  = Ret (XR (weighted_sum p xc yc bk w11 w12 w22 bbox interpflag)).
Proof.
  intros Hw Hin. rewrite (calcmom_flux_agrees _ _ _ _ _ _ _ _ _ false).
  unfold weighted_sum. destruct interpflag.
  - destruct (exact_interp_calcmom W Hh x0 y0 p var xc yc bbox bk w11 w12 w22 false
                Hw Hin) as (r & -> & Hr).
    rewrite Hr. reflexivity.
  - rewrite exact_calcmom by assumption. reflexivity.
Qed.

(** The flux of [computeFixedMomentsFlux] is linear in the pixels.  On
    three images of the same dimensions, origin and variance, with
    pixels [p], [q] and [a p + b q], and for the same shape and centre,
    the three calls end alike: with the same exception, or with fluxes
    [f1], [f2] and [a f1 + b f2] and one and the same error (exact
    arithmetic; the error depends on the variance and the shape only). *)
Theorem computeFixedMomentsFlux_linear (W Hh x0 y0 : Z) (p q : Z -> Z -> R)
    (var : option (Z -> Z -> R)) (shape : Quadrupole xreal) (cx cy a b : R) :
  (0 <= W)%Z -> (0 <= Hh)%Z ->
  match
    computeFixedMomentsFlux (real_image W Hh x0 y0 p var) shape (XR cx) (XR cy),
    computeFixedMomentsFlux (real_image W Hh x0 y0 q var) shape (XR cx) (XR cy),
    computeFixedMomentsFlux (real_image W Hh x0 y0 (blend a b p q) var) shape
      (XR cx) (XR cy)
  with
  | Ret r1, Ret r2, Ret r =>
      exists f1 f2,
        flux_instFlux r1 = XR f1 /\ flux_instFlux r2 = XR f2 /\
        flux_instFlux r = XR (a * f1 + b * f2) /\
        flux_instFluxErr r1 = flux_instFluxErr r /\
        flux_instFluxErr r2 = flux_instFluxErr r
  | Throw e1, Throw e2, Throw e => e1 = e /\ e2 = e
  | _, _, _ => False
  end.
Proof.
  intros HW HH. unfold computeFixedMomentsFlux.
  cbn [getX0 getY0 real_image].
  change (getBBox_LOCAL (real_image W Hh x0 y0 q var))
    with (getBBox_LOCAL (real_image W Hh x0 y0 p var)).
  change (getBBox_LOCAL (real_image W Hh x0 y0 (blend a b p q) var))
    with (getBBox_LOCAL (real_image W Hh x0 y0 p var)).
  change (fsub (XR cx) (of_int x0)) with (XR (cx - IZR x0)).
  change (fsub (XR cy) (of_int y0)) with (XR (cy - IZR y0)).
  match goal with |- context [computeAdaptiveMomentsBBox ?i (XR ?c) (XR ?d) ?e ?f ?g ?h] =>
    destruct (exact_bbox_inside (real_image W Hh x0 y0 p var) c d e f g h)
      as (bbox & -> & Hb)
  end.
  cbn [bind].
  destruct (fst (get0 (getWeights (getIxx shape) (getIxy shape) (getIyy shape))))
    eqn:Eok; cbn [negb]; [| split; reflexivity].
  destruct (getWeights_exact_success _ _ _ Eok) as (x & y & z & Ex & Ey & Ez & Hdet).
  rewrite Ex, Ey, Ez, (getWeights_exact_ok x y z Hdet).
  unfold get0, get1, get2, get3; cbn [fst snd].
  set (interp := shouldInterp _ _ _).
  destruct (invalid_weights (XR (z / (x * z - y * y))) (XR (- y / (x * z - y * y)))
              (XR (x / (x * z - y * y)))) eqn:Ew.
  - unfold calcmom_flux. rewrite Ew. cbn [bind]. split; reflexivity.
  - assert (Hin : forall p', outside_image (real_image W Hh x0 y0 p' var) bbox = false).
    { intros p'. apply clipped_inside; [exact HW | exact HH |]. exact Hb. }
    change (fsub (XR cx) (of_int x0)) with (XR (cx - IZR x0)).
    change (fsub (XR cy) (of_int y0)) with (XR (cy - IZR y0)).
    change (@of_int xreal _ 0) with (XR 0).
    rewrite !exact_calcmom_flux by (exact Ew || apply Hin).
    cbn [bind]. rewrite weighted_sum_linear.
    unfold hasVariance, getVariance. cbn [variance real_image].
    destruct var as [v |].
    + destruct (geom.contains _ _ _); cbn [negb]; [| split; reflexivity].
      do 2 eexists. cbn [flux_instFlux flux_instFluxErr].
      repeat split; try reflexivity.
      cbn. f_equal. ring.
    + do 2 eexists. cbn [flux_instFlux flux_instFluxErr].
      repeat split; try reflexivity.
      cbn. f_equal. ring.
Qed.

(** The unit circle at the middle of two images of three by three
    pixels, one flat and one a ramp, and twice the one plus three times
    the other. *)
Lemma computeFixedMomentsFlux_linear_witness :
  match
    computeFixedMomentsFlux (real_image 3 3 0 0 (fun _ _ => 1%R) None) unit_circle
      (XR 1) (XR 1),
    computeFixedMomentsFlux (real_image 3 3 0 0 (fun j _ => IZR j) None) unit_circle
      (XR 1) (XR 1),
    computeFixedMomentsFlux
      (real_image 3 3 0 0 (blend 2 3 (fun _ _ => 1%R) (fun j _ => IZR j)) None)
      unit_circle (XR 1) (XR 1)
  with
  | Ret r1, Ret r2, Ret r =>
      exists f1 f2,
        flux_instFlux r1 = XR f1 /\ flux_instFlux r2 = XR f2 /\
        flux_instFlux r = XR (2 * f1 + 3 * f2) /\
        flux_instFluxErr r1 = flux_instFluxErr r /\
        flux_instFluxErr r2 = flux_instFluxErr r
  | Throw e1, Throw e2, Throw e => e1 = e /\ e2 = e
  | _, _, _ => False
  end.
Proof.
  apply (computeFixedMomentsFlux_linear 3 3 0 0 (fun _ _ => 1%R) (fun j _ => IZR j)
           None unit_circle 1 1 2 3); lia.
Defined.

(** ** The brightness of the source *)

Section Scaling.
Local Open Scope fl_scope.
Variable c : R.

Lemma xs_add (a b : xreal) : XR c * a + XR c * b = XR c * (a + b).
Proof. destruct a, b; cbn; try reflexivity. f_equal. ring. Qed.

Lemma xs_sub (a b : xreal) : XR c * a - XR c * b = XR c * (a - b).
Proof. destruct a, b; cbn; try reflexivity. f_equal. ring. Qed.

Lemma xs_mul_l (a b : xreal) : XR c * a * b = XR c * (a * b).
Proof. destruct a, b; cbn; try reflexivity. f_equal. ring. Qed.

Lemma xs_mul_r (a b : xreal) : a * (XR c * b) = XR c * (a * b).
Proof. destruct a, b; cbn; try reflexivity. f_equal. ring. Qed.

Lemma xs_div_l (a b : xreal) : XR c * a / b = XR c * (a / b).
Proof.
  destruct a, b; cbn; try reflexivity.
  destruct (Reqb _ _); cbn; [reflexivity |]. f_equal. unfold Rdiv. ring.
Qed.

Lemma xs_ratio (a b : xreal) : c <> 0%R -> XR c * a / (XR c * b) = a / b.
Proof.
  intros Hc. destruct a as [| x], b as [| y]; cbn; try reflexivity.
  unfold Reqb. destruct (Req_dec_T y 0) as [-> | Hy].
  - destruct (Req_dec_T (c * 0) 0) as [_ | Hn]; [reflexivity |].
    exfalso; apply Hn; ring.
  - destruct (Req_dec_T (c * y) 0) as [Hz | _].
    + exfalso. apply Rmult_integral in Hz. tauto.
    + f_equal. field. split; assumption.
Qed.

Lemma xs_lt0 (a : xreal) : (0 < c)%R -> (XR c * a <? XR 0) = (a <? XR 0).
Proof.
  intros Hc. destruct a as [| x]; cbn; [reflexivity |].
  unfold Rltb. destruct (Rlt_dec (c * x) 0), (Rlt_dec x 0); try reflexivity; exfalso; nra.
Qed.

Lemma xs_gt0 (a : xreal) : (0 < c)%R -> (XR c * a >? XR 0) = (a >? XR 0).
Proof.
  intros Hc. destruct a as [| x]; cbn; [reflexivity |].
  unfold Rltb. destruct (Rlt_dec 0 (c * x)), (Rlt_dec 0 x); try reflexivity; exfalso; nra.
Qed.

Lemma xs_le0 (a : xreal) : (0 < c)%R -> (XR c * a <=? XR 0) = (a <=? XR 0).
Proof.
  intros Hc. destruct a as [| x]; cbn; [reflexivity |].
  unfold Rleb. destruct (Rle_dec (c * x) 0), (Rle_dec x 0); try reflexivity; exfalso; nra.
Qed.

Lemma xs_ge0 (a : xreal) : (0 < c)%R -> (XR c * a >=? XR 0) = (a >=? XR 0).
Proof.
  intros Hc. destruct a as [| x]; cbn; [reflexivity |].
  unfold Rleb. destruct (Rle_dec 0 (c * x)), (Rle_dec 0 x); try reflexivity; exfalso; nra.
Qed.

Lemma xs_eq0 (a : xreal) : (0 < c)%R -> (XR c * a =? XR 0) = (a =? XR 0).
Proof.
  intros Hc. destruct a as [| x]; cbn; [reflexivity |].
  unfold Reqb. destruct (Req_dec_T (c * x) 0), (Req_dec_T x 0); try reflexivity; exfalso; nra.
Qed.

(** *** The accumulators *)

Lemma for_each_omap (A : Type) (g : A -> A) (ks : list Z)
    (body body' : Z -> A -> outcome A) (a : A) :
  (forall k a, body' k (g a) = omap g (body k a)) ->
  for_each ks body' (g a) = omap g (for_each ks body a).
Proof.
  intros Hb. revert a. induction ks as [| k ks IH]; intros a; cbn [for_each].
  - reflexivity.
  - rewrite Hb. destruct (body k a) as [a' | e |]; cbn [omap bind]; auto.
Qed.

Lemma subgrid_omap (A : Type) (g : A -> A) (fuel : nat) (X hi : xreal)
    (body body' : xreal -> A -> outcome A) (a : A) :
  (forall X a, body' X (g a) = omap g (body X a)) ->
  subgrid fuel X hi body' (g a) = omap g (subgrid fuel X hi body a).
Proof.
  intros Hb. revert X a. induction fuel as [| fuel IH]; intros X a; cbn [subgrid].
  - destruct (X <=? hi); reflexivity.
  - destruct (X <=? hi); [| reflexivity].
    rewrite Hb. destruct (body X a) as [a' | e |]; cbn [omap bind]; auto.
Qed.
End Scaling.

Section ScaledImage.
Local Open Scope fl_scope.
Variable c : R.
Hypothesis Hc : (0 < c)%R.

Ltac xs_norm :=
  repeat (rewrite xs_sub || rewrite xs_mul_l || rewrite xs_mul_r || rewrite xs_add).

Lemma subpixel_scale (xcen ycen w11 w12 w22 tmod Y X : xreal) (m : Moments xreal) :
  subpixel xcen ycen w11 w12 w22 (XR c * tmod) Y X (mscale c m)
  = omap (mscale c) (subpixel xcen ycen w11 w12 w22 tmod Y X m).
Proof.
  unfold subpixel, mscale. cbn [omap sum sumx sumy sumxx sumxy sumyy sums4].
  cbn [to_float exact_libm]. xs_norm. reflexivity.
Qed.

Lemma pixel_step_scale (image : Image xreal) (xcen ycen bkgd : xreal)
    (interpflag : bool) (w11 w12 w22 : xreal) (i j : Z) (m : Moments xreal) :
  pixel_step (brighten c image) xcen ycen (XR c * bkgd) interpflag w11 w12 w22 i j
    (mscale c m)
  = omap (mscale c) (pixel_step image xcen ycen bkgd interpflag w11 w12 w22 i j m).
Proof.
  unfold pixel_step. cbn [pixel brighten to_float exact_libm]. rewrite xs_sub.
  destruct interpflag.
  - destruct (_ <=? _); [| reflexivity].
    apply subgrid_omap; intros Y a. apply subgrid_omap; intros X a'.
    apply subpixel_scale.
  - destruct (_ <=? _); [| reflexivity].
    unfold mscale. cbn [omap sum sumx sumy sumxx sumxy sumyy sums4].
    xs_norm. reflexivity.
Qed.

Lemma zero_moments_scale : @zero_moments xreal _ = mscale c zero_moments.
Proof.
  unfold zero_moments, mscale. cbn.
  replace (c * 0)%R with 0%R by ring. reflexivity.
Qed.

Lemma calcmom_scale (image : Image xreal) (xcen ycen : xreal) (bbox : geom.Box2I)
    (bkgd : xreal) (interpflag : bool) (w11 w12 w22 : xreal) (negative : bool) :
  calcmom (brighten c image) xcen ycen bbox (XR c * bkgd) interpflag w11 w12 w22 negative
  = omap (rscale c)
      (calcmom image xcen ycen bbox bkgd interpflag w11 w12 w22 negative).
Proof.
  unfold calcmom.
  destruct (invalid_weights w11 w12 w22); [reflexivity |].
  change (outside_image (brighten c image) bbox) with (outside_image image bbox).
  destruct (outside_image image bbox); [reflexivity |].
  cbn [to_float exact_libm].
  rewrite zero_moments_scale at 1.
  rewrite (for_each_omap _ (mscale c) _
             (fun i => for_each (Zrange (geom.getMinX bbox) (geom.getMaxX bbox))
                         (pixel_step image xcen ycen bkgd interpflag w11 w12 w22 i))).
  - destruct (for_each _ _ _) as [m | e |]; cbn [omap bind]; [| reflexivity ..].
    unfold rscale. cbn [status pI0 psums mscale sum sumxx sumyy].
    change (@of_int xreal _ 0) with (XR 0).
    rewrite !xs_lt0, !xs_gt0, xs_div_l by exact Hc. reflexivity.
  - intros i a. apply for_each_omap. intros j a'. apply pixel_step_scale.
Qed.
End ScaledImage.

Section BrighterEngine.
Local Open Scope fl_scope.
Variable c : R.
Hypothesis Hc : (0 < c)%R.
Variables (mimage : Image xreal) (bkgd xcen ycen shiftmax tol1 tol2 : xreal)
  (negative : bool).

Lemma raise_flag_alike (k : Flag) (v v' : @Locals xreal) :
  locals_alike c v v' -> locals_alike c (raise_flag k v) (raise_flag k v').
Proof.
  unfold locals_alike, raise_flag, with_shape. cbn.
  intros (? & ? & ? & ? & ? & ? & ? & ? & -> & ?). repeat split; assumption.
Qed.

Lemma update_alike (v v' : @Locals xreal) (status : Z) :
  locals_alike c v v' ->
  pass_alike c (update xcen ycen shiftmax tol1 tol2 v status)
               (update xcen ycen shiftmax tol1 tol2 v' status).
Proof.
  destruct v as [it i0 m sW ww ol ip bb sh], v' as [it' i0' m' sW' ww' ol' ip' bb' sh'].
  unfold locals_alike. cbn [iter I0 sums sigmaW w olds interpflag bbox shape].
  intros (-> & -> & Hm & -> & -> & -> & -> & -> & -> & Hf).
  pose proof Hm as (k & Hk & Hs & Hsx & Hsy & Hsxx & Hsxy & Hsyy).
  destruct ww as [[w11 w12] w22], ol as [[e1_old e2_old] s_old].
  unfold update. cbn [iter I0 sums sigmaW w olds interpflag bbox shape].
  rewrite Hs, Hsx, Hsy, Hsxx, Hsxy, Hsyy.
  rewrite !(xs_ratio k) by lra.
  repeat match goal with
         | |- pass_alike _ (if ?b then _ else _) _ => destruct b
         end;
    cbn [pass_alike]; unfold locals_alike, raise_flag, with_shape;
    cbn [iter I0 sums sigmaW w olds interpflag bbox shape];
    repeat split; try reflexivity; try exact Hm;
    repeat match goal with |- context [if ?b then _ else _] => destruct b end;
    exact Hf.
Qed.

Lemma mscale_alike (m : Moments xreal) : sums_alike m (mscale c m).
Proof. exists c. unfold mscale. cbn. repeat split; try reflexivity. exact Hc. Qed.

Lemma body_alike (v v' : @Locals xreal) :
  locals_alike c v v' ->
  pass_alike c
    (body mimage bkgd xcen ycen shiftmax tol1 tol2 negative v)
    (body (brighten c mimage) (XR c * bkgd) xcen ycen shiftmax tol1 tol2 negative v').
Proof.
  destruct v as [it i0 m sW ww ol ip bb sh], v' as [it' i0' m' sW' ww' ol' ip' bb' sh'].
  unfold locals_alike. cbn [iter I0 sums sigmaW w olds interpflag bbox shape].
  intros (-> & -> & Hm & -> & -> & -> & -> & -> & -> & Hf).
  destruct sW as [[sigma11W sigma12W] sigma22W], ww as [[ow11 ow12] ow22],
    ol as [[e1_old e2_old] s_old].
  unfold body. cbn [iter I0 sums sigmaW w olds interpflag bbox shape].
  change (getBBox_LOCAL (brighten c mimage)) with (getBBox_LOCAL mimage).
  destruct (computeAdaptiveMomentsBBox _ _ _ _ _ _ _) as [bbox' | e |];
    [| cbn; repeat split; try reflexivity; assumption | exact I].
  destruct (negb (fst (get0 (getWeights sigma11W sigma12W sigma22W)))).
  { apply raise_flag_alike. cbn. repeat split; try reflexivity; assumption. }
  destruct (_ <? _).
  { cbn. repeat split; try reflexivity; assumption. }
  destruct (if _ && _ && _ then (ow11, ow12, ow22) else _) as [[w11 w12] w22].
  rewrite calcmom_scale by exact Hc.
  destruct (calcmom mimage _ _ _ _ _ _ _ _ _) as [r | e |]; cbn [omap].
  - change (status (rscale c r)) with (status r).
    apply update_alike. cbn. repeat split; try reflexivity; try assumption.
    apply mscale_alike.
  - cbn. repeat split; try reflexivity; assumption.
  - exact I.
Qed.

Lemma loop_alike (fuel : nat) (maxIter : Z) (v v' : @Locals xreal) :
  locals_alike c v v' ->
  pass_alike c
    (loop mimage bkgd xcen ycen shiftmax tol1 tol2 negative fuel maxIter v)
    (loop (brighten c mimage) (XR c * bkgd) xcen ycen shiftmax tol1 tol2 negative
       fuel maxIter v').
Proof.
  revert v v'. induction fuel as [| fuel IH]; intros v v' Hv; cbn [loop];
    pose proof Hv as (Hit & _); rewrite Hit;
    destruct (iter v <? maxIter)%Z; try exact Hv; [exact I |].
  pose proof (body_alike v v' Hv) as Hb.
  destruct (body mimage _ _ _ _ _ _ _ v) as [u | u | b u | e u |],
    (body (brighten c mimage) _ _ _ _ _ _ _ v') as [u' | u' | b' u' | e' u' |];
    cbn [pass_alike] in Hb; try contradiction; try exact Hb.
  apply IH. destruct Hb as (E1 & E2 & E3 & E4 & E5 & E6 & E7 & E8 & E9 & E10).
  unfold locals_alike. cbn. rewrite E1. repeat split; assumption.
Qed.

Lemma after_loop_alike (maxIter : Z) (v v' : @Locals xreal) :
  locals_alike c v v' ->
  locals_alike c (after_loop maxIter v) (after_loop maxIter v').
Proof.
  intros Hv. unfold after_loop.
  pose proof Hv as (Hit & _). rewrite Hit.
  assert (Hv1 : locals_alike c
            (if (iter v =? maxIter)%Z
             then raise_flag MAXITER (raise_flag UNWEIGHTED v) else v)
            (if (iter v =? maxIter)%Z
             then raise_flag MAXITER (raise_flag UNWEIGHTED v') else v')).
  { destruct (iter v =? maxIter)%Z; [| exact Hv]. now do 2 apply raise_flag_alike. }
  revert Hv1. generalize (if (iter v =? maxIter)%Z
             then raise_flag MAXITER (raise_flag UNWEIGHTED v) else v).
  generalize (if (iter v =? maxIter)%Z
             then raise_flag MAXITER (raise_flag UNWEIGHTED v') else v').
  intros u' u Hu.
  assert (Ht : (sumxx (sums u') + sumyy (sums u') =? of_int 0)
               = (sumxx (sums u) + sumyy (sums u) =? of_int 0)).
  { destruct Hu as (_ & _ & (k & Hk & _ & _ & _ & Hxx & _ & Hyy) & _).
    rewrite Hxx, Hyy, xs_add. apply xs_eq0. exact Hk. }
  rewrite Ht. clear Ht.
  destruct (_ =? _); [now apply raise_flag_alike | exact Hu].
Qed.

Lemma unweighted_moments_alike (v v' : @Locals xreal) :
  locals_alike c v v' ->
  pass_alike c
    (unweighted_moments mimage bkgd xcen ycen negative v)
    (unweighted_moments (brighten c mimage) (XR c * bkgd) xcen ycen negative v').
Proof.
  intros Hv. pose proof Hv as (Hit & HI & Hm & HsW & Hw & Ho & Hi & Hb & Hsh & Hf).
  unfold unweighted_moments. rewrite Hsh, Hb, Hi.
  destruct (Result.flags (shape v) UNWEIGHTED); [| exact Hv].
  rewrite calcmom_scale by exact Hc.
  destruct (calcmom mimage _ _ _ _ _ _ _ _ _) as [r | e |]; cbn [omap];
    [| cbn; rewrite Hit, HI, HsW, Ho; repeat split; try reflexivity; assumption
     | exact I].
  unfold rscale. cbn [status pI0 psums mscale sum sumx sumy sumxx sumxy sumyy sums4].
  change (@of_int xreal _ 0) with (XR 0).
  rewrite xs_le0, xs_ge0, xs_gt0, !xs_ratio by lra.
  rewrite Hit, HsW, Ho.
  assert (Hm' : forall a b,
             sums_alike
               {| sum := sum (psums r); sumx := sumx (psums r); sumy := sumy (psums r);
                  sumxx := sumxx (psums r); sumxy := sumxy (psums r);
                  sumyy := sumyy (psums r); sums4 := a |}
               {| sum := XR c * sum (psums r); sumx := XR c * sumx (psums r);
                  sumy := XR c * sumy (psums r); sumxx := XR c * sumxx (psums r);
                  sumxy := XR c * sumxy (psums r); sumyy := XR c * sumyy (psums r);
                  sums4 := b |}).
  { intros a b. exists c. cbn. repeat split; try reflexivity. exact Hc. }
  destruct (_ || _ || _).
  - cbn [pass_alike]. split; [reflexivity |].
    unfold locals_alike, with_shape.
    cbn [iter I0 sums sigmaW w olds interpflag bbox shape].
    repeat split; try reflexivity; try apply Hm'.
    destruct (_ >? _); exact Hf.
  - cbn [pass_alike]. unfold locals_alike.
    cbn [iter I0 sums sigmaW w olds interpflag bbox shape].
    repeat split; try reflexivity; try apply Hm'. exact Hf.
Qed.
End BrighterEngine.

Section BrighterResult.
Local Open Scope fl_scope.
Variable c : R.
Hypothesis Hc : (0 < c)%R.

Lemma brighter_unwritten (s : Result.t xreal) :
  s.[Result.instFlux] = XNaN -> brighter_result c s s.
Proof.
  intros Hf. unfold brighter_result. rewrite Hf. repeat split; reflexivity.
Qed.

Lemma brighter_set_flag (k : Flag) (b : bool) (s s' : Result.t xreal) :
  brighter_result c s s' ->
  brighter_result c (Result.set_flag k b s) (Result.set_flag k b s').
Proof.
  intros (Hfl & Hrest). split; [| exact Hrest].
  intros k'. cbn. now rewrite Hfl.
Qed.

(** The error step on two results that differ in the flux only. *)
Lemma store_errors_alike (s s' : Result.t xreal) (bkgd_var : xreal) :
  brighter_result c s s' ->
  match store_errors s bkgd_var, store_errors s' bkgd_var with
  | Ret t, Ret t' => brighter_result c t t'
  | Throw e, Throw e' => e = e'
  | Diverge, Diverge => True
  | _, _ => False
  end.
Proof.
  intros (Hfl & Hx & Hy & Hxx & Hyy & Hxy & Hf).
  unfold store_errors, calc_fisher. cbn [to_float exact_libm].
  rewrite Hxx, Hyy, Hxy.
  destruct (_ <=? double_epsilon); [reflexivity |].
  destruct (_ <=? of_int 0); [reflexivity |].
  cbn [bind]. unfold brighter_result.
  cbn [Result.get Result.set Result.value Result.flags Result.member_eqb].
  repeat split; assumption.
Qed.
End BrighterResult.

Section BrighterMeasurement.
Local Open Scope fl_scope.
Variable c : R.
Hypothesis Hc : (0 < c)%R.

Lemma finish_alike (mimage : Image xreal) (xcen ycen : xreal) (v v' : @Locals xreal) :
  locals_alike c v v' ->
  fst (finish (brighten c mimage) xcen ycen v') = fst (finish mimage xcen ycen v) /\
  brighter_result c (snd (finish mimage xcen ycen v))
    (snd (finish (brighten c mimage) xcen ycen v')).
Proof.
  destruct v as [it i0 m sW ww ol ip bb sh], v' as [it' i0' m' sW' ww' ol' ip' bb' sh'].
  unfold locals_alike. cbn [iter I0 sums sigmaW w olds interpflag bbox shape].
  intros (-> & -> & Hm & -> & -> & -> & -> & -> & -> & Hf).
  destruct sW as [[sigma11W sigma12W] sigma22W].
  unfold finish. cbn [iter I0 sums sigmaW w olds interpflag bbox shape].
  cbn [Result.get Result.set Result.value Result.flags Result.member_eqb].
  cbn [brighten getWidth getHeight]. unfold getVariance. cbn [brighten variance].
  set (s := Result.set Result.yy sigma22W
              (Result.set Result.xy sigma12W
                 (Result.set Result.xx sigma11W (Result.set Result.instFlux i0 sh)))).
  set (s' := Result.set Result.yy sigma22W
               (Result.set Result.xy sigma12W
                  (Result.set Result.xx sigma11W
                     (Result.set Result.instFlux (XR c * i0) sh)))).
  assert (Hs : brighter_result c s s').
  { unfold brighter_result, s, s'. cbn. repeat split; reflexivity. }
  destruct (negb _); [| split; [reflexivity | exact Hs]].
  destruct (_ && _ && _ && _); [| split; [reflexivity | exact Hs]].
  destruct (_ >? of_int 0); [| split; [reflexivity | exact Hs]].
  destruct (negb _); [| split; [reflexivity | exact Hs]].
  match goal with |- context [store_errors s ?var] =>
    pose proof (store_errors_alike c s s' var Hs) as He;
    destruct (store_errors s var) as [t | e |],
             (store_errors s' var) as [t' | e' |];
    try contradiction; cbn [fst snd]
  end.
  - split; [reflexivity | exact He].
  - split; [now rewrite He | exact Hs].
  - split; [reflexivity | exact Hs].
Qed.

Lemma xs_one (a : xreal) : a = XR 1 * a.
Proof. destruct a; cbn; [reflexivity |]. f_equal. ring. Qed.

Lemma entry_alike (shape0 : Result.t xreal) (indeterminate : Moments xreal) :
  shape0.[Result.instFlux] = XNaN ->
  locals_alike c (entry shape0 indeterminate) (entry shape0 indeterminate).
Proof.
  intros Hf. unfold locals_alike, entry.
  cbn [iter I0 sums sigmaW w olds interpflag bbox shape].
  repeat split; try reflexivity; try exact Hf.
  - cbn. f_equal. ring.
  - exists 1%R. repeat split; try apply xs_one. lra.
Qed.

Lemma getAdaptiveMoments_alike (mimage : Image xreal) (bkgd xcen ycen shiftmax : xreal)
    (shape0 : Result.t xreal) (maxIter : Z) (tol1 tol2 : xreal) (negative : bool)
    (indeterminate : Moments xreal) :
  shape0.[Result.instFlux] = XNaN ->
  fst (getAdaptiveMoments (brighten c mimage) (XR c * bkgd) xcen ycen shiftmax shape0
         maxIter tol1 tol2 negative indeterminate)
  = fst (getAdaptiveMoments mimage bkgd xcen ycen shiftmax shape0
           maxIter tol1 tol2 negative indeterminate) /\
  brighter_result c
    (snd (getAdaptiveMoments mimage bkgd xcen ycen shiftmax shape0
            maxIter tol1 tol2 negative indeterminate))
    (snd (getAdaptiveMoments (brighten c mimage) (XR c * bkgd) xcen ycen shiftmax shape0
            maxIter tol1 tol2 negative indeterminate)).
Proof.
  intros Hf. unfold getAdaptiveMoments.
  destruct (isnan xcen || isnan ycen).
  { split; [reflexivity |]. apply brighter_unwritten. exact Hf. }
  unfold loop_exit.
  pose proof (loop_alike c Hc mimage bkgd xcen ycen shiftmax (to_float tol1)
                (to_float tol2) negative (S (Z.to_nat maxIter)) maxIter _ _
                (entry_alike shape0 indeterminate Hf)) as Hl.
  assert (Hdone : forall p p' : @pass xreal,
            pass_alike c p p' ->
            match p, p' with
            | Next _, Next _ | Break _, Break _ | Hang, Hang => True
            | Return b u, Return b' u' =>
                b = b' /\ brighter_result c (shape u) (shape u')
            | Raise e u, Raise e' u' =>
                e = e' /\ brighter_result c (shape u) (shape u')
            | _, _ => False
            end).
  { intros [u | u | b u | e u |] [u' | u' | b' u' | e' u' |] Hp;
      cbn [pass_alike] in Hp; try contradiction; try exact I;
      destruct Hp as (-> & Hu); (split; [reflexivity |]);
      destruct Hu as (_ & _ & _ & _ & _ & _ & _ & _ & -> & Hfu);
      now apply brighter_unwritten. }
  assert (Hrest : forall u u' : @Locals xreal,
            locals_alike c u u' ->
            fst (match unweighted_moments (brighten c mimage) (XR c * bkgd) xcen ycen
                         negative (after_loop maxIter u') with
                 | Hang => (Diverge, shape0)
                 | Raise e v => (Throw e, shape v)
                 | Return b v => (Ret b, shape v)
                 | Next v | Break v => finish (brighten c mimage) xcen ycen v
                 end)
            = fst (match unweighted_moments mimage bkgd xcen ycen negative
                           (after_loop maxIter u) with
                   | Hang => (Diverge, shape0)
                   | Raise e v => (Throw e, shape v)
                   | Return b v => (Ret b, shape v)
                   | Next v | Break v => finish mimage xcen ycen v
                   end) /\
            brighter_result c
              (snd (match unweighted_moments mimage bkgd xcen ycen negative
                           (after_loop maxIter u) with
                   | Hang => (Diverge, shape0)
                   | Raise e v => (Throw e, shape v)
                   | Return b v => (Ret b, shape v)
                   | Next v | Break v => finish mimage xcen ycen v
                   end))
              (snd (match unweighted_moments (brighten c mimage) (XR c * bkgd) xcen ycen
                         negative (after_loop maxIter u') with
                 | Hang => (Diverge, shape0)
                 | Raise e v => (Throw e, shape v)
                 | Return b v => (Ret b, shape v)
                 | Next v | Break v => finish (brighten c mimage) xcen ycen v
                 end))).
  { intros u u' Hu.
    pose proof (unweighted_moments_alike c Hc mimage bkgd xcen ycen negative _ _
                  (after_loop_alike c maxIter u u' Hu)) as Hw.
    pose proof (Hdone _ _ Hw) as Hd.
    destruct (unweighted_moments mimage _ _ _ _ _) as [t | t | b t | e t |],
      (unweighted_moments (brighten c mimage) _ _ _ _ _) as [t' | t' | b' t' | e' t' |];
      cbn [pass_alike] in Hw; try contradiction; cbn [fst snd];
      try (now apply finish_alike);
      try (destruct Hd as (-> & Hd); split; [reflexivity | exact Hd]).
    split; [reflexivity |]. now apply brighter_unwritten. }
  pose proof (Hdone _ _ Hl) as Hd.
  destruct (loop mimage _ _ _ _ _ _ _ _ _ _) as [u | u | b u | e u |],
    (loop (brighten c mimage) _ _ _ _ _ _ _ _ _ _) as [u' | u' | b' u' | e' u' |];
    cbn [pass_alike] in Hl; try contradiction;
    try (now apply Hrest);
    try (destruct Hd as (-> & Hd); split; [reflexivity | exact Hd]).
  split; [reflexivity |]. now apply brighter_unwritten.
Qed.
End BrighterMeasurement.

Section BrighterSource.
Local Open Scope fl_scope.

(** The shape does not depend on the brightness of the source.  Let the
    pixels of the image and the background of the control be multiplied
    by a factor [c > 0], the variance plane left as it is.  In exact
    arithmetic [computeAdaptiveMoments] then ends as before: it throws
    when it threw before, and otherwise returns the same flags, the
    same centroid [x], [y] and the same moments [xx], [yy], [xy], with
    the flux multiplied by [c]. *)
Theorem computeAdaptiveMoments_brightness (c : R) (image : Image xreal)
    (center_x center_y : xreal) (negative : bool) (control : Control xreal)
    (indeterminate : Moments xreal) :
  (0 < c)%R ->
  match
    computeAdaptiveMoments image center_x center_y negative control indeterminate,
    computeAdaptiveMoments (brighten c image) center_x center_y negative
      (brighten_control c control) indeterminate
  with
  | Ret r, Ret r' => brighter_result c r r'
  | Throw e, Throw e' => e = e'
  | Diverge, Diverge => True
  | _, _ => False
  end.
Proof.
  intros Hc. unfold computeAdaptiveMoments.
  cbn [brighten_control background maxIter maxShift tol1 tol2 brighten getX0 getY0].
  match goal with |- context [getAdaptiveMoments image ?bk ?xc ?yc ?sm ?s0 ?mi ?t1 ?t2 ?ng ?ind] =>
    pose proof (getAdaptiveMoments_alike c Hc image bk xc yc sm s0 mi t1 t2 ng ind
                  eq_refl) as (Ho & Hr);
    destruct (getAdaptiveMoments image bk xc yc sm s0 mi t1 t2 ng ind) as [o r];
    destruct (getAdaptiveMoments (brighten c image) (XR c * bk) xc yc sm s0 mi t1 t2
                ng ind) as [o' r']
  end.
  cbn [fst snd] in Ho, Hr. subst o'.
  assert (Hs : forall b, brighter_result c (Result.set_flag FAILURE b r)
                           (Result.set_flag FAILURE b r'))
    by (intros b; now apply brighter_set_flag).
  destruct o as [b | e |]; [| | exact I]; cbv beta iota;
    [specialize (Hs (negb b)); revert Hs;
     generalize (Result.set_flag FAILURE (negb b) r)
                (Result.set_flag FAILURE (negb b) r')
    | specialize (Hs true); revert Hs;
      generalize (Result.set_flag FAILURE true r) (Result.set_flag FAILURE true r')];
    clear r r' Hr; intros s s' Hs.
  all: assert (Ht : brighter_result c
            (if Result.flags s UNWEIGHTED || Result.flags s SHIFT
             then Result.set_flag FAILURE true s else s)
            (if Result.flags s' UNWEIGHTED || Result.flags s' SHIFT
             then Result.set_flag FAILURE true s' else s'))
    by (pose proof Hs as (Hfl & _); rewrite !Hfl;
        destruct (_ || _); [now apply brighter_set_flag | exact Hs]).
  all: revert Ht;
    generalize (if Result.flags s UNWEIGHTED || Result.flags s SHIFT
                then Result.set_flag FAILURE true s else s)
               (if Result.flags s' UNWEIGHTED || Result.flags s' SHIFT
                then Result.set_flag FAILURE true s' else s');
    clear s s' Hs; intros t t' (Hfl & Hx & Hy & Hxx & Hyy & Hxy & Hf).
  all: rewrite Hfl, Hxx, Hyy, Hxy.
  all: destruct (_ && _); [reflexivity |].
  all: unfold hasVariance; cbn [brighten variance].
  all: destruct (variance image); unfold brighter_result;
    cbn [Result.get Result.set Result.value Result.flags Result.member_eqb].
  all: change (Result.value t' ?m) with (t'.[m]).
  all: change (Result.value t ?m) with (t.[m]).
  all: rewrite Hx, Hy, Hf, Hxx, Hyy, Hxy, xs_mul_l.
  all: repeat split; try reflexivity; exact Hfl.
Qed.
End BrighterSource.

(** The ringed image and the same image twice as bright. *)
Lemma computeAdaptiveMoments_brightness_witness :
  match
    computeAdaptiveMoments ringed_3x3 (XR 1) (XR 1) false one_pass_control unwritten,
    computeAdaptiveMoments (brighten 2 ringed_3x3) (XR 1) (XR 1) false
      (brighten_control 2 one_pass_control) unwritten
  with
  | Ret r, Ret r' => brighter_result 2 r r'
  | Throw e, Throw e' => e = e'
  | Diverge, Diverge => True
  | _, _ => False
  end.
Proof.
  apply (computeAdaptiveMoments_brightness 2 ringed_3x3 (XR 1) (XR 1) false
           one_pass_control unwritten).
  lra.
Defined.

(** ** The sub-pixel grid under rounding *)

Section RoundedGrid.
Local Open Scope fl_scope.
Variable rnd : R -> R.
Hypothesis rnd_eighth :
  forall k : Z, (Z.abs k <= 16777216)%Z -> rnd (IZR k / 8) = (IZR k / 8)%R.

Lemma rounded_eighth (k : Z) :
  (Z.abs k <= 16777216)%Z -> rnd (eighth k) = eighth k.
Proof. apply rnd_eighth. Qed.

Lemma eighth_add (k n : Z) : (eighth k + IZR n / 8 = eighth (k + n))%R.
Proof. unfold eighth. rewrite plus_IZR. field. Qed.

Lemma eighth_lt (a b : Z) : (a < b)%Z -> (eighth a < eighth b)%R.
Proof. intros Hab. unfold eighth. apply IZR_lt in Hab. lra. Qed.

Lemma eighth_le (a b : Z) : (a <= b)%Z -> (eighth a <= eighth b)%R.
Proof. intros Hab. unfold eighth. apply IZR_le in Hab. lra. Qed.

Lemma rounded_subgrid_step (A : Type) (n : nat) (k h : Z)
    (body : xreal -> A -> outcome A) (acc : A) :
  (k <= h)%Z -> (Z.abs (k + 2) <= 16777216)%Z ->
  @subgrid xreal exact (rounded_libm rnd) A (S n) (XR (eighth k)) (XR (eighth h)) body acc
  = bind (body (XR (eighth k)) acc)
      (fun acc' =>
         @subgrid xreal exact (rounded_libm rnd) A n (XR (eighth (k + 2)))
           (XR (eighth h)) body acc').
Proof.
  intros Hle Hk. cbn [subgrid]. rewrite exact_lit by rneq.
  cbn [fle exact xcmp fadd xlift2 to_float rounded_libm xmap].
  rewrite Rleb_true by now apply eighth_le.
  replace (eighth k + 1 / 4)%R with (eighth (k + 2))
    by (unfold eighth; rewrite plus_IZR; field).
  now rewrite rounded_eighth.
Qed.

Lemma rounded_subgrid_stop (A : Type) (n : nat) (k h : Z)
    (body : xreal -> A -> outcome A) (acc : A) :
  (h < k)%Z ->
  @subgrid xreal exact (rounded_libm rnd) A n (XR (eighth k)) (XR (eighth h)) body acc
  = Ret acc.
Proof.
  intros Hlt. destruct n; cbn [subgrid fle exact xcmp];
    now rewrite Rleb_false by now apply eighth_lt.
Qed.

(** One loop over the grid: it makes four passes when both ends are
    multiples of an eighth that [float] holds. *)
Lemma rounded_subgrid_sum (k : Z)
    (body : xreal -> Moments xreal -> outcome (Moments xreal))
    (g : R -> Moments R) (m : Moments R) :
  (forall X m, body (XR X) (lift_moments m) = Ret (lift_moments (madd m (g X)))) ->
  (Z.abs k + 8 <= 16777216)%Z ->
  @subgrid xreal exact (rounded_libm rnd) _ subgrid_fuel (XR (eighth k))
    (XR (eighth (k + 6))) body (lift_moments m)
  = Ret (lift_moments
           (madd m (msum (fun n => g (eighth (k + 2 * n))) [0; 1; 2; 3]%Z))).
Proof.
  intros Hbody Hk. unfold subgrid_fuel.
  rewrite rounded_subgrid_step, Hbody by lia. cbn [bind].
  rewrite rounded_subgrid_step, Hbody by lia. cbn [bind].
  rewrite rounded_subgrid_step, Hbody by lia. cbn [bind].
  rewrite rounded_subgrid_step, Hbody by lia. cbn [bind].
  rewrite rounded_subgrid_stop by lia.
  do 2 f_equal. cbn [msum fold_right].
  replace (k + 2 * 0)%Z with k by lia.
  replace (k + 2 * 1)%Z with (k + 2)%Z by lia.
  replace (k + 2 * 2)%Z with (k + 2 + 2)%Z by lia.
  replace (k + 2 * 3)%Z with (k + 2 + 2 + 2)%Z by lia.
  apply moments_eq; cbn; ring.
Qed.

Lemma rounded_subpixel (xc yc w11 w12 w22 t Y X : R) (m : Moments R) :
  @subpixel xreal exact (rounded_libm rnd) (XR xc) (XR yc) (XR w11) (XR w12) (XR w22)
    (XR t) (XR Y) (XR X) (lift_moments m)
  = Ret (lift_moments
           (madd m (rounded_subpixel_moments rnd t xc yc w11 w12 w22 Y X))).
Proof.
  unfold subpixel. rewrite !exact_lit by rneq. cbn.
  unfold rounded_subpixel_moments. reflexivity.
Qed.

Lemma rounded_corner_expon (xl xh yl yh w11 w12 w22 : R) :
  @corner_expon xreal exact (rounded_libm rnd) (XR xl) (XR xh) (XR yl) (XR yh)
    (XR w11) (XR w12) (XR w22)
  = XR (rounded_corner_exponent rnd xl xh yl yh w11 w12 w22).
Proof.
  unfold corner_expon, rounded_corner_exponent. cbn.
  repeat (destruct (Rltb _ _); cbn); reflexivity.
Qed.

Lemma rounded_interp_pixel_step (W Hh x0 y0 : Z) (p : Z -> Z -> R)
    (var : option (Z -> Z -> R)) (kx ky : Z) (bk w11 w12 w22 : R) (i j : Z)
    (m : Moments R) :
  (Z.abs (8 * j - kx) + 16 <= 16777216)%Z ->
  (Z.abs (8 * i - ky) + 16 <= 16777216)%Z ->
  @pixel_step xreal exact (rounded_libm rnd) (real_image W Hh x0 y0 p var)
    (XR (eighth kx)) (XR (eighth ky)) (XR bk) true (XR w11) (XR w12) (XR w22) i j
    (lift_moments m)
  = Ret (lift_moments
           (madd m (rounded_interp_pixel_moments rnd p kx ky bk w11 w12 w22 i j))).
Proof.
  intros Hj Hi.
  assert (Ex : forall n, (Z.abs n <= 8)%Z ->
             rnd (eighth (8 * j - kx + n)) = eighth (8 * j - kx + n))
    by (intros n Hn; apply rounded_eighth; lia).
  assert (Ey : forall n, (Z.abs n <= 8)%Z ->
             rnd (eighth (8 * i - ky + n)) = eighth (8 * i - ky + n))
    by (intros n Hn; apply rounded_eighth; lia).
  unfold pixel_step, rounded_interp_pixel_moments. rewrite !exact_lit by rneq.
  cbn [to_float rounded_libm xmap fsub fadd exact xlift2 of_int pixel real_image].
  replace (IZR j - eighth kx)%R with (eighth (8 * j - kx + 0))
    by (unfold eighth; rewrite Z.add_0_r, minus_IZR, mult_IZR; field).
  replace (IZR i - eighth ky)%R with (eighth (8 * i - ky + 0))
    by (unfold eighth; rewrite Z.add_0_r, minus_IZR, mult_IZR; field).
  rewrite Ex, Ey by lia.
  replace (eighth (8 * j - kx + 0) - 3 / 8)%R with (eighth (8 * j - kx + -3))
    by (unfold eighth; rewrite !plus_IZR; field).
  replace (eighth (8 * j - kx + 0) + 3 / 8)%R with (eighth (8 * j - kx + 3))
    by (unfold eighth; rewrite !plus_IZR; field).
  replace (eighth (8 * i - ky + 0) - 3 / 8)%R with (eighth (8 * i - ky + -3))
    by (unfold eighth; rewrite !plus_IZR; field).
  replace (eighth (8 * i - ky + 0) + 3 / 8)%R with (eighth (8 * i - ky + 3))
    by (unfold eighth; rewrite !plus_IZR; field).
  rewrite !Ex, !Ey by lia.
  change (8 * j - kx + -3)%Z with (8 * j - kx - 3)%Z.
  change (8 * i - ky + -3)%Z with (8 * i - ky - 3)%Z.
  rewrite rounded_corner_expon. cbn [fle exact xcmp of_int].
  destruct (Rleb _ 9); [| now rewrite madd_mzero_r].
  replace (8 * i - ky + 3)%Z with (8 * i - ky - 3 + 6)%Z by lia.
  replace (8 * j - kx + 3)%Z with (8 * j - kx - 3 + 6)%Z by lia.
  rewrite (rounded_subgrid_sum _ _
             (fun Y => msum (fun nx =>
                               rounded_subpixel_moments rnd (rnd (p j i - bk))
                                 (eighth kx) (eighth ky) w11 w12 w22 Y
                                 (eighth (8 * j - kx - 3 + 2 * nx)))
                            [0; 1; 2; 3]%Z)).
  - reflexivity.
  - intros Y m'.
    rewrite (rounded_subgrid_sum _ _
               (rounded_subpixel_moments rnd (rnd (p j i - bk)) (eighth kx) (eighth ky)
                  w11 w12 w22 Y)).
    + reflexivity.
    + intros X m''. apply rounded_subpixel.
    + lia.
  - lia.
Qed.

Lemma rounded_interp_row (W Hh x0 y0 : Z) (p : Z -> Z -> R)
    (var : option (Z -> Z -> R)) (kx ky : Z) (bk w11 w12 w22 : R) (i : Z)
    (cols : list Z) (m : Moments R) :
  (Z.abs (8 * i - ky) + 16 <= 16777216)%Z ->
  (forall j, In j cols -> (Z.abs (8 * j - kx) + 16 <= 16777216)%Z) ->
  for_each cols
    (@pixel_step xreal exact (rounded_libm rnd) (real_image W Hh x0 y0 p var)
       (XR (eighth kx)) (XR (eighth ky)) (XR bk) true (XR w11) (XR w12) (XR w22) i)
    (lift_moments m)
  = Ret (lift_moments
           (madd m (msum (rounded_interp_pixel_moments rnd p kx ky bk w11 w12 w22 i)
                         cols))).
Proof.
  intros Hi. revert m; induction cols as [| j cols IH]; intros m Hcols;
    cbn [for_each msum fold_right].
  - now rewrite madd_mzero_r.
  - rewrite rounded_interp_pixel_step by (try apply Hcols; auto; now left).
    cbn [bind]. rewrite IH by (intros j' Hj'; apply Hcols; now right).
    now rewrite madd_assoc.
Qed.

Lemma rounded_interp_rows (W Hh x0 y0 : Z) (p : Z -> Z -> R)
    (var : option (Z -> Z -> R)) (kx ky : Z) (bk w11 w12 w22 : R)
    (rows cols : list Z) (m : Moments R) :
  (forall i, In i rows -> (Z.abs (8 * i - ky) + 16 <= 16777216)%Z) ->
  (forall j, In j cols -> (Z.abs (8 * j - kx) + 16 <= 16777216)%Z) ->
  for_each rows
    (fun i => for_each cols
       (@pixel_step xreal exact (rounded_libm rnd) (real_image W Hh x0 y0 p var)
          (XR (eighth kx)) (XR (eighth ky)) (XR bk) true (XR w11) (XR w12) (XR w22) i))
    (lift_moments m)
  = Ret (lift_moments
           (madd m (msum (fun i =>
                            msum (rounded_interp_pixel_moments rnd p kx ky bk
                                    w11 w12 w22 i) cols) rows))).
Proof.
  intros Hrows Hcols. revert m Hrows; induction rows as [| i rows IH]; intros m Hrows;
    cbn [for_each msum fold_right].
  - now rewrite madd_mzero_r.
  - rewrite rounded_interp_row by (try apply Hrows; auto; now left).
    cbn [bind]. rewrite IH by (intros i' Hi'; apply Hrows; now right).
    now rewrite madd_assoc.
Qed.

Lemma Zrange_In (lo hi k : Z) : In k (Zrange lo hi) -> (lo <= k <= hi)%Z.
Proof.
  unfold Zrange. rewrite in_map_iff. intros (n & <- & Hn).
  apply in_seq in Hn. lia.
Qed.

(** [calcmom] with interpolation at a centre on the grid of eighths. *)
Lemma rounded_interp_calcmom (W Hh x0 y0 : Z) (p : Z -> Z -> R)
    (var : option (Z -> Z -> R)) (kx ky : Z) (bbox : geom.Box2I)
    (bk w11 w12 w22 : R) (negative : bool) :
  invalid_weights (XR w11) (XR w12) (XR w22) = false ->
  (0 <= geom.getMinX bbox /\ geom.getMaxX bbox < W /\
   0 <= geom.getMinY bbox /\ geom.getMaxY bbox < Hh)%Z ->
  (0 <= W)%Z -> (0 <= Hh)%Z ->
  (8 * W + Z.abs kx + 16 <= 16777216)%Z ->
  (8 * Hh + Z.abs ky + 16 <= 16777216)%Z ->
  exists r,
    @calcmom xreal exact (rounded_libm rnd) (real_image W Hh x0 y0 p var)
      (XR (eighth kx)) (XR (eighth ky)) bbox (XR bk) true
      (XR w11) (XR w12) (XR w22) negative = Ret r /\
    psums r = lift_moments
                (rounded_interp_box_moments rnd p kx ky (rnd bk) w11 w12 w22 bbox).
Proof.
  intros Hw Hin HW HH Hkx Hky. unfold calcmom.
  rewrite Hw, (inside_image xreal (real_image W Hh x0 y0 p var) bbox Hin).
  cbn [to_float rounded_libm xmap].
  rewrite !rounded_eighth by lia.
  change (@zero_moments xreal _) with (lift_moments mzero).
  rewrite rounded_interp_rows.
  - cbn [bind]. rewrite madd_mzero_l. eexists; split; reflexivity.
  - intros i Hi. apply Zrange_In in Hi. lia.
  - intros j Hj. apply Zrange_In in Hj. lia.
Qed.

(** With interpolation, at a centre whose coordinates are multiples of
    1/8 and on an image of less than two million pixels a side,
    [calcmom] sums sixteen points in each pixel that takes part: the
    points 3/8 and 1/8 to either side of the pixel's centre, in both
    directions.  This holds for the [float] counters of the code under
    any rounding that leaves the multiples [k / 8] with [|k| <= 2^24]
    as they are, as every rounding to binary32 does: the ends of the
    two loops and every step of 0.25 are then exact.  A pixel takes
    part when the largest exponent at the four outer points is at most
    9; each point adds the pixel's value above the background times
    [exp(-Q/2)] at that point, with no division by 16, and the first
    moments carry the point's own coordinates. *)
Theorem calcmom_interpolated_sums (W Hh x0 y0 : Z) (p : Z -> Z -> R)
    (var : option (Z -> Z -> R)) (kx ky : Z) (bbox : geom.Box2I)
    (bk w11 w12 w22 : R) (negative : bool) :
  (0 <= w11 <= 1000000)%R -> (Rabs w12 <= 1000000)%R -> (0 <= w22 <= 1000000)%R ->
  (0 <= geom.getMinX bbox /\ geom.getMaxX bbox < W /\
   0 <= geom.getMinY bbox /\ geom.getMaxY bbox < Hh)%Z ->
  (0 <= W)%Z -> (0 <= Hh)%Z ->
  (8 * W + Z.abs kx + 16 <= 16777216)%Z ->
  (8 * Hh + Z.abs ky + 16 <= 16777216)%Z ->
  exists r,
    @calcmom xreal exact (rounded_libm rnd) (real_image W Hh x0 y0 p var)
      (XR (eighth kx)) (XR (eighth ky)) bbox (XR bk) true
      (XR w11) (XR w12) (XR w22) negative = Ret r /\
    psums r = lift_moments
                (rounded_interp_box_moments rnd p kx ky (rnd bk) w11 w12 w22 bbox).
Proof.
  intros H11 H12 H22 Hin HW HH Hkx Hky.
  apply rounded_interp_calcmom; try assumption.
  now apply exact_invalid_weights.
Qed.
End RoundedGrid.

(** The pixel (2, 2) of the image of ones, the centre at (9/8, 7/8),
    under the rounding that changes nothing. *)
Lemma calcmom_interpolated_sums_witness :
  exists r,
    @calcmom xreal exact (rounded_libm (fun a => a)) ones_3x3
      (XR (eighth 9)) (XR (eighth 7)) pixel_2_2 (XR 0) true (XR 1) (XR 0) (XR 1) false
      = Ret r /\
    psums r = lift_moments
                (rounded_interp_box_moments (fun a => a) (fun _ _ => 1%R) 9 7 0 1 0 1
                   pixel_2_2).
Proof.
  apply (calcmom_interpolated_sums (fun a => a) (fun k _ => eq_refl) 3 3 0 0
           (fun _ _ => 1%R) None 9 7 pixel_2_2 0 1 0 1 false).
  - lra.
  - rewrite Rabs_R0; lra.
  - lra.
  - cbn; lia.
  - lia.
  - lia.
  - lia.
  - lia.
Defined.

(** ** How the accumulator ends, in any arithmetic *)

Section AccumulatorEnds.
Context {F : Type} `{Arith F} `{Libm F}.
Local Open Scope fl_scope.

Lemma for_each_no_throw (A : Type) (ks : list Z) (body : Z -> A -> outcome A)
    (acc : A) (e : exn) :
  (forall k a, body k a <> Throw e) -> for_each ks body acc <> Throw e.
Proof.
  intros Hbody. revert acc; induction ks as [| k ks IH]; intros acc; cbn [for_each].
  - discriminate.
  - pose proof (Hbody k acc) as Hk.
    destruct (body k acc) as [a' | e' |]; cbn [bind];
      [apply IH | exact Hk | discriminate].
Qed.

Lemma subgrid_no_throw (A : Type) (fuel : nat) (X hi : F)
    (body : F -> A -> outcome A) (acc : A) (e : exn) :
  (forall Y a, body Y a <> Throw e) -> subgrid fuel X hi body acc <> Throw e.
Proof.
  intros Hbody. revert X acc; induction fuel as [| fuel IH]; intros X acc;
    cbn [subgrid]; destruct (X <=? hi); try discriminate.
  pose proof (Hbody X acc) as Hk.
  destruct (body X acc) as [a' | e' |]; cbn [bind];
    [apply IH | exact Hk | discriminate].
Qed.

(** One pixel throws nothing, and without interpolation it returns. *)
Lemma pixel_step_ends (image : Image F) (xcen ycen bkgd : F) (interpflag : bool)
    (w11 w12 w22 : F) (i j : Z) (m : Moments F) :
  (forall e, pixel_step image xcen ycen bkgd interpflag w11 w12 w22 i j m <> Throw e) /\
  (interpflag = false ->
   exists m', pixel_step image xcen ycen bkgd interpflag w11 w12 w22 i j m = Ret m').
Proof.
  unfold pixel_step. split.
  - intros e. destruct interpflag.
    + destruct (_ <=? _); [| discriminate].
      apply subgrid_no_throw. intros Y a. apply subgrid_no_throw. intros X a'.
      unfold subpixel. discriminate.
    + destruct (_ <=? _); discriminate.
  - intros ->. destruct (_ <=? _); eexists; reflexivity.
Qed.

(** How the full [calcmom] ends. *)
Lemma calcmom_ends (image : Image F) (xcen ycen : F) (bbox : geom.Box2I) (bkgd : F)
    (interpflag : bool) (w11 w12 w22 : F) (negative : bool) :
  match calcmom image xcen ycen bbox bkgd interpflag w11 w12 w22 negative with
  | Ret _ => invalid_weights w11 w12 w22 = false /\ outside_image image bbox = false
  | Throw e =>
      if invalid_weights w11 w12 w22 then e = InvalidParameterError
      else outside_image image bbox = true /\ e = LengthError
  | Diverge =>
      invalid_weights w11 w12 w22 = false /\ outside_image image bbox = false /\
      interpflag = true
  end.
Proof.
  unfold calcmom.
  destruct (invalid_weights w11 w12 w22); [reflexivity |].
  destruct (outside_image image bbox); [split; reflexivity |].
  match goal with |- context [for_each ?ks ?f ?a] =>
    pose proof (fun e => for_each_no_throw _ ks f a e) as Hno;
    pose proof (for_each_returns _ ks f a) as Hret;
    destruct (for_each ks f a) as [m | e |]
  end; cbn [bind].
  - split; reflexivity.
  - exfalso. apply (Hno e); [| reflexivity].
    intros i a. apply for_each_no_throw. intros j a'. apply pixel_step_ends.
  - repeat split. destruct interpflag; [reflexivity |].
    destruct Hret as [m' Hm']; [| discriminate].
    intros i a. apply for_each_returns. intros j a'.
    now apply pixel_step_ends.
Qed.

(** Either variant of [calcmom] throws nothing but the errors of its two
    validations, in any arithmetic: [InvalidParameterError] exactly for
    weights out of bounds, [LengthError] exactly for weights within
    bounds and a box that is not inside the image.  On any other input
    it returns, unless one of the loops over the sub-pixel grid, whose
    counters are [float], does not come to an end; those loops run with
    interpolation only, so without interpolation the call always
    returns.  The flux-only variant ends as the full one does. *)
Theorem calcmom_ends_by_validation (image : Image F) (xcen ycen : F)
    (bbox : geom.Box2I) (bkgd : F) (interpflag : bool) (w11 w12 w22 : F)
    (negative : bool) :
  match calcmom image xcen ycen bbox bkgd interpflag w11 w12 w22 negative,
        calcmom_flux image xcen ycen bbox bkgd interpflag w11 w12 w22 with
  | Ret _, Ret _ =>
      invalid_weights w11 w12 w22 = false /\ outside_image image bbox = false
  | Throw e, Throw e' =>
      e' = e /\
      if invalid_weights w11 w12 w22 then e = InvalidParameterError
      else outside_image image bbox = true /\ e = LengthError
  | Diverge, Diverge =>
      invalid_weights w11 w12 w22 = false /\ outside_image image bbox = false /\
      interpflag = true
  | _, _ => False
  end.
Proof.
  rewrite (calcmom_flux_agrees image xcen ycen bbox bkgd interpflag w11 w12 w22 negative).
  pose proof (calcmom_ends image xcen ycen bbox bkgd interpflag w11 w12 w22 negative)
    as Hc.
  destruct (calcmom image xcen ycen bbox bkgd interpflag w11 w12 w22 negative)
    as [r | e |]; [exact Hc | split; [reflexivity | exact Hc] | exact Hc].
Qed.
End AccumulatorEnds.
